(** * Stack synthesis in terraform-cdk: a shallow embedding of [TerraformStack]

    The class [TerraformStack] (lib/terraform-stack.ts) and the local backend
    (lib/backends/local-backend.ts) are embedded as Rocq functions:

    - [Keys]: the order in which [Object.keys] lists property keys;
    - [Json]: JSON-like values, the representation of the synthesised
      document and of what [toTerraform] reads in the raw overrides;
    - [Js]: objects in a heap, with prototypes, for code that changes
      objects in place and reads properties with [o[k]];
    - [Deps]: the [dependencies] arrays of the stacks, [dependsOn] and
      [addDependency];
    - [Scopes]: a construct seen from below (its chain of scopes), for
      [TerraformStack.of] and [allocateLogicalId];
    - [Tree]: a construct seen from above (its children), for
      [terraformElements] and the traversal of the [backend] getter;
    - [Stack]: the stack objects of an application, the [backend] getter
      and the two cross-stack registration methods;
    - [Overrides]: [addOverride], on the heap that holds [rawOverrides];
    - [Synth]: [toTerraform].

    Objects are identified by a reference (a natural number); [===] and
    [Array.prototype.includes]/[indexOf] on objects compare references.
    Recursion that follows [dependencies] takes fuel, since nothing in the
    code bounds it; recursion over the construct tree is structural, the
    tree being finite. *)

From Stdlib Require Import Ascii.
From stdpp Require Import gmap strings list relations.

(** ** Outcomes of code that can throw *)

Inductive result (E A : Type) : Type :=
| Ok (a : A)
| Throw (e : E).

Arguments Ok {E A} a.
Arguments Throw {E A} e.

#[global] Instance result_bind {E} : MBind (result E) :=
  λ A B f m, match m with Ok a => f a | Throw e => Throw e end.

(** ** The order of property keys *)

Module Keys.

Definition digit (c : ascii) : option N :=
  let n := N_of_ascii c in
  if (48 <=? n)%N && (n <=? 57)%N then Some (n - 48)%N else None.

Fixpoint numeral (s : string) (acc : N) : option N :=
  match s with
  | EmptyString => Some acc
  | String c s' =>
      match digit c with
      | Some d => numeral s' (acc * 10 + d)%N
      | None => None
      end
  end.

(** The array index a property key denotes: a decimal numeral without
    leading zero, at most 2^32 - 2. *)
Definition array_index (k : string) : option N :=
  match k with
  | EmptyString => None
  | String c s' =>
      if bool_decide (c = "0"%char) && negb (bool_decide (s' = EmptyString))
      then None
      else match numeral k 0 with
           | Some n => if (n <=? 4294967294)%N then Some n else None
           | None => None
           end
  end.

Fixpoint insert_index (n : N) (k : string) (l : list (N * string))
  : list (N * string) :=
  match l with
  | [] => [(n, k)]
  | (m, k') :: l' =>
      if (n <=? m)%N then (n, k) :: l else (m, k') :: insert_index n k l'
  end.

Fixpoint indices (names : list string) : list (N * string) :=
  match names with
  | [] => []
  | k :: names' =>
      match array_index k with
      | Some n => insert_index n k (indices names')
      | None => indices names'
      end
  end.

Definition named (k : string) : bool :=
  match array_index k with Some _ => false | None => true end.

(** The own property keys in the order [Object.keys] lists them, from the
    keys in order of creation: array indices ascending, then the other keys
    in order of creation. *)
Definition own_keys (names : list string) : list string :=
  (indices names).*2 ++ filter (λ k, named k = true) names.

End Keys.

(** ** JSON-like values *)

Module Json.

(** An object lists its entries in the order in which the keys were
    created; a key occurs once. *)
#[warnings="-register-all"]
Inductive value :=
| VNull
| VBool (b : bool)
| VNum (n : Z)
| VStr (s : string)
| VArr (items : list value)
| VObj (fields : list (string * value)).

(** [o[k]]; [None] is [undefined]. *)
Fixpoint obj_get (o : list (string * value)) (k : string) : option value :=
  match o with
  | [] => None
  | (k', v) :: o' => if decide (k' = k) then Some v else obj_get o' k
  end.

(** [o[k] = v]: an existing key keeps its place, a new key is the newest. *)
Fixpoint obj_set (o : list (string * value)) (k : string) (v : value)
  : list (string * value) :=
  match o with
  | [] => [(k, v)]
  | (k', v') :: o' =>
      if decide (k' = k) then (k', v) :: o' else (k', v') :: obj_set o' k v
  end.

(** [Object.keys(o)] *)
Definition keys (o : list (string * value)) : list string := Keys.own_keys o.*1.

(** [o[k1][k2]...[kn]], reading through objects only. *)
Fixpoint get_path (o : list (string * value)) (p : list string) : option value :=
  match p with
  | [] => Some (VObj o)
  | k :: p' =>
      match p' with
      | [] => obj_get o k
      | _ :: _ =>
          match obj_get o k with
          | Some (VObj o') => get_path o' p'
          | _ => None
          end
      end
  end.

(** JavaScript truthiness of a possibly undefined value. *)
Definition truthy (x : option value) : bool :=
  match x with
  | None | Some VNull => false
  | Some (VBool b) => b
  | Some (VNum n) => negb (n =? 0)%Z
  | Some (VStr s) => negb (bool_decide (s = ""))
  | Some (VArr _) | Some (VObj _) => true
  end.

(** Keys occur once in every object of a value. *)
Fixpoint wf_value (v : value) : bool :=
  match v with
  | VArr items => forallb wf_value items
  | VObj fields =>
      bool_decide (NoDup fields.*1) && forallb (λ kv, wf_value kv.2) fields
  | _ => true
  end.

Definition wf_obj (o : list (string * value)) : bool := wf_value (VObj o).

Definition is_mapping (v : value) : bool :=
  match v with VObj _ => true | _ => false end.

End Json.

(** ** Objects that are shared and changed in place *)

Module Js.

Definition loc := nat.

Inductive val :=
| Undefined
| Null
| Bool (b : bool)
| Num (n : Z)
| Str (s : string)
| Ref (l : loc).

#[global] Instance val_eq_dec : EqDecision val.
Proof. solve_decision. Defined.

Inductive class := Ordinary | Array | Function.

Definition is_ordinary (c : class) : bool :=
  match c with Ordinary => true | _ => false end.

(** An object: its prototype ([None] is [null]), its own enumerable
    properties, oldest first, and its own properties that are not
    enumerable. All are writable data properties, and the object is
    extensible. *)
Record object := {
  obj_class : class;
  proto : option loc;
  props : list (string * val);
  hidden : list (string * val);
}.


(** The object [Object.prototype]. Its accessor property [__proto__] is not
    among its data properties. *)
Definition Object_prototype : loc := 0.

Fixpoint assoc (l : list (string * val)) (k : string) : option val :=
  match l with
  | [] => None
  | (k', v) :: l' => if decide (k' = k) then Some v else assoc l' k
  end.

Fixpoint replace (l : list (string * val)) (k : string) (v : val)
  : list (string * val) :=
  match l with
  | [] => []
  | (k', v') :: l' =>
      if decide (k' = k) then (k', v) :: l' else (k', v') :: replace l' k v
  end.

(** The own property [k] of an object. *)
Definition own (o : object) (k : string) : option val :=
  match assoc (props o) k with
  | Some v => Some v
  | None => assoc (hidden o) k
  end.

(** [Object.keys(o)] *)
Definition Object_keys (o : object) : list string := Keys.own_keys (props o).*1.

(** What the search for the property [k] finds along the prototype chain
    that starts at [l]. *)
Inductive found := Data (v : val) | Accessor | Absent.

Fixpoint find (fuel : nat) (h : gmap loc object) (l : loc) (k : string) : found :=
  match fuel with
  | 0 => Absent
  | S fuel' =>
      match h !! l with
      | None => Absent
      | Some o =>
          match own o k with
          | Some v => Data v
          | None =>
              if bool_decide (l = Object_prototype ∧ k = "__proto__"%string)
              then Accessor
              else match proto o with
                   | Some p => find fuel' h p k
                   | None => Absent
                   end
          end
      end
  end.

(** A prototype chain visits no object twice. *)
Definition depth (h : gmap loc object) : nat := 2 + size h.

Definition proto_value (h : gmap loc object) (l : loc) : val :=
  match h !! l with
  | Some o => match proto o with Some p => Ref p | None => Null end
  | None => Undefined
  end.

(** [l[k]] *)
Definition get (h : gmap loc object) (l : loc) (k : string) : val :=
  match find (depth h) h l k with
  | Data v => v
  | Accessor => proto_value h l
  | Absent => Undefined
  end.

Inductive exception := TypeError (msg : string).

Definition update (o : object) (k : string) (v : val) : object :=
  match assoc (props o) k, assoc (hidden o) k with
  | Some _, _ =>
      {| obj_class := obj_class o; proto := proto o;
         props := replace (props o) k v; hidden := hidden o |}
  | None, Some _ =>
      {| obj_class := obj_class o; proto := proto o;
         props := props o; hidden := replace (hidden o) k v |}
  | None, None =>
      {| obj_class := obj_class o; proto := proto o;
         props := props o ++ [(k, v)]; hidden := hidden o |}
  end.

(** Writing the own property [k] of the object at [l]. *)
Definition set_own (h : gmap loc object) (l : loc) (k : string) (v : val) : gmap loc object :=
  alter (λ o, update o k v) l h.

Definition with_proto (p : option loc) (o : object) : object :=
  {| obj_class := obj_class o; proto := p; props := props o; hidden := hidden o |}.

(** Whether [l] lies on the prototype chain that starts at [p]. *)
Fixpoint on_chain (fuel : nat) (h : gmap loc object) (p l : loc) : bool :=
  match fuel with
  | 0 => false
  | S fuel' =>
      bool_decide (p = l) ||
      match h !! p with
      | Some o => match proto o with
                  | Some p' => on_chain fuel' h p' l
                  | None => false
                  end
      | None => false
      end
  end.

(** The setter of [__proto__]: a value that is neither an object nor [null]
    is ignored; the prototype of [Object.prototype] cannot be changed; a
    prototype chain cannot be closed to a cycle. *)
Definition set_proto (h : gmap loc object) (l : loc) (v : val) : result exception (gmap loc object) :=
  let new :=
    match v with
    | Ref p => Some (Some p)
    | Null => Some None
    | _ => None
    end in
  match new, h !! l with
  | None, _ | _, None => Ok h
  | Some p, Some o =>
      if bool_decide (proto o = p) then Ok h
      else if bool_decide (l = Object_prototype)
      then Throw (TypeError "Immutable prototype object 'Object.prototype' cannot have their prototype set")
      else if match p with Some p' => on_chain (depth h) h p' l | None => false end
      then Throw (TypeError "Cyclic __proto__ value")
      else Ok (alter (with_proto p) l h)
  end.

(** [l[k] = v] *)
Definition set (h : gmap loc object) (l : loc) (k : string) (v : val) : result exception (gmap loc object) :=
  match find (depth h) h l k with
  | Accessor => set_proto h l v
  | _ => Ok (set_own h l k v)
  end.

Definition ordinary (h : gmap loc object) (l : loc) : bool :=
  match h !! l with
  | Some o => is_ordinary (obj_class o)
  | None => false
  end.

(** [v != null && typeof v === "object" && !Array.isArray(v)] *)
Definition isObject (h : gmap loc object) (v : val) : bool :=
  match v with
  | Ref l => ordinary h l
  | _ => false
  end.

(** The object literal [{}], and a reference that is not in use. *)
Definition empty_object : object :=
  {| obj_class := Ordinary; proto := Some Object_prototype; props := []; hidden := [] |}.

Definition fresh_loc (h : gmap loc object) : loc := S (max_list (elements (dom h))).

(** [o[k1]...[kn]], through own enumerable properties of non-array
    objects. *)
Fixpoint own_path (h : gmap loc object) (v : val) (p : list string) : option val :=
  match p with
  | [] => Some v
  | k :: p' =>
      match v with
      | Ref l =>
          match h !! l with
          | Some o =>
              if is_ordinary (obj_class o)
              then match assoc (props o) k with
                   | Some v' => own_path h v' p'
                   | None => None
                   end
              else None
          | None => None
          end
      | _ => None
      end
  end.

End Js.

(** ** The dependency graph between stacks *)

Module Deps.

(** The store maps the reference of a stack to its [dependencies] array;
    a stack that never received a dependency has the empty array. *)
Definition dependencies (g : gmap nat (list nat)) (s : nat) : list nat :=
  default [] (g !! s).

(** [Array.prototype.includes] *)
Definition includes (l : list nat) (x : nat) : bool := bool_decide (x ∈ l).

(** [Array.prototype.some] with a callback that may fail to return. *)
Fixpoint some {A} (p : A → option bool) (l : list A) : option bool :=
  match l with
  | [] => Some false
  | d :: l' =>
      match p d with
      | None => None
      | Some true => Some true
      | Some false => some p l'
      end
  end.

(** [this.dependsOn(stack)]; [None] when the recursion is deeper than [fuel]. *)
Fixpoint dependsOn (fuel : nat) (g : gmap nat (list nat)) (this stack : nat)
  : option bool :=
  match fuel with
  | 0 => None
  | S fuel' =>
      if includes (dependencies g this) stack then Some true
      else some (λ d, dependsOn fuel' g d stack) (dependencies g this)
  end.

(** The error "Can not add dependency [dependency] to [this] since it would
    result in a loop". *)
Inductive error := LoopError (dependency this : nat).

Inductive outcome := Returned | Thrown (e : error).

(** [this.addDependency(dependency)]: the store after the call and how the
    call ended. *)
Definition addDependency (fuel : nat) (g : gmap nat (list nat))
    (this dependency : nat) : option (gmap nat (list nat) * outcome) :=
  match dependsOn fuel g dependency this with
  | None => None
  | Some true => Some (g, Thrown (LoopError dependency this))
  | Some false =>
      if includes (dependencies g this) dependency then Some (g, Returned)
      else Some (<[this := dependencies g this ++ [dependency]]> g, Returned)
  end.

(** A recorded edge, and graphs without a cycle. *)
Definition edge (g : gmap nat (list nat)) (a b : nat) : Prop :=
  b ∈ dependencies g a.

Definition acyclic (g : gmap nat (list nat)) : Prop := ∀ s, ¬ tc (edge g) s s.

Definition add_edge (g : gmap nat (list nat)) (a b : nat) : gmap nat (list nat) :=
  <[a := dependencies g a ++ [b]]> g.

End Deps.

(** ** A construct and its chain of scopes *)

Module Scopes.
Import Json.

(** What the dynamic type checks of the code can tell about a construct. *)
Inductive cls :=
| CConstruct
| CApp
| CStack
| CBackend
| CElement.

(** [node.id], the context set on the node itself, and [node.scope]. *)
#[warnings="-register-all"]
Inductive IConstruct :=
| Node (ref : nat) (id : string) (c : cls)
    (context : list (string * value)) (scope : option IConstruct).

Definition node_ref (x : IConstruct) : nat := let 'Node r _ _ _ _ := x in r.
Definition node_id (x : IConstruct) : string := let 'Node _ i _ _ _ := x in i.
Definition cls_of (x : IConstruct) : cls := let 'Node _ _ c _ _ := x in c.
Definition context (x : IConstruct) : list (string * value) :=
  let 'Node _ _ _ ctx _ := x in ctx.
Definition scope (x : IConstruct) : option IConstruct :=
  let 'Node _ _ _ _ s := x in s.

(** [TerraformStack.isStack], [c instanceof App] and
    [construct instanceof TerraformBackend] *)
Definition TerraformStack_isStack (x : IConstruct) : bool :=
  match cls_of x with CStack => true | _ => false end.

Definition instanceof_App (x : IConstruct) : bool :=
  match cls_of x with CApp => true | _ => false end.

Definition instanceof_TerraformBackend (x : IConstruct) : bool :=
  match cls_of x with CBackend => true | _ => false end.

(** [===] on objects *)
Definition same (x y : IConstruct) : bool := bool_decide (node_ref x = node_ref y).

(** The construct, its scope, the scope of its scope, ... up to the root. *)
Fixpoint ancestors (x : IConstruct) : list IConstruct :=
  let 'Node _ _ _ _ s := x in
  x :: match s with
       | Some p => ancestors p
       | None => []
       end.

(** [node.scopes] of the constructs library: from the root down to the
    construct. *)
Fixpoint scopes_loop (curr : IConstruct) (ret : list IConstruct) : list IConstruct :=
  let 'Node _ _ _ _ s := curr in
  match s with
  | Some p => scopes_loop p (curr :: ret)
  | None => curr :: ret
  end.

Definition scopes (x : IConstruct) : list IConstruct := scopes_loop x [].

Definition join (sep : string) (l : list string) : string :=
  match l with
  | [] => ""
  | s :: l' => fold_left (λ acc t, acc +:+ sep +:+ t) l' s
  end.

(** [node.path] of the constructs library: the non-empty ids of the scopes,
    separated by "/". *)
Definition path (x : IConstruct) : string :=
  join "/" (filter (λ s, s ≠ ""%string) (node_id <$> scopes x)).

(** [node.tryGetContext(key)] of the constructs library. *)
Fixpoint tryGetContext (x : IConstruct) (key : string) : option value :=
  let 'Node _ _ _ ctx s := x in
  match obj_get ctx key with
  | Some v => Some v
  | None =>
      match s with
      | Some p => tryGetContext p key
      | None => None
      end
  end.

Inductive js_error := Error (message : string).

Definition message (e : js_error) : string := let 'Error m := e in m.

Definition hint_text : string :=
  ". You seem to have passed your root App as scope to a TerraformBackend construct. Pass a stack as scope to your backend instead.".

(** The inner function [_lookup] of [TerraformStack.of]; [construct] is the
    argument of [of], which the closure captures. *)
Fixpoint _lookup (construct c : IConstruct)
  : result js_error IConstruct :=
  if TerraformStack_isStack c then Ok c
  else
    let 'Node _ _ _ _ s := c in
    match s with
    | None =>
        let hint :=
          if match scope construct with
             | Some p => same p c
             | None => false
             end && instanceof_App c && instanceof_TerraformBackend construct
          then hint_text else ""%string in
        Throw (Error ("No stack could be identified for the construct at path '"
                      +:+ path construct +:+ "'" +:+ hint))
    | Some p => _lookup construct p
    end.

(** [TerraformStack.of(construct)] *)
Definition TerraformStack_of (construct : IConstruct)
  : result js_error IConstruct :=
  _lookup construct construct.

(** [Array.prototype.indexOf]: -1 when absent. *)
Fixpoint indexOf_from (l : list IConstruct) (x : IConstruct) (i : Z) : Z :=
  match l with
  | [] => -1
  | y :: l' => if same y x then i else indexOf_from l' x (i + 1)
  end.

Definition indexOf (l : list IConstruct) (x : IConstruct) : Z := indexOf_from l x 0.

(** [Array.prototype.slice(start)] for [0 <= start]. *)
Definition slice {A} (start : Z) (l : list A) : list A := drop (Z.to_nat start) l.

(** The argument of [getLogicalId]: a [TerraformElement], which knows its
    [cdktfStack], or a bare [Node]. *)
Inductive target :=
| OfElement (element cdktfStack : IConstruct)
| OfNode (node : IConstruct).

(** The [node] and the [stack] that [allocateLogicalId] derives from its
    argument. *)
Definition target_node (tfElement : target) : IConstruct :=
  match tfElement with OfElement e _ => e | OfNode n => n end.

Definition target_stack (this : IConstruct) (tfElement : target) : IConstruct :=
  match tfElement with OfElement _ s => s | OfNode _ => this end.

Section LogicalId.

(** The two feature-flag names of ./features and [makeUniqueId] of
    ./private/unique, which receives the context value of the second flag. *)
Variable EXCLUDE_STACK_ID_FROM_LOGICAL_IDS : string.
Variable ALLOW_SEP_CHARS_IN_LOGICAL_IDS : string.
Variable makeUniqueId : list string → option value → string.

(** The local [components] of [allocateLogicalId]. *)
Definition components (this : IConstruct) (tfElement : target) : list string :=
  let node := target_node tfElement in
  let stack := target_stack this tfElement in
  let stackIndex :=
    if truthy (tryGetContext node EXCLUDE_STACK_ID_FROM_LOGICAL_IDS)
    then indexOf (scopes node) stack
    else 0%Z in
  node_id <$> slice (stackIndex + 1) (scopes node).

Definition allocateLogicalId (this : IConstruct) (tfElement : target) : string :=
  let node := target_node tfElement in
  let components := components this tfElement in
  if bool_decide (0 < length components)
  then makeUniqueId components (tryGetContext node ALLOW_SEP_CHARS_IN_LOGICAL_IDS)
  else ""%string.

Definition getLogicalId (this : IConstruct) (tfElement : target) : string :=
  allocateLogicalId this tfElement.

End LogicalId.

(** An application with one stack and one resource, and a backend created
    directly below the application; the same application with the feature
    flag in its context. *)
Definition sample_app : IConstruct := Node 0 "" CApp [] None.
Definition sample_stack : IConstruct :=
  Node 1 "MyStack" CStack [] (Some sample_app).
Definition sample_resource : IConstruct :=
  Node 2 "Resource1" CElement [] (Some sample_stack).
Definition sample_orphan : IConstruct :=
  Node 3 "Orphan" CBackend [] (Some sample_app).

(** A backend below a construct below the application. *)
Definition sample_deep : IConstruct :=
  Node 5 "Deep" CBackend [] (Some (Node 4 "Group" CConstruct [] (Some sample_app))).

Definition flagged_app : IConstruct :=
  Node 0 "" CApp [("excludeStackIdFromLogicalIds", VStr "true")]%string None.
Definition flagged_stack : IConstruct :=
  Node 1 "MyStack" CStack [] (Some flagged_app).
Definition flagged_resource : IConstruct :=
  Node 2 "Resource1" CElement [] (Some flagged_stack).

End Scopes.

(** ** A construct and its children *)

Module Tree.

Record LocalBackendProps := {
  props_path : option string;
  workspaceDir : option string;
}.

(** The element classes the code creates or tests for. *)
Inductive element :=
| LocalBackend (props : LocalBackendProps)
| RemoteBackend (name : string)
| TerraformOutput (identifier : string) (stack : nat) (sensitive : bool)
| TerraformAsset (path : string)
| DataTerraformRemoteStateLocal (workspace : option string) (asset_path : nat)
| TerraformRemoteState (backend : string)
| OtherElement (elementType : string).

Inductive kind :=
| KConstruct
| KStack
| KElement (e : element).

(** [children] is [node.children], in the order the constructs library
    reports it: insertion order, for ids that are not array indices. *)
#[warnings="-register-all"]
Inductive construct :=
| Construct (ref : nat) (id : string) (k : kind) (children : list construct).

Definition ref (c : construct) : nat := let 'Construct r _ _ _ := c in r.
Definition id (c : construct) : string := let 'Construct _ i _ _ := c in i.
Definition kind_of (c : construct) : kind := let 'Construct _ _ k _ := c in k.
Definition children (c : construct) : list construct :=
  let 'Construct _ _ _ ch := c in ch.

Definition isStack (c : construct) : bool :=
  match kind_of c with KStack => true | _ => false end.

(** [node instanceof TerraformElement] *)
Definition isElement (c : construct) : bool :=
  match kind_of c with KElement _ => true | _ => false end.

(** [TerraformBackend.isBackend] *)
Definition isBackend (c : construct) : bool :=
  match kind_of c with
  | KElement (LocalBackend _) | KElement (RemoteBackend _) => true
  | _ => false
  end.

(** [Array.prototype.push] *)
Definition push {A} (items : list A) (x : A) : list A := items ++ [x].

(** [terraformElements(node, into)] *)
Fixpoint terraformElements (node : construct) (into : list construct)
  : list construct :=
  let into := if isElement node then push into node else into in
  let 'Construct _ _ _ ch := node in
  fold_left (λ into child,
               if isStack child then into else terraformElements child into)
            ch into.

(** The closure [visit] of the [backend] getter; [items] is the array it
    pushes to. Its body has no [await], so the call runs to completion. *)
Fixpoint visit (node : construct) (items : list construct) : list construct :=
  let items := if isBackend node then push items node else items in
  let 'Construct _ _ _ ch := node in
  fold_left (λ items child, visit child items) ch items.

(** Depth-first pre-order, children in insertion order. *)
Fixpoint preorder (node : construct) : list construct :=
  let 'Construct _ _ _ ch := node in
  node :: flat_map preorder ch.

(** The traversal the specification asks for: pre-order from the node,
    never entering a child that is a stack. *)
Fixpoint bounded_preorder (node : construct) : list construct :=
  let 'Construct _ _ _ ch := node in
  node :: flat_map (λ child, if isStack child then [] else bounded_preorder child) ch.

(** [owns node c]: [c] is reached from [node] without passing into a child
    that is a stack. *)
Inductive owns : construct → construct → Prop :=
| owns_self node : owns node node
| owns_child node child c :
    child ∈ children node → isStack child = false → owns child c →
    owns node c.

(** A stack with a resource, a construct holding an output, and a nested
    stack holding a resource of its own. *)
Definition nested_sample : construct :=
  Construct 1 "Outer" KStack
    [Construct 2 "Bucket" (KElement (OtherElement "aws_bucket")) [];
     Construct 3 "Group" KConstruct
       [Construct 4 "Out" (KElement (TerraformOutput "x" 1 false)) []];
     Construct 5 "Inner" KStack
       [Construct 6 "Hidden" (KElement (OtherElement "aws_bucket")) []];
     Construct 7 "Last" (KElement (OtherElement "aws_queue")) []].

End Tree.

(** ** The stack objects of an application *)

Module Stack.
Import Json Tree.

(** What a memo table yields under a key: an element registered earlier,
    or the property of that [name] which every object inherits from
    [Object.prototype]. *)
Inductive memo_value :=
| Element (r : nat)
| Inherited (name : string).

(** The fields of a [TerraformStack] the embedded methods use: [node] is
    the stack with the constructs below it, [stack_path] is [node.path].
    [rawOverrides] is what [toTerraform] reads in the object of that name,
    its own enumerable properties as a tree; the object itself, which
    [addOverride] changes in place, is in [Overrides]. A memo table is a
    plain object read with [table[key]]: it is held as the finite map of
    the keys under which that read yields a truthy value, which are the
    entries the table owns and the properties it inherits. *)
Record TerraformStack := {
  node : construct;
  stack_path : string;
  cdktfVersion : string;
  rawOverrides : list (string * value);
  crossStackOutputs : gmap string memo_value;
  crossStackDataSources : gmap string memo_value;
}.

(** The object literal [{}] as a memo table: it yields the properties of
    [Object.prototype], [__proto__] among them. *)
Definition empty_table : gmap string memo_value :=
  list_to_map
    ((λ name, (name, Inherited name)) <$>
       ["constructor"; "__defineGetter__"; "__defineSetter__"; "hasOwnProperty";
        "__lookupGetter__"; "__lookupSetter__"; "isPrototypeOf";
        "propertyIsEnumerable"; "toString"; "valueOf"; "__proto__";
        "toLocaleString"]%string).

(** The stacks of the application by reference, and the reference the next
    constructed object receives. *)
Record world := {
  next : nat;
  stacks : gmap nat TerraformStack;
}.

Definition set_node (st : TerraformStack) (n : construct) : TerraformStack :=
  {| node := n; stack_path := stack_path st; cdktfVersion := cdktfVersion st;
     rawOverrides := rawOverrides st;
     crossStackOutputs := crossStackOutputs st;
     crossStackDataSources := crossStackDataSources st |}.

Definition set_rawOverrides (st : TerraformStack) (o : list (string * value))
  : TerraformStack :=
  {| node := node st; stack_path := stack_path st; cdktfVersion := cdktfVersion st;
     rawOverrides := o;
     crossStackOutputs := crossStackOutputs st;
     crossStackDataSources := crossStackDataSources st |}.

Definition set_crossStackOutputs (m : gmap string memo_value) (st : TerraformStack)
  : TerraformStack :=
  {| node := node st; stack_path := stack_path st; cdktfVersion := cdktfVersion st;
     rawOverrides := rawOverrides st;
     crossStackOutputs := m;
     crossStackDataSources := crossStackDataSources st |}.

Definition set_crossStackDataSources (m : gmap string memo_value) (st : TerraformStack)
  : TerraformStack :=
  {| node := node st; stack_path := stack_path st; cdktfVersion := cdktfVersion st;
     rawOverrides := rawOverrides st;
     crossStackOutputs := crossStackOutputs st;
     crossStackDataSources := m |}.

Definition update_stack (w : world) (this : nat)
    (f : TerraformStack → TerraformStack) : world :=
  {| next := next w; stacks := alter f this (stacks w) |}.

(** [String(stack)]: [toString] of the constructs library. *)
Definition toString (st : TerraformStack) : string :=
  if bool_decide (stack_path st = ""%string) then "<root>"%string else stack_path st.

(** [String.prototype.split] with a one-character separator. *)
Fixpoint split (sep : ascii) (s : string) : list string :=
  match s with
  | EmptyString => [EmptyString]
  | String c s' =>
      if decide (c = sep) then EmptyString :: split sep s'
      else match split sep s' with
           | [] => [String c EmptyString]
           | p :: ps => String c p :: ps
           end
  end.

(** *** Creating a construct below a stack *)

Inductive stack_error :=
| DuplicateName (name : string) (scope : nat)
| Dangling (r : nat)
| NotABackend (r : nat).

(** [sanitizeId] of the constructs library: "/" becomes "--". *)
Fixpoint sanitizeId (s : string) : string :=
  match s with
  | EmptyString => EmptyString
  | String c s' =>
      if decide (c = "/"%char) then "--" +:+ sanitizeId s'
      else String c (sanitizeId s')
  end.

(** The scope with one more child, in last place. *)
Definition append_child (n c : construct) : construct :=
  let 'Construct r i k ch := n in Construct r i k (push ch c).

(** The element a constructor call creates, and the world once it is the
    last child of the stack [scope]. *)
Definition created (w : world) (i : string) (e : element) : construct :=
  Construct (next w) (sanitizeId i) (KElement e) [].

Definition with_child (w : world) (scope : nat) (st : TerraformStack)
    (c : construct) : world :=
  {| next := S (next w);
     stacks := <[scope := set_node st (append_child (node st) c)]> (stacks w) |}.

(** Modelled from the spec: the constructors of the element classes, which
    end in the constructor of [Construct], are not among the sources. The
    data model of the specification gives a construct a name that is unique
    within its parent and an ordered list of children: the new element
    becomes the last child of its scope, and a name the scope already uses
    is rejected (the constructs library throws "There is already a
    Construct with name ..."). *)
Definition new_element (w : world) (scope : nat) (i : string) (e : element)
  : result stack_error (world * construct) :=
  match stacks w !! scope with
  | None => Throw (Dangling scope)
  | Some st =>
      let c := created w i e in
      if bool_decide (Tree.id c ∈ Tree.id <$> children (node st))
      then Throw (DuplicateName (Tree.id c) scope)
      else Ok (with_child w scope st c, c)
  end.

(** *** The [backend] getter *)

Definition no_props : LocalBackendProps :=
  {| props_path := None; workspaceDir := None |}.

Definition local_backend (w : world) : construct :=
  created w "backend" (LocalBackend no_props).

Definition backend (w : world) (this : nat) : result stack_error (world * construct) :=
  match stacks w !! this with
  | None => Throw (Dangling this)
  | Some st =>
      match visit (node st) [] with
      | b :: _ => Ok (w, b)
      | [] => new_element w this "backend" (LocalBackend no_props)
      end
  end.

(** *** Cross-stack references *)

Section CrossStack.

(** [path.join(process.cwd(), file)] *)
Variable join_cwd : string → string.

(** [LocalBackend.getRemoteStateDataSource]; the asset is constructed first,
    as an argument of the data source. What the asset does with the file it
    names is outside this embedding. *)
Definition LocalBackend_getRemoteStateDataSource (w : world)
    (props : LocalBackendProps) (scope : nat) (name fromStack : string)
  : result stack_error (world * construct) :=
  let file :=
    match props_path props with
    | Some p => if bool_decide (p = ""%string)
                then join_cwd ("terraform." +:+ fromStack +:+ ".tfstate")
                else p
    | None => join_cwd ("terraform." +:+ fromStack +:+ ".tfstate")
    end in
  '(w1, asset) ← new_element w scope (fromStack +:+ "-state") (TerraformAsset file);
  new_element w1 scope name
    (DataTerraformRemoteStateLocal (workspaceDir props) (Tree.ref asset)).

(** Modelled from the spec: [getRemoteStateDataSource] of a backend other
    than the local one is not among the sources. The backend contract
    [getRemoteStateDataSource(consumingScope, elementId, originStackIdentifier)]
    returns an element: here a remote state of that backend, created in the
    consuming scope under [elementId]. *)
Definition RemoteBackend_getRemoteStateDataSource (w : world) (bname : string)
    (scope : nat) (name fromStack : string)
  : result stack_error (world * construct) :=
  new_element w scope name (TerraformRemoteState bname).

(** The call [originBackend.getRemoteStateDataSource(...)], dispatched on the
    class of the backend. *)
Definition getRemoteStateDataSource (w : world) (b : construct) (scope : nat)
    (name fromStack : string) : result stack_error (world * construct) :=
  match kind_of b with
  | KElement (LocalBackend props) =>
      LocalBackend_getRemoteStateDataSource w props scope name fromStack
  | KElement (RemoteBackend bname) =>
      RemoteBackend_getRemoteStateDataSource w bname scope name fromStack
  | _ => Throw (NotABackend (Tree.ref b))
  end.

Definition registerOutgoingCrossStackReference (w : world) (this : nat)
    (identifier : string) : result stack_error (world * memo_value) :=
  match stacks w !! this with
  | None => Throw (Dangling this)
  | Some st =>
      match crossStackOutputs st !! identifier with
      | Some output => Ok (w, output)
      | None =>
          (* [TerraformStack.of(this)]: [this] is a stack *)
          let stack := this in
          '(w1, output) ← new_element w stack ("cross-stack-output-" +:+ identifier)
                            (TerraformOutput identifier stack true);
          Ok (update_stack w1 this
                (λ st, set_crossStackOutputs
                         (<[identifier := Element (Tree.ref output)]>
                            (crossStackOutputs st)) st),
              Element (Tree.ref output))
      end
  end.

Definition registerIncomingCrossStackReference (w : world) (this fromStack : nat)
  : result stack_error (world * memo_value) :=
  match stacks w !! this, stacks w !! fromStack with
  | None, _ => Throw (Dangling this)
  | _, None => Throw (Dangling fromStack)
  | Some st, Some from =>
      match crossStackDataSources st !! toString from with
      | Some remoteState => Ok (w, remoteState)
      | None =>
          '(w1, originBackend) ← backend w fromStack;
          '(w2, remoteState) ←
             getRemoteStateDataSource w1 originBackend this
               ("cross-stack-reference-input-" +:+ toString from) (toString from);
          Ok (update_stack w2 this
                (λ st, set_crossStackDataSources
                         (<[toString from := Element (Tree.ref remoteState)]>
                            (crossStackDataSources st)) st),
              Element (Tree.ref remoteState))
      end
  end.

End CrossStack.


(** A stack with two raw overrides. *)
Definition override_stack : TerraformStack :=
  {| node := Tree.Construct 1 "MyStack" Tree.KStack [];
     stack_path := "MyStack"; cdktfVersion := "0.10.0";
     rawOverrides := [("terraform", VArr []); ("a", VNum 1)]%string;
     crossStackOutputs := empty_table; crossStackDataSources := empty_table |}.

(** Two stacks below one application, as in the test "creates remote state
    and output". *)
Definition provider (r : nat) : construct :=
  Construct r "TestProvider" (KElement (OtherElement "provider")) [].

Definition origin_stack : TerraformStack :=
  {| node := Construct 1 "OriginStack" KStack
               [provider 3;
                Construct 4 "resource" (KElement (OtherElement "resource")) []];
     stack_path := "OriginStack"; cdktfVersion := "0.10.0"; rawOverrides := [];
     crossStackOutputs := empty_table; crossStackDataSources := empty_table |}.

Definition test_stack : TerraformStack :=
  {| node := Construct 2 "TestStack" KStack [provider 5];
     stack_path := "TestStack"; cdktfVersion := "0.10.0"; rawOverrides := [];
     crossStackOutputs := empty_table; crossStackDataSources := empty_table |}.

Definition sample_world : world :=
  {| next := 6; stacks := {[1 := origin_stack; 2 := test_stack]} |}.

Definition sample_cwd (file : string) : string := "/work/" +:+ file.

(** A stack without a backend whose only child is an output named
    "backend". *)
Definition clash_stack : TerraformStack :=
  {| node := Construct 1 "MyStack" KStack
               [Construct 2 "backend" (KElement (TerraformOutput "x" 1 false)) []];
     stack_path := "MyStack"; cdktfVersion := "0.10.0"; rawOverrides := [];
     crossStackOutputs := empty_table; crossStackDataSources := empty_table |}.

Definition clash_world : world := {| next := 3; stacks := {[1 := clash_stack]} |}.



End Stack.

(** ** Raw overrides *)

Module Overrides.
Import Js Stack.

(** The loop of [addOverride] and the assignment after it; [curr] is the
    object at [curr]. [parts.shift()] of the empty array is [undefined]. *)
Fixpoint assign (h : gmap loc object) (curr : loc) (parts : list string) (value : val)
  : result exception (gmap loc object) :=
  match parts with
  | [] => set h curr "undefined" value
  | key :: rest =>
      match rest with
      | [] => set h curr key value
      | _ :: _ =>
          h1 ← (if isObject h (get h curr key) then Ok h
                else let l := fresh_loc h in
                     set (<[l := empty_object]> h) curr key (Ref l));
          match get h1 curr key with
          | Ref l => assign h1 l rest value
          | _ => Throw (TypeError "Cannot read properties of undefined")
          end
      end
  end.

(** [this.addOverride(path, value)], with [this.rawOverrides] the object at
    [rawOverrides]. *)
Definition addOverride (h : gmap loc object) (rawOverrides : loc) (path : string) (value : val)
  : result exception (gmap loc object) :=
  assign h rawOverrides (split "." path) value.

(** A heap with [Object.prototype] and its methods (function objects, of
    whose own properties only [length] and [name] are listed), and an empty
    [rawOverrides] at 13. *)
Definition method (name : string) (length : Z) : object :=
  {| obj_class := Function; proto := Some 1; props := [];
     hidden := [("length", Num length); ("name", Str name)]%string |}.

Definition sample_heap : gmap loc object :=
  list_to_map
    [(0, {| obj_class := Ordinary; proto := None; props := [];
            hidden := [("constructor", Ref 2); ("__defineGetter__", Ref 3);
                       ("__defineSetter__", Ref 4); ("hasOwnProperty", Ref 5);
                       ("__lookupGetter__", Ref 6); ("__lookupSetter__", Ref 7);
                       ("isPrototypeOf", Ref 8); ("propertyIsEnumerable", Ref 9);
                       ("toString", Ref 10); ("valueOf", Ref 11);
                       ("toLocaleString", Ref 12)]%string |});
     (1, {| obj_class := Function; proto := Some 0; props := [];
            hidden := [("length", Num 0); ("name", Str "")]%string |});
     (2, {| obj_class := Function; proto := Some 1; props := [];
            hidden := [("length", Num 1); ("name", Str "Object");
                       ("prototype", Ref 0)]%string |});
     (3, method "__defineGetter__" 2); (4, method "__defineSetter__" 2);
     (5, method "hasOwnProperty" 1); (6, method "__lookupGetter__" 1);
     (7, method "__lookupSetter__" 1); (8, method "isPrototypeOf" 1);
     (9, method "propertyIsEnumerable" 1); (10, method "toString" 0);
     (11, method "valueOf" 0); (12, method "toLocaleString" 0);
     (13, empty_object)].

(** The same heap with [rawOverrides.a] an object that refers to itself
    under [self]. *)
Definition looped_heap : gmap loc object :=
  <[13 := {| obj_class := Ordinary; proto := Some 0;
             props := [("a", Ref 14)]%string; hidden := [] |}]>
    (<[14 := {| obj_class := Ordinary; proto := Some 0;
                props := [("self", Ref 14)]%string; hidden := [] |}]>
       sample_heap).

End Overrides.

(** ** Synthesis of a stack *)

Module Synth.
Import Json Tree Stack.

(** Modelled from the spec: [deepMerge] is imported from ./util, which is
    not among the sources. The deep merge rule of the specification: for two
    mapping values at the same key, merge recursively key by key; for any
    other clash the later fragment overwrites the earlier one at that key.
    [merge_value source target] is the value a key of the target has after
    a source that holds [source] at that key has been merged in. *)
Fixpoint merge_value (source : value) (target : option value) : value :=
  match source, target with
  | VObj s, Some (VObj t) =>
      VObj ((fix merge_fields (s t : list (string * value)) :=
               match s with
               | [] => t
               | (k, v) :: s' =>
                   merge_fields s' (obj_set t k (merge_value v (obj_get t k)))
               end) s t)
  | _, _ => source
  end.

(** Modelled from the spec: [deepMerge(target, source)] by the same rule,
    one key of the source after the other. *)
Fixpoint deepMerge (target source : list (string * value))
  : list (string * value) :=
  match source with
  | [] => target
  | (k, v) :: source' =>
      deepMerge (obj_set target k (merge_value v (obj_get target k))) source'
  end.

(** Modelled from the spec: [resolve] is imported from ./_tokens, which is
    not among the sources. It replaces every deferred value by its literal
    and leaves the structure otherwise identical; the values of [Json] hold
    no deferred value, and on them [resolve] returns its argument. *)
Definition resolve {A} (scope : TerraformStack) (x : A) : A := x.

(** The summary of the raw overrides in the metadata. *)
Definition overrides_summary (this : TerraformStack) : option value :=
  match rawOverrides this with
  | [] => None
  | _ :: _ =>
      Some (VObj [("stack", VArr (VStr <$> keys (rawOverrides this)))]%string)
  end.

Section Elements.

(** [e.toTerraform()] and [e.toMetadata()] of the element classes. *)
Variable element_toTerraform : construct → list (string * value).
Variable element_toMetadata : construct → list (string * value).

(** The object literal [metadata] of [toTerraform]. *)
Definition initial_metadata (this : TerraformStack) : list (string * value) :=
  [("version", VStr (cdktfVersion this));
   ("stackName", VStr (Tree.id (node this)));
   ("backend", VStr "local")]%string
  ++ (if bool_decide (0 < length (keys (rawOverrides this)))
      then [("overrides",
             VObj [("stack", VArr (VStr <$> keys (rawOverrides this)))])]%string
      else []).

Definition merged_metadata (this : TerraformStack) : list (string * value) :=
  let elements := terraformElements (node this) [] in
  let metadatas := (λ e, resolve this (element_toMetadata e)) <$> elements in
  fold_left deepMerge metadatas (initial_metadata this).

(** [tf] after the loop over the fragments. *)
Definition merged_fragments (this : TerraformStack) : list (string * value) :=
  let tf := [] in
  let metadata := merged_metadata this in
  let elements := terraformElements (node this) [] in
  let tf := obj_set tf "//" (VObj [("metadata", VObj metadata)]%string) in
  let fragments := (λ e, resolve this (element_toTerraform e)) <$> elements in
  fold_left deepMerge fragments tf.

Definition toTerraform (this : TerraformStack) : list (string * value) :=
  let tf := merged_fragments this in
  let tf := deepMerge tf (rawOverrides this) in
  resolve this tf.

End Elements.

(** One stack with a provider and a resource, and element classes that
    render a resource block and no metadata. *)
Definition resource_stack : TerraformStack :=
  {| node := Construct 1 "MyStack" KStack
               [Construct 2 "TestProvider" (KElement (OtherElement "provider")) [];
                Construct 3 "Resource1" (KElement (OtherElement "aws_bucket")) []];
     stack_path := "MyStack"; cdktfVersion := "0.10.0"; rawOverrides := [];
     crossStackOutputs := empty_table; crossStackDataSources := empty_table |}.

Definition sample_fragment (e : construct) : list (string * value) :=
  [("resource", VObj [(Tree.id e, VObj [])])]%string.

Definition sample_metadata (e : construct) : list (string * value) := [].

(** The same stack once [rawOverrides] holds what
    [addOverride("resource.Resource1.acl", "private")] leaves in it, and once
    it holds what [addOverride("//", "x")] leaves in it. *)
Definition overridden_stack : TerraformStack :=
  set_rawOverrides resource_stack
    [("resource", VObj [("Resource1", VObj [("acl", VStr "private")])])]%string.

Definition clobbered_stack : TerraformStack :=
  set_rawOverrides resource_stack [("//", VStr "x")]%string.

End Synth.

(** ** Notions used to state further properties *)

Module Notions.
Import Json Js Tree Stack Overrides.

(** Whether a character occurs in a string. *)
Fixpoint has_char (c : ascii) (s : string) : bool :=
  match s with
  | EmptyString => false
  | String c' s' => bool_decide (c' = c) || has_char c s'
  end.

(** A stack after some calls: every field but the tree as before, and the
    children it had still its first children. *)
Definition same_fields (st st1 : TerraformStack) : Prop :=
  stack_path st1 = stack_path st ∧ cdktfVersion st1 = cdktfVersion st ∧
  rawOverrides st1 = rawOverrides st ∧
  crossStackOutputs st1 = crossStackOutputs st ∧
  crossStackDataSources st1 = crossStackDataSources st ∧
  children (node st) `prefix_of` children (node st1).

Definition frames (w w1 : world) : Prop :=
  ∀ s st, stacks w !! s = Some st →
    ∃ st1, stacks w1 !! s = Some st1 ∧ same_fields st st1.

(** The same with memo tables that may have gained entries. *)
Definition grown (st st1 : TerraformStack) : Prop :=
  stack_path st1 = stack_path st ∧ cdktfVersion st1 = cdktfVersion st ∧
  rawOverrides st1 = rawOverrides st ∧
  (∀ k r, crossStackOutputs st !! k = Some r → crossStackOutputs st1 !! k = Some r) ∧
  (∀ k r, crossStackDataSources st !! k = Some r →
          crossStackDataSources st1 !! k = Some r) ∧
  children (node st) `prefix_of` children (node st1).

(** What an object holds along a key path: a value at its end, a value
    that is not a mapping before its end, or no entry under one of its
    keys. *)
Inductive reached := Missing | Blocked | Found (v : value).

Fixpoint reach (s : list (string * value)) (p : list string) : reached :=
  match p with
  | [] => Found (VObj s)
  | k :: p' =>
      match obj_get s k with
      | None => Missing
      | Some v =>
          match p' with
          | [] => Found v
          | _ :: _ => match v with VObj s' => reach s' p' | _ => Blocked end
          end
      end
  end.

(** A stack whose only backend lies inside a nested stack. *)
Definition nested_backend : construct :=
  Construct 3 "backend" (KElement (RemoteBackend "s3")) [].

Definition nested_backend_stack : TerraformStack :=
  set_node origin_stack
    (Construct 1 "Outer" KStack [Construct 2 "Inner" KStack [nested_backend]]).

Definition nested_backend_world : world :=
  {| next := 9; stacks := {[1 := nested_backend_stack]} |}.

Definition own_at (h : gmap loc object) (l : loc) (k : string) : option val :=
  h !! l ≫= λ o, own o k.

(** A property of the non-array object at [a] refers to the object at [b]. *)
Definition refers (h : gmap loc object) (a b : loc) : Prop :=
  ordinary h a = true ∧ ∃ k, own_at h a k = Some (Ref b).

Definition no_cycle (h : gmap loc object) : Prop := ∀ l, ¬ tc (refers h) l l.

(** Heaps of plain data: [Object.prototype] has no prototype and holds no
    non-array object, only functions and primitive values; every other
    non-array object has the prototype [Object.prototype], as object
    literals have, and enumerable properties only; and no property of a
    non-array object refers to [Object.prototype]. *)
Record plain (h : gmap loc object) : Prop := {
  plain_Object_prototype :
    ∃ op, h !! Object_prototype = Some op ∧ proto op = None ∧
      ∀ k l, own op k = Some (Ref l) → ordinary h l = false ∧ is_Some (h !! l);
  plain_literal :
    ∀ l o, h !! l = Some o → l ≠ Object_prototype →
      is_ordinary (obj_class o) = true →
      proto o = Some Object_prototype ∧ hidden o = [];
  plain_refs :
    ∀ l o k, h !! l = Some o → is_ordinary (obj_class o) = true →
      own o k ≠ Some (Ref Object_prototype);
}.

(** A non-array object other than [Object.prototype]. *)
Definition plain_at (h : gmap loc object) (l : loc) : Prop :=
  l ≠ Object_prototype ∧ ordinary h l = true.

(** What the key path [q] read before, against the object [l] it reads
    now: a non-array object that was there is still there, and anything
    else has given way to a new object. *)
Definition kept_or_new (h : gmap loc object) (v : val) (q : list string) (l : loc) : Prop :=
  match own_path h v q with
  | Some (Ref l0) => if ordinary h l0 then l = l0 else h !! l = None
  | _ => h !! l = None
  end.

(** Decidable forms of the two conditions. *)
Definition entries (o : object) : list (string * val) := props o ++ hidden o.

Definition checks_plain (h : gmap loc object) (l : loc) (o : object) : bool :=
  if bool_decide (l = Object_prototype)
  then bool_decide (proto o = None) &&
       forallb (λ kv, match kv.2 with
                      | Ref l' => negb (ordinary h l') && bool_decide (is_Some (h !! l'))
                      | _ => true
                      end) (entries o)
  else if is_ordinary (obj_class o)
  then bool_decide (proto o = Some Object_prototype) &&
       bool_decide (hidden o = []) &&
       forallb (λ kv, negb (bool_decide (kv.2 = Ref Object_prototype))) (entries o)
  else true.

Definition plainb (h : gmap loc object) : bool :=
  bool_decide (is_Some (h !! Object_prototype)) &&
  forallb (λ lo, checks_plain h lo.1 lo.2) (map_to_list h).

(** Every reference held by a non-array object leads to a larger
    location. *)
Definition increasing (h : gmap loc object) : bool :=
  forallb (λ lo, negb (is_ordinary (obj_class lo.2)) ||
                 forallb (λ kv, match kv.2 with
                                | Ref b => bool_decide (lo.1 < b)
                                | _ => true
                                end) (entries lo.2))
    (map_to_list h).

(** The heap after a round of the loop of [addOverride] that had to create
    an object. *)
Definition linked (h : gmap loc object) (curr : loc) (key : string)
  : gmap loc object :=
  set_own (<[fresh_loc h := empty_object]> h) curr key (Ref (fresh_loc h)).


(** What [toTerraform] reads below the value [v]: the own enumerable
    properties, as a tree. Neither [undefined] nor a function has a place
    in it, and a cycle of references has no tree. *)
Fixpoint contents (fuel : nat) (h : gmap loc object) (v : val) : option value :=
  match fuel with
  | 0 => None
  | S fuel' =>
      match v with
      | Undefined => None
      | Null => Some VNull
      | Bool b => Some (VBool b)
      | Num n => Some (VNum n)
      | Str s => Some (VStr s)
      | Ref l =>
          match h !! l with
          | None => None
          | Some o =>
              match obj_class o with
              | Function => None
              | Array => VArr <$> mapM (λ kv, contents fuel' h kv.2) (props o)
              | Ordinary =>
                  VObj <$> mapM (λ kv, (kv.1,.) <$> contents fuel' h kv.2) (props o)
              end
          end
      end
  end.

End Notions.

(** * Properties *)

(** ** The order of property keys *)

Module KeysTheory.
Import Keys.

Lemma insert_index_length n k l : length (insert_index n k l) = S (length l).
Proof.
  induction l as [|[m k'] l IH]; [done|]. cbn [insert_index].
  destruct (n <=? m)%N; [done|]. cbn [length]. by rewrite IH.
Qed.

Lemma insert_index_elem n k l x :
  x ∈ (insert_index n k l).*2 ↔ x = k ∨ x ∈ l.*2.
Proof.
  induction l as [|[m k'] l IH]; cbn [insert_index].
  - rewrite !fmap_cons, elem_of_cons. cbn. done.
  - destruct (n <=? m)%N.
    + rewrite !fmap_cons, !elem_of_cons. cbn. done.
    + rewrite !fmap_cons, !elem_of_cons, IH. cbn. tauto.
Qed.

Lemma named_index k : named k = true ↔ array_index k = None.
Proof. unfold named. by destruct (array_index k). Qed.

Lemma indices_named names : Forall (λ k, named k = true) names → indices names = [].
Proof.
  induction names as [|k names IH]; [done|]. intros H.
  destruct (proj1 (Forall_cons _ _ _) H) as [Hk Hn]. cbn [indices].
  apply named_index in Hk. rewrite Hk. by apply IH.
Qed.

Lemma indices_app_named names k :
  named k = true → indices (names ++ [k]) = indices names.
Proof.
  intros Hk. apply named_index in Hk.
  induction names as [|k' names IH]; cbn [app indices].
  - by rewrite Hk.
  - by rewrite IH.
Qed.

(** [Object.keys] lists every key once: it has the length of the list of
    keys by creation, and the same members. *)
Lemma own_keys_length names : length (own_keys names) = length names.
Proof.
  unfold own_keys. rewrite length_app, length_fmap.
  induction names as [|k names IH]; [done|]. cbn [indices].
  destruct (array_index k) as [n|] eqn:E.
  - rewrite filter_cons_False by (rewrite named_index; congruence).
    rewrite insert_index_length. cbn [length]. lia.
  - rewrite filter_cons_True by (by apply named_index). cbn [length]. lia.
Qed.

Lemma own_keys_elem names x : x ∈ own_keys names ↔ x ∈ names.
Proof.
  unfold own_keys. rewrite elem_of_app.
  induction names as [|k names IH]; cbn [indices].
  - rewrite filter_nil. cbn. rewrite !elem_of_nil. tauto.
  - rewrite elem_of_cons. destruct (array_index k) as [n|] eqn:E.
    + rewrite filter_cons_False by (rewrite named_index; congruence).
      rewrite insert_index_elem. tauto.
    + rewrite filter_cons_True by (by apply named_index).
      rewrite elem_of_cons. tauto.
Qed.

(** Keys that are not array indices are listed in order of creation, and a
    new one is listed last. *)
Lemma own_keys_named names :
  Forall (λ k, named k = true) names → own_keys names = names.
Proof.
  intros H. unfold own_keys. rewrite indices_named by done. cbn.
  induction names as [|k names IH]; [done|].
  destruct (proj1 (Forall_cons _ _ _) H) as [Hk Hn].
  rewrite filter_cons_True by done. by rewrite IH.
Qed.

Lemma own_keys_app_named names k :
  named k = true → own_keys (names ++ [k]) = own_keys names ++ [k].
Proof.
  intros Hk. unfold own_keys. rewrite indices_app_named by done.
  rewrite filter_app, filter_cons_True by done.
  by rewrite filter_nil, app_assoc.
Qed.

End KeysTheory.

(** ** The dependency graph *)

Module DepsTheory.
Import Deps.

Lemma some_mono {A} (p q : A → option bool) l b :
  (∀ d b, d ∈ l → p d = Some b → q d = Some b) →
  some p l = Some b → some q l = Some b.
Proof.
  induction l as [|d l IH]; simpl; intros Hpq H; [done|].
  destruct (p d) as [[]|] eqn:E; try done.
  - rewrite (Hpq d true); [done|left|done].
  - rewrite (Hpq d false); [|left|done].
    apply IH; [|done]. intros; apply Hpq; [by right|done].
Qed.

Lemma some_ext {A} (p q : A → option bool) l :
  (∀ d, d ∈ l → p d = q d) → some p l = some q l.
Proof.
  induction l as [|d l IH]; simpl; intros H; [done|].
  rewrite <- (H d) by left. rewrite IH; [done|]. intros; apply H; by right.
Qed.

(** More fuel never changes an answer. *)
Lemma dependsOn_mono fuel : ∀ fuel' g a b r,
  fuel ≤ fuel' → dependsOn fuel g a b = Some r → dependsOn fuel' g a b = Some r.
Proof.
  induction fuel as [|n IH]; intros fuel' g a b r Hle H; [done|].
  destruct fuel' as [|m]; [lia|]. simpl in *.
  destruct (includes _ _); [done|].
  eapply some_mono; [|done]. intros d b' _ Hd. simpl in Hd.
  apply IH; [lia|done].
Qed.

Lemma includes_true l x : includes l x = true ↔ x ∈ l.
Proof. unfold includes. by rewrite bool_decide_eq_true. Qed.

Lemma dependsOn_direct fuel g a b :
  b ∈ dependencies g a → dependsOn (S fuel) g a b = Some true.
Proof. intros H. simpl. apply includes_true in H. by rewrite H. Qed.

(** Every stack that is depended upon occurs in some array of the store. *)
Lemma edge_finite g x : pred_finite (tc (edge g) x).
Proof.
  exists (mjoin (snd <$> map_to_list g)). intros y Hy.
  assert (∃ z, edge g z y) as [z Hz].
  { induction Hy; eauto. }
  unfold edge, dependencies in Hz.
  destruct (g !! z) as [l|] eqn:E; simpl in Hz; [|inversion Hz].
  apply list_elem_of_join. exists l. split; [done|].
  apply list_elem_of_fmap. exists (z, l). split; [done|].
  by apply elem_of_map_to_list.
Qed.

Lemma acyclic_sn g : acyclic g → ∀ x, sn (edge g) x.
Proof.
  intros Hac x. apply tc_finite_sn; [|apply edge_finite].
  intros s. apply Hac.
Qed.

Lemma tc_edge_inv g a b :
  tc (edge g) a b ↔ edge g a b ∨ ∃ d, edge g a d ∧ tc (edge g) d b.
Proof.
  split.
  - inversion 1; subst; eauto.
  - intros [H|(d & H1 & H2)]; [by apply tc_once|by eapply tc_l].
Qed.

Lemma some_total g b l :
  (∀ d, d ∈ l →
     ∃ n r, dependsOn n g d b = Some r ∧ (r = true ↔ tc (edge g) d b)) →
  ∃ n r, some (λ d, dependsOn n g d b) l = Some r ∧
         (r = true ↔ ∃ d, d ∈ l ∧ tc (edge g) d b).
Proof.
  induction l as [|d l IH]; intros H.
  - exists 0, false. split; [done|]. split; [done|].
    intros (d & Hd & _). inversion Hd.
  - destruct (H d) as (n1 & r1 & E1 & Hr1); [left|].
    destruct IH as (n2 & r2 & E2 & Hr2).
    { intros; apply H; by right. }
    exists (n1 `max` n2). simpl.
    rewrite (dependsOn_mono n1 _ g d b r1); [|lia|done].
    destruct r1.
    + exists true. split; [done|]. split; [|done]. intros _.
      exists d. split; [left|by apply Hr1].
    + exists r2. split.
      * eapply some_mono; [|exact E2]. intros d' b' _ Hd'. simpl in Hd'.
        eapply dependsOn_mono; [|done]. lia.
      * rewrite Hr2. split.
        -- intros (d' & ? & ?). exists d'. split; [by right|done].
        -- intros (d' & Hd' & Ht). inversion Hd'; subst; [|by eauto].
           destruct Hr1 as [_ Hr1]. by specialize (Hr1 Ht).
Qed.

(** Where no cycle can be reached, [dependsOn] returns, and what it returns
    is reachability. *)
Lemma dependsOn_sn g a b :
  sn (edge g) a →
  ∃ n r, dependsOn n g a b = Some r ∧ (r = true ↔ tc (edge g) a b).
Proof.
  induction 1 as [a _ IH].
  destruct (some_total g b (dependencies g a)) as (n & r & E & Hr).
  { intros d Hd. apply IH. exact Hd. }
  exists (S n). simpl. unfold includes. case_bool_decide as Hin.
  - exists true. split; [done|]. split; [|done]. intros _. by apply tc_once.
  - exists r. split; [done|]. rewrite Hr, tc_edge_inv. unfold edge at 2. split.
    + intros (d & ? & ?). right. by exists d.
    + intros [?|(d & ? & ?)]; [done|]. by exists d.
Qed.

Lemma dependencies_add_eq g a b :
  dependencies (add_edge g a b) a = dependencies g a ++ [b].
Proof. unfold add_edge, dependencies at 1. by rewrite lookup_insert_eq. Qed.

Lemma dependencies_add_ne g a b s :
  s ≠ a → dependencies (add_edge g a b) s = dependencies g s.
Proof. intros. unfold add_edge, dependencies at 1. by rewrite lookup_insert_ne. Qed.

Lemma edge_add g a b x y :
  edge (add_edge g a b) x y ↔ edge g x y ∨ (x = a ∧ y = b).
Proof.
  unfold edge. destruct (decide (x = a)) as [->|Hne].
  - rewrite dependencies_add_eq, elem_of_app, list_elem_of_singleton.
    split; [intros [?|?]; [by left|by right]|].
    intros [?|[_ ?]]; [by left|by right].
  - rewrite dependencies_add_ne by done.
    split; [by left|]. intros [?|[? _]]; done.
Qed.

(** A search that never reaches [a] does not see the array of [a]. *)
Lemma dependsOn_frame g a b t n : ∀ x,
  ¬ rtc (edge g) x a →
  dependsOn n (add_edge g a b) x t = dependsOn n g x t.
Proof.
  induction n as [|n IH]; intros x Hx; [done|]. simpl.
  assert (x ≠ a) as Hne by (intros ->; by apply Hx).
  rewrite dependencies_add_ne by done.
  destruct (includes _ _); [done|].
  apply some_ext. intros d Hd. apply IH. intros Hd'. apply Hx.
  by eapply rtc_l.
Qed.

Lemma tc_add_edge g a b x y :
  tc (edge (add_edge g a b)) x y →
  tc (edge g) x y ∨ (rtc (edge g) x a ∧ rtc (edge g) b y).
Proof.
  induction 1 as [x y H|x z y H _ IH].
  - destruct (proj1 (edge_add g a b x y) H) as [H'|[-> ->]];
      [left; by apply tc_once|by right].
  - destruct (proj1 (edge_add g a b x z) H) as [H'|[-> ->]].
    + destruct IH as [IH|[IH1 IH2]]; [left; by eapply tc_l|].
      right. split; [by eapply rtc_l|done].
    + right. split; [done|]. destruct IH as [IH|[_ IH]]; [by apply tc_rtc|done].
Qed.

(** An edge between two distinct stacks that passes the check keeps the
    graph acyclic. *)
Lemma add_edge_acyclic g a b :
  acyclic g → a ≠ b → ¬ tc (edge g) b a → acyclic (add_edge g a b).
Proof.
  intros Hac Hne Hba s Hs.
  destruct (tc_add_edge g a b s s Hs) as [Hs'|[H1 H2]]; [by eapply Hac|].
  assert (rtc (edge g) b a) as H by (by etrans).
  destruct (proj1 (rtc_tc _ _) H) as [->|H']; done.
Qed.

Lemma no_edge_empty a b : ¬ tc (edge ∅) a b.
Proof.
  intros H. assert (∃ d, edge ∅ a d) as [d Hd].
  { destruct (proj1 (tc_edge_inv ∅ a b) H) as [?|(d & ? & _)]; eauto. }
  unfold edge, dependencies in Hd. rewrite lookup_empty in Hd. inversion Hd.
Qed.

Lemma acyclic_empty : acyclic ∅.
Proof. intros s. apply no_edge_empty. Qed.

Example dependsOn_chain :
  dependsOn 2 {[0 := [1]; 1 := [2]]} 0 2 = Some true ∧
  dependsOn 1 {[0 := [1]; 1 := [2]]} 0 2 = None ∧
  dependsOn 3 {[0 := [1]; 1 := [2]]} 2 0 = Some false.
Proof. repeat split; by vm_compute. Qed.

Example addDependency_self_edge_accepted :
  addDependency 1 ∅ 0 0 = Some ({[0 := [0]]}, Returned) ∧
  dependsOn 1 {[0 := [0]]} 0 0 = Some true.
Proof. split; by vm_compute. Qed.

(** Once a stack depends on itself, a search through it for any other
    stack never returns. *)
Lemma dependsOn_self_loop_diverges fuel :
  dependsOn fuel {[0 := [0]]} 0 1 = None.
Proof.
  induction fuel as [|fuel IH]; [done|].
  change (dependsOn (S fuel) {[0 := [0]]} 0 1)
    with (match dependsOn fuel {[0 := [0]]} 0 1 with
          | None => None
          | Some true => Some true
          | Some false => Some false
          end).
  by rewrite IH.
Qed.

(** C7: on an acyclic graph, [dependsOn(A, B)] returns (with any fuel above
    a bound), and it returns true exactly when a non-empty path of recorded
    edges leads from A to B. *)
Theorem dependsOn_reachability (g : gmap nat (list nat)) (A B : nat) :
  acyclic g →
  ∃ n r, (∀ fuel, n ≤ fuel → dependsOn fuel g A B = Some r) ∧
         (r = true ↔ tc (edge g) A B).
Proof.
  intros Hac.
  destruct (dependsOn_sn g A B (acyclic_sn g Hac A)) as (n & r & E & Hr).
  exists n, r. split; [|done]. intros fuel Hle. by eapply dependsOn_mono.
Qed.

Lemma dependsOn_reachability_witness :
  ∃ n r, (∀ fuel, n ≤ fuel → dependsOn fuel (add_edge ∅ 0 1) 0 1 = Some r) ∧
         (r = true ↔ tc (edge (add_edge ∅ 0 1)) 0 1).
Proof.
  apply (dependsOn_reachability (add_edge ∅ 0 1) 0 1).
  apply add_edge_acyclic; [apply acyclic_empty|lia|apply no_edge_empty].
Defined.

(** The same statement for a search from one stack of an acyclic graph,
    shared by the properties of [addDependency]. *)
Lemma dependsOn_decides g a b :
  acyclic g →
  ∃ n r, (∀ fuel, n ≤ fuel → dependsOn fuel g a b = Some r) ∧
         (r = true ↔ tc (edge g) a b).
Proof.
  intros Hac.
  destruct (dependsOn_sn g a b (acyclic_sn g Hac a)) as (n & r & E & Hr).
  exists n, r. split; [|done]. intros fuel Hle. by eapply dependsOn_mono.
Qed.

(** C1: on an acyclic graph and for two distinct stacks A and B,
    [addDependency(A, B)] throws the loop error and leaves the store as it
    was when B depends on A; otherwise it returns with B in the array of A
    (appended unless already there), every other array unchanged and the
    graph still acyclic; calling it again is then a no-op without error,
    and [addDependency(B, A)] throws and leaves the store with the same
    edges. *)
Theorem addDependency_contract (g : gmap nat (list nat)) (A B : nat) :
  acyclic g → A ≠ B →
  ∃ n, ∀ fuel, n ≤ fuel →
    (tc (edge g) B A →
       addDependency fuel g A B = Some (g, Thrown (LoopError B A))) ∧
    (¬ tc (edge g) B A →
       ∃ g', addDependency fuel g A B = Some (g', Returned) ∧
             dependencies g' A =
               (if includes (dependencies g A) B then dependencies g A
                else dependencies g A ++ [B]) ∧
             (∀ s, s ≠ A → dependencies g' s = dependencies g s) ∧
             (∀ x y, edge g' x y ↔ edge g x y ∨ (x = A ∧ y = B)) ∧
             acyclic g' ∧
             addDependency fuel g' A B = Some (g', Returned) ∧
             addDependency fuel g' B A = Some (g', Thrown (LoopError A B))).
Proof.
  intros Hac Hne.
  destruct (dependsOn_decides g B A Hac) as (n & r & Hn & Hr).
  exists (S n). intros fuel Hle. specialize (Hn fuel ltac:(lia)).
  destruct fuel as [|fuel]; [lia|].
  split.
  - intros Hba. unfold addDependency. rewrite Hn.
    destruct Hr as [_ Hr]. by rewrite (Hr Hba).
  - intros Hba. assert (r = false) as ->.
    { destruct r; [|done]. destruct Hr as [Hr _]. by destruct (Hba (Hr eq_refl)). }
    unfold addDependency at 1. rewrite Hn.
    destruct (includes (dependencies g A) B) eqn:Hin.
    + exists g. split; [done|]. split; [done|]. split; [done|].
      split.
      { intros x y. split; [by left|]. intros [?|[-> ->]]; [done|].
        by apply includes_true. }
      split; [done|]. split.
      * unfold addDependency. by rewrite Hn, Hin.
      * unfold addDependency. rewrite dependsOn_direct; [done|].
        by apply includes_true.
    + exists (add_edge g A B). split; [done|].
      split; [apply dependencies_add_eq|].
      split; [intros; by apply dependencies_add_ne|].
      split; [apply edge_add|].
      split; [by apply add_edge_acyclic|].
      assert (B ∈ dependencies (add_edge g A B) A) as HB.
      { rewrite dependencies_add_eq, elem_of_app, list_elem_of_singleton. by right. }
      split.
      * unfold addDependency. rewrite dependsOn_frame, Hn.
        -- by rewrite (proj2 (includes_true _ _) HB).
        -- intros H. destruct (proj1 (rtc_tc _ _) H) as [->|H']; done.
      * unfold addDependency. by rewrite dependsOn_direct.
Qed.

(** Two fresh stacks: the edge is recorded once, and the reverse edge is
    refused with only the first edge in the store. *)
Lemma addDependency_contract_witness :
  ∃ n, ∀ fuel, n ≤ fuel →
    addDependency fuel ∅ 0 1 = Some ({[0 := [1]]}, Returned) ∧
    addDependency fuel {[0 := [1]]} 0 1 = Some ({[0 := [1]]}, Returned) ∧
    addDependency fuel {[0 := [1]]} 1 0 = Some ({[0 := [1]]}, Thrown (LoopError 0 1)).
Proof.
  destruct (addDependency_contract ∅ 0 1 acyclic_empty ltac:(lia)) as [n Hn].
  exists (S n). intros fuel Hle.
  destruct (Hn fuel ltac:(lia)) as [_ H].
  destruct (H (no_edge_empty 1 0)) as (g' & E1 & _ & _ & _ & _ & E2 & E3).
  destruct fuel as [|fuel]; [lia|].
  assert (g' = {[0 := [1]]}) as ->.
  { vm_compute in E1. by inversion E1. }
  done.
Defined.

(** C1 as worded fails on a graph with a cycle, which a self-edge leaves
    behind and which a caller can also build on the public [dependencies]
    arrays. With stack 0 depending on itself and not on stack 1, the claim
    has [addDependency(1, 0)] record the edge; but the check for a loop
    searches through stack 0 and never returns. *)
Lemma addDependency_on_cycle :
  addDependency 2 ∅ 0 0 = Some ({[0 := [0]]}, Returned) ∧
  ¬ tc (edge {[0 := [0]]}) 0 1 ∧
  ∀ fuel, addDependency fuel {[0 := [0]]} 1 0 = None.
Proof.
  split; [by vm_compute|]. split.
  - assert (∀ a b, tc (edge {[0 := [0]]}) a b → b = 0) as H.
    { intros a b Ht. induction Ht as [a b He|a c b He _ IH]; [|done].
      unfold edge, dependencies in He. destruct (decide (a = 0)) as [->|Hne].
      - rewrite lookup_singleton_eq in He. cbn in He.
        by apply list_elem_of_singleton in He.
      - rewrite lookup_singleton_ne in He by done. by apply elem_of_nil in He. }
    intros Ht. by apply H in Ht.
  - intros fuel. unfold addDependency. by rewrite dependsOn_self_loop_diverges.
Qed.

(** C3 (at the input where the code departs from it): on an acyclic graph
    [addDependency(A, A)] returns without error and appends A to its own
    array, after which A depends on itself and the graph has a cycle. *)
Theorem addDependency_self_edge (g : gmap nat (list nat)) (A : nat) :
  acyclic g →
  ∃ n, ∀ fuel, n ≤ fuel →
    addDependency fuel g A A = Some (add_edge g A A, Returned) ∧
    A ∈ dependencies (add_edge g A A) A ∧
    dependsOn fuel (add_edge g A A) A A = Some true ∧
    ¬ acyclic (add_edge g A A).
Proof.
  intros Hac.
  destruct (dependsOn_decides g A A Hac) as (n & r & Hn & Hr).
  assert (r = false) as ->.
  { destruct r; [|done]. destruct Hr as [Hr _]. by destruct (Hac A (Hr eq_refl)). }
  exists (S n). intros fuel Hle. specialize (Hn fuel ltac:(lia)).
  destruct fuel as [|fuel]; [lia|].
  assert (A ∈ dependencies (add_edge g A A) A) as HA.
  { rewrite dependencies_add_eq, elem_of_app, list_elem_of_singleton. by right. }
  split; [|split; [done|split]].
  - unfold addDependency. rewrite Hn.
    destruct (includes (dependencies g A) A) eqn:Hin; [|done].
    apply includes_true in Hin. exfalso. apply (Hac A). by apply tc_once.
  - by apply dependsOn_direct.
  - intros Hac'. apply (Hac' A). by apply tc_once.
Qed.

Lemma addDependency_self_edge_witness :
  ∃ n, ∀ fuel, n ≤ fuel →
    addDependency fuel ∅ 0 0 = Some (add_edge ∅ 0 0, Returned) ∧
    0 ∈ dependencies (add_edge ∅ 0 0) 0 ∧
    dependsOn fuel (add_edge ∅ 0 0) 0 0 = Some true ∧
    ¬ acyclic (add_edge ∅ 0 0).
Proof. exact (addDependency_self_edge ∅ 0 acyclic_empty). Defined.

End DepsTheory.

(** ** The owning stack and logical ids *)

Module ScopesTheory.
Import Json Scopes.

Lemma construct_scope_ind (P : IConstruct → Prop) :
  (∀ r i c ctx, P (Node r i c ctx None)) →
  (∀ r i c ctx p, P p → P (Node r i c ctx (Some p))) →
  ∀ x, P x.
Proof.
  intros Hroot Hstep. fix IH 1.
  intros [r i c ctx [p|]]; [apply Hstep, IH|apply Hroot].
Qed.

Lemma ancestors_head x : ∃ l, ancestors x = x :: l.
Proof. destruct x as [r i c ctx s]. simpl. eauto. Qed.

Lemma lookup_ok construct c s :
  _lookup construct c = Ok s ↔
  ∃ l1 l2, ancestors c = l1 ++ s :: l2 ∧
           Forall (λ x, TerraformStack_isStack x = false) l1 ∧ TerraformStack_isStack s = true.
Proof.
  induction c as [r i k ctx|r i k ctx p IH] using construct_scope_ind.
  - cbn [_lookup ancestors].
    destruct (TerraformStack_isStack (Node r i k ctx None)) eqn:E.
    + split.
      * intros [= <-]. exists [], []. done.
      * intros (l1 & l2 & Heq & Hl1 & Hs). destruct l1 as [|x l1].
        -- injection Heq as Hx. by subst s.
        -- injection Heq as Hx _. subst x. inversion Hl1; congruence.
    + split; [done|].
      intros (l1 & l2 & Heq & Hl1 & Hs). destruct l1 as [|x l1].
      * injection Heq as Hx. subst s. congruence.
      * injection Heq as _ Heq. by destruct l1.
  - cbn [_lookup ancestors].
    destruct (TerraformStack_isStack (Node r i k ctx (Some p))) eqn:E.
    + split.
      * intros [= <-]. exists [], (ancestors p). done.
      * intros (l1 & l2 & Heq & Hl1 & Hs). destruct l1 as [|x l1].
        -- injection Heq as Hx. by subst s.
        -- injection Heq as Hx _. subst x. inversion Hl1; congruence.
    + rewrite IH. split.
      * intros (l1 & l2 & Heq & Hl1 & Hs).
        exists (Node r i k ctx (Some p) :: l1), l2.
        split; [by rewrite Heq|]. split; [by constructor|done].
      * intros (l1 & l2 & Heq & Hl1 & Hs). destruct l1 as [|x l1].
        -- injection Heq as Hx. subst s. congruence.
        -- injection Heq as _ Heq. exists l1, l2.
           split; [done|]. split; [by inversion Hl1|done].
Qed.

Lemma lookup_throw construct c :
  (∃ e, _lookup construct c = Throw e) ↔
  Forall (λ x, TerraformStack_isStack x = false) (ancestors c).
Proof.
  induction c as [r i k ctx|r i k ctx p IH] using construct_scope_ind.
  - cbn [_lookup ancestors].
    destruct (TerraformStack_isStack (Node r i k ctx None)) eqn:E.
    + split; [by intros [e ?]|]. intros H. inversion H; congruence.
    + split; [|by eauto]. intros _. by repeat constructor.
  - cbn [_lookup ancestors].
    destruct (TerraformStack_isStack (Node r i k ctx (Some p))) eqn:E.
    + split; [by intros [e ?]|]. intros H. inversion H; congruence.
    + rewrite IH. split; [by constructor|]. by inversion 1.
Qed.

Lemma lookup_message construct c e :
  _lookup construct c = Throw e →
  ∃ hint, message e =
    "No stack could be identified for the construct at path '"
    +:+ path construct +:+ "'" +:+ hint.
Proof.
  induction c as [r i k ctx|r i k ctx p IH] using construct_scope_ind.
  - cbn [_lookup]. destruct (TerraformStack_isStack _); [done|].
    intros [= <-]. simpl. eauto.
  - cbn [_lookup]. destruct (TerraformStack_isStack _); [done|]. exact IH.
Qed.

(** C8: [TerraformStack.of(c)] returns the first stack on the way from [c]
    up to the root; it throws exactly when no construct on that way is a
    stack, and the message of the error contains [c.node.path]. *)
Theorem of_nearest_stack (c : IConstruct) :
  (∀ s, TerraformStack_of c = Ok s ↔
        ∃ l1 l2, ancestors c = l1 ++ s :: l2 ∧
                 Forall (λ x, TerraformStack_isStack x = false) l1 ∧ TerraformStack_isStack s = true) ∧
  ((∃ e, TerraformStack_of c = Throw e) ↔
     Forall (λ x, TerraformStack_isStack x = false) (ancestors c)) ∧
  (∀ e, TerraformStack_of c = Throw e →
        ∃ pre suf, message e = pre +:+ path c +:+ suf).
Proof.
  unfold TerraformStack_of. split; [|split].
  - intros s. apply lookup_ok.
  - apply lookup_throw.
  - intros e He. destruct (lookup_message c c e He) as [hint Hm].
    eexists _, ("'" +:+ hint). exact Hm.
Qed.

Example of_backend_below_app :
  TerraformStack_of sample_orphan
  = Throw (Error ("No stack could be identified for the construct at path 'Orphan'"
                  +:+ hint_text)) ∧
  TerraformStack_of sample_app
  = Throw (Error "No stack could be identified for the construct at path ''").
Proof. split; reflexivity. Qed.

Lemma of_nearest_stack_witness :
  TerraformStack_of sample_resource = Ok sample_stack ∧
  (∃ pre suf, message (Error ("No stack could be identified for the construct at path 'Orphan'"
                               +:+ hint_text))
              = pre +:+ path sample_orphan +:+ suf).
Proof.
  destruct (of_nearest_stack sample_resource) as (Hok & _ & _).
  destruct (of_nearest_stack sample_orphan) as (_ & _ & Hmsg).
  split.
  - apply Hok. exists [sample_resource], [sample_app].
    split; [reflexivity|]. split; [by repeat constructor|reflexivity].
  - apply Hmsg. reflexivity.
Defined.

Lemma scopes_loop_spec x : ∀ ret, scopes_loop x ret = rev (ancestors x) ++ ret.
Proof.
  induction x as [r i k ctx|r i k ctx p IH] using construct_scope_ind;
    intros ret; cbn [scopes_loop ancestors].
  - done.
  - rewrite IH. cbn [rev]. by rewrite <- app_assoc.
Qed.

Lemma scopes_ancestors x : scopes x = rev (ancestors x).
Proof. unfold scopes. by rewrite scopes_loop_spec, app_nil_r. Qed.

Lemma indexOf_from_app pre x post i :
  Forall (λ y, node_ref y ≠ node_ref x) pre →
  indexOf_from (pre ++ x :: post) x i = (i + Z.of_nat (length pre))%Z.
Proof.
  revert i. induction pre as [|y pre IH]; intros i Hpre; simpl.
  - unfold same. rewrite bool_decide_eq_true_2 by done. lia.
  - inversion Hpre as [|? ? Hy Hpre']; subst. unfold same.
    rewrite bool_decide_eq_false_2 by done. rewrite IH by done. lia.
Qed.

Lemma slice_after {A} (pre : list A) x post :
  slice (Z.of_nat (length pre) + 1) (pre ++ x :: post) = post.
Proof.
  unfold slice.
  replace (Z.to_nat (Z.of_nat (length pre) + 1)) with (length pre + 1) by lia.
  rewrite <- drop_drop, drop_app_length. done.
Qed.

Section LogicalIdTheory.

Variable EXCLUDE_STACK_ID_FROM_LOGICAL_IDS : string.
Variable ALLOW_SEP_CHARS_IN_LOGICAL_IDS : string.
Variable makeUniqueId : list string → option value → string.

(** C2, as the code has it: without the flag [EXCLUDE_STACK_ID_FROM_LOGICAL_IDS]
    in the context the components are the ids of all scopes below the root,
    the id of the stack among them; with the flag they are the ids of the
    scopes strictly below the stack. The logical id is [makeUniqueId] of the
    components, or the empty string when there is none. *)
Theorem logical_id_components (this : IConstruct) (tfElement : target) :
  let node := target_node tfElement in
  let stack := target_stack this tfElement in
  let comps := components EXCLUDE_STACK_ID_FROM_LOGICAL_IDS this tfElement in
  (truthy (tryGetContext node EXCLUDE_STACK_ID_FROM_LOGICAL_IDS) = false →
     comps = node_id <$> tail (scopes node) ∧
     ∀ root pre post, scopes node = root :: pre ++ stack :: post →
       comps = (node_id <$> pre) ++ node_id stack :: (node_id <$> post)) ∧
  (truthy (tryGetContext node EXCLUDE_STACK_ID_FROM_LOGICAL_IDS) = true →
     ∀ pre post, scopes node = pre ++ stack :: post →
       Forall (λ y, node_ref y ≠ node_ref stack) pre →
       comps = node_id <$> post) ∧
  getLogicalId EXCLUDE_STACK_ID_FROM_LOGICAL_IDS ALLOW_SEP_CHARS_IN_LOGICAL_IDS
      makeUniqueId this tfElement
  = match comps with
    | [] => ""%string
    | _ :: _ =>
        makeUniqueId comps (tryGetContext node ALLOW_SEP_CHARS_IN_LOGICAL_IDS)
    end.
Proof.
  intros node stack comps. split; [|split].
  - intros Hflag.
    assert (comps = node_id <$> tail (scopes node)) as Hc.
    { subst comps node. unfold components.
      destruct tfElement; cbn [target_node] in *; rewrite Hflag;
        unfold slice; simpl; by destruct (scopes _). }
    split; [done|]. intros root pre post Hs. rewrite Hc, Hs. simpl.
    by rewrite fmap_app.
  - intros Hflag pre post Hs Hpre.
    subst comps node stack. unfold components.
    destruct tfElement; cbn [target_node target_stack] in *; rewrite Hflag;
      unfold indexOf; rewrite Hs, indexOf_from_app by done;
      rewrite Z.add_0_l; by rewrite slice_after.
  - unfold getLogicalId, allocateLogicalId. fold comps.
    destruct comps as [|c cs]; [done|].
    rewrite bool_decide_eq_true_2 by (simpl; lia). by destruct tfElement.
Qed.

End LogicalIdTheory.

Lemma logical_id_components_witness :
  components "excludeStackIdFromLogicalIds" sample_stack
    (OfElement sample_resource sample_stack) = ["MyStack"; "Resource1"]%string ∧
  components "excludeStackIdFromLogicalIds" flagged_stack
    (OfElement flagged_resource flagged_stack) = ["Resource1"]%string.
Proof.
  split.
  - destruct (logical_id_components "excludeStackIdFromLogicalIds"
                "allowSepCharsInLogicalIds" (λ _ _, ""%string) sample_stack
                (OfElement sample_resource sample_stack)) as (H & _ & _).
    destruct (H eq_refl) as [_ H'].
    exact (H' sample_app [] [sample_resource] eq_refl).
  - destruct (logical_id_components "excludeStackIdFromLogicalIds"
                "allowSepCharsInLogicalIds" (λ _ _, ""%string) flagged_stack
                (OfElement flagged_resource flagged_stack)) as (_ & H & _).
    refine (H eq_refl [flagged_app] [flagged_resource] eq_refl _).
    repeat constructor. simpl. lia.
Defined.

(** C2 as the specification words it fails: with no flag in the context the
    id of the stack is a component, and it is the flag that removes it. *)
Lemma default_components_include_stack :
  tryGetContext sample_resource "excludeStackIdFromLogicalIds" = None ∧
  TerraformStack_of sample_resource = Ok sample_stack ∧
  components "excludeStackIdFromLogicalIds" sample_stack
    (OfElement sample_resource sample_stack) = ["MyStack"; "Resource1"]%string ∧
  components "excludeStackIdFromLogicalIds" sample_stack
    (OfElement sample_resource sample_stack) ≠ ["Resource1"]%string ∧
  truthy (tryGetContext flagged_resource "excludeStackIdFromLogicalIds") = true ∧
  components "excludeStackIdFromLogicalIds" flagged_stack
    (OfElement flagged_resource flagged_stack) = ["Resource1"]%string.
Proof. repeat split; done. Qed.

End ScopesTheory.

(** ** Collecting the elements of a stack *)

Module TreeTheory.
Import Tree.

Lemma construct_children_ind (P : construct → Prop) :
  (∀ r i k ch, Forall P ch → P (Construct r i k ch)) → ∀ c, P c.
Proof.
  intros Hstep. fix IH 1. intros [r i k ch]. apply Hstep.
  induction ch as [|c ch IHch]; constructor; [apply IH|exact IHch].
Qed.

Lemma filter_push (P : construct → bool) (items : list construct) c rest :
  (if P c then push items c else items) ++ filter P rest
  = items ++ filter P (c :: rest).
Proof.
  unfold push. destruct (P c) eqn:E.
  - rewrite filter_cons_True by (by rewrite E). by rewrite <- app_assoc.
  - rewrite filter_cons_False; [done|]. rewrite E. by intros [].
Qed.

(** The accumulator version computes the filtered bounded pre-order. *)
Lemma terraformElements_spec node : ∀ into,
  terraformElements node into = into ++ filter isElement (bounded_preorder node).
Proof.
  induction node as [r i k ch IH] using construct_children_ind. intros into.
  cbn [terraformElements bounded_preorder].
  assert (∀ acc,
    fold_left (λ into child,
                 if isStack child then into else terraformElements child into)
              ch acc
    = acc ++ filter isElement
        (flat_map (λ child, if isStack child then [] else bounded_preorder child) ch))
    as Hfold.
  { induction IH as [|c ch' Hc _ IHch]; intros acc; simpl.
    - by rewrite filter_nil, app_nil_r.
    - rewrite filter_app, IHch. destruct (isStack c).
      + by rewrite filter_nil.
      + by rewrite Hc, app_assoc. }
  rewrite Hfold. apply filter_push.
Qed.

(** The closure of the [backend] getter computes the filtered pre-order. *)
Lemma visit_spec node : ∀ items,
  visit node items = items ++ filter isBackend (preorder node).
Proof.
  induction node as [r i k ch IH] using construct_children_ind. intros items.
  cbn [visit preorder].
  assert (∀ acc,
    fold_left (λ items child, visit child items) ch acc
    = acc ++ filter isBackend (flat_map preorder ch)) as Hfold.
  { induction IH as [|c ch' Hc _ IHch]; intros acc; simpl.
    - by rewrite filter_nil, app_nil_r.
    - by rewrite filter_app, IHch, Hc, app_assoc. }
  rewrite Hfold. apply filter_push.
Qed.

Lemma bounded_preorder_owns node c : c ∈ bounded_preorder node ↔ owns node c.
Proof.
  split.
  - revert c. induction node as [r i k ch IH] using construct_children_ind.
    intros c. cbn [bounded_preorder]. rewrite elem_of_cons.
    intros [->|Hc]; [constructor|].
    apply list_elem_of_In, in_flat_map in Hc as (child & Hchild & Hc).
    apply list_elem_of_In in Hchild.
    destruct (isStack child) eqn:E; [by destruct Hc|].
    apply owns_child with child; [done|done|].
    rewrite Forall_forall in IH. apply IH; [done|]. by apply list_elem_of_In.
  - induction 1 as [node|node child c Hchild Hstack _ IH].
    + destruct node. left.
    + destruct node as [r i k ch]. cbn [bounded_preorder]. right.
      apply list_elem_of_In, in_flat_map. exists child.
      split; [by apply list_elem_of_In|]. rewrite Hstack.
      by apply list_elem_of_In.
Qed.

Lemma bounded_preorder_sublist node :
  bounded_preorder node `sublist_of` preorder node.
Proof.
  induction node as [r i k ch IH] using construct_children_ind.
  cbn [bounded_preorder preorder]. apply sublist_skip.
  induction IH as [|c ch' Hc _ IHch]; simpl; [done|].
  apply sublist_app; [|done]. destruct (isStack c); [apply sublist_nil_l|done].
Qed.

(** C5: [terraformElements] appends to [into] the elements met by a
    depth-first pre-order walk, children in insertion order, that never
    enters a child that is a stack: the result is a sublist of the full
    pre-order, and a construct is collected exactly when it is an element
    reached from the node without passing into a nested stack. *)
Theorem terraformElements_collects (node : construct) :
  (∀ into, terraformElements node into
           = into ++ filter isElement (bounded_preorder node)) ∧
  terraformElements node [] `sublist_of` preorder node ∧
  (∀ c, c ∈ terraformElements node [] ↔ isElement c = true ∧ owns node c).
Proof.
  split; [apply terraformElements_spec|]. rewrite terraformElements_spec. simpl.
  split.
  - etrans; [apply sublist_filter|apply bounded_preorder_sublist].
  - intros c. rewrite list_elem_of_filter, bounded_preorder_owns.
    by rewrite Is_true_true.
Qed.

Example terraformElements_nested_sample :
  ref <$> terraformElements nested_sample [] = [2; 4; 7] ∧
  ref <$> preorder nested_sample = [1; 2; 3; 4; 5; 6; 7].
Proof. split; reflexivity. Qed.

End TreeTheory.

(** ** Raw overrides *)

Module OverridesTheory.
Import Json Js Stack Overrides Notions.

Lemma obj_get_set_eq o k v : obj_get (obj_set o k v) k = Some v.
Proof.
  induction o as [|[k' v'] o IH]; simpl.
  - by rewrite decide_True.
  - case_decide; simpl; [by rewrite decide_True|by rewrite decide_False].
Qed.

Lemma obj_get_set_ne o k k' v :
  k ≠ k' → obj_get (obj_set o k v) k' = obj_get o k'.
Proof.
  intros Hne. induction o as [|[k0 v0] o IH]; simpl.
  - by rewrite decide_False.
  - case_decide; simpl; subst.
    + by rewrite !decide_False.
    + case_decide; [done|apply IH].
Qed.

Lemma split_nonempty sep s : split sep s ≠ [].
Proof.
  destruct s as [|c s]; simpl; [done|].
  case_decide; [done|]. by destruct (split sep s).
Qed.

Lemma get_path_cons o key k2 rest :
  get_path o (key :: k2 :: rest)
  = match obj_get o key with
    | Some (VObj o') => get_path o' (k2 :: rest)
    | _ => None
    end.
Proof. reflexivity. Qed.

Lemma assoc_replace_eq l k v :
  is_Some (assoc l k) → assoc (replace l k v) k = Some v.
Proof.
  induction l as [|[k' v'] l IH]; simpl; [by intros [? ?]|].
  case_decide; simpl; [by rewrite decide_True|]. rewrite decide_False by done.
  apply IH.
Qed.

Lemma assoc_replace_ne l k k' v : k ≠ k' → assoc (replace l k v) k' = assoc l k'.
Proof.
  intros Hne. induction l as [|[k0 v0] l IH]; simpl; [done|].
  case_decide; simpl; subst.
  - by rewrite !decide_False.
  - case_decide; [done|apply IH].
Qed.

Lemma assoc_app l1 l2 k :
  assoc (l1 ++ l2) k = match assoc l1 k with Some v => Some v | None => assoc l2 k end.
Proof.
  induction l1 as [|[k' v'] l1 IH]; simpl; [done|]. by case_decide.
Qed.

Lemma own_update_eq o k v : own (update o k v) k = Some v.
Proof.
  unfold own, update.
  destruct (assoc (props o) k) eqn:E1; cbn [props hidden].
  - by rewrite assoc_replace_eq.
  - destruct (assoc (hidden o) k) eqn:E2; cbn [props hidden].
    + rewrite E1. by rewrite assoc_replace_eq.
    + rewrite assoc_app, E1. simpl. by rewrite decide_True.
Qed.

Lemma own_update_ne o k k' v : k ≠ k' → own (update o k v) k' = own o k'.
Proof.
  intros Hne. unfold own, update.
  destruct (assoc (props o) k) eqn:E1; cbn [props hidden].
  - by rewrite assoc_replace_ne.
  - destruct (assoc (hidden o) k) eqn:E2; cbn [props hidden].
    + by rewrite assoc_replace_ne.
    + rewrite assoc_app. simpl. rewrite decide_False by done.
      by destruct (assoc (props o) k').
Qed.

Lemma update_class o k v : obj_class (update o k v) = obj_class o.
Proof. unfold update. by destruct (assoc (props o) k), (assoc (hidden o) k). Qed.

Lemma update_proto o k v : proto (update o k v) = proto o.
Proof. unfold update. by destruct (assoc (props o) k), (assoc (hidden o) k). Qed.

Lemma update_hidden o k v : hidden o = [] → hidden (update o k v) = [].
Proof.
  intros H. unfold update. rewrite H. simpl.
  by destruct (assoc (props o) k).
Qed.

Lemma fresh_loc_fresh h : h !! fresh_loc h = None.
Proof.
  apply not_elem_of_dom. intros Hin. apply elem_of_elements in Hin.
  apply max_list_elem_of_le in Hin. exact (Nat.nle_succ_diag_l _ Hin).
Qed.

Lemma fresh_loc_positive h : fresh_loc h ≠ Object_prototype.
Proof. done. Qed.

Lemma lookup_set_own_eq (h : gmap loc object) l o k v :
  h !! l = Some o → set_own h l k v !! l = Some (update o k v).
Proof. intros H. unfold set_own. by rewrite lookup_alter_eq, H. Qed.

Lemma lookup_set_own_ne h l l' k v : l ≠ l' → set_own h l k v !! l' = h !! l'.
Proof. intros H. unfold set_own. by rewrite lookup_alter_ne. Qed.

Lemma ordinary_set_own h l k v l' : ordinary (set_own h l k v) l' = ordinary h l'.
Proof.
  unfold ordinary. destruct (decide (l = l')) as [->|Hne].
  - unfold set_own. rewrite lookup_alter_eq.
    destruct (h !! l'); simpl; [by rewrite update_class|done].
  - by rewrite lookup_set_own_ne.
Qed.

Lemma ordinary_lookup h l :
  ordinary h l = true → ∃ o, h !! l = Some o ∧ is_ordinary (obj_class o) = true.
Proof. unfold ordinary. destruct (h !! l) as [o|]; [eauto|done]. Qed.

Lemma find_own n h l o k v :
  h !! l = Some o → own o k = Some v → find (S n) h l k = Data v.
Proof. intros H1 H2. simpl. by rewrite H1, H2. Qed.

Lemma find_inherited h l o k :
  plain h → h !! l = Some o → plain_at h l → own o k = None →
  k ≠ "__proto__"%string →
  find (depth h) h l k
  = match own_at h Object_prototype k with Some v => Data v | None => Absent end.
Proof.
  intros Hp Hl [Hne Hord] Hown Hk.
  destruct (plain_Object_prototype h Hp) as (op & Hop & Hnone & _).
  unfold ordinary in Hord. rewrite Hl in Hord.
  destruct (plain_literal h Hp l o Hl Hne Hord) as [Hproto _].
  unfold depth. cbn [Nat.add find]. rewrite Hl, Hown, Hproto.
  rewrite bool_decide_eq_false_2 by (by intros [? _]).
  unfold own_at. rewrite Hop. cbn.
  destruct (own op k); [done|].
  rewrite bool_decide_eq_false_2 by (by intros [_ ?]). by rewrite Hnone.
Qed.

Lemma get_plain h l o k :
  plain h → h !! l = Some o → plain_at h l → k ≠ "__proto__"%string →
  get h l k = match own o k with
              | Some v => v
              | None => default Undefined (own_at h Object_prototype k)
              end.
Proof.
  intros Hp Hl Hat Hk. unfold get. destruct (own o k) as [v|] eqn:Hown.
  - unfold depth. cbn [Nat.add]. by rewrite (find_own _ h l o k v).
  - rewrite (find_inherited h l o k) by done.
    by destruct (own_at h Object_prototype k).
Qed.

Lemma get_own h l o k v : h !! l = Some o → own o k = Some v → get h l k = v.
Proof.
  intros Hl Hown. unfold get, depth. cbn [Nat.add].
  by rewrite (find_own _ h l o k v).
Qed.

Lemma isObject_get h l o k :
  plain h → h !! l = Some o → plain_at h l → k ≠ "__proto__"%string →
  isObject h (get h l k) = true →
  ∃ l', own o k = Some (Ref l') ∧ ordinary h l' = true.
Proof.
  intros Hp Hl Hat Hk. rewrite (get_plain h l o k) by done.
  destruct (own o k) as [v|].
  - destruct v; try done. eauto.
  - destruct (plain_Object_prototype h Hp) as (op & Hop & _ & Hin).
    unfold own_at. rewrite Hop. cbn.
    destruct (own op k) as [[]|] eqn:E; try done. cbn.
    destruct (Hin _ _ E) as [Hno _]. by rewrite Hno.
Qed.

Lemma set_plain h l o k v :
  plain h → h !! l = Some o → plain_at h l → k ≠ "__proto__"%string →
  set h l k v = Ok (set_own h l k v).
Proof.
  intros Hp Hl Hat Hk. unfold set. destruct (own o k) as [v0|] eqn:Hown.
  - unfold depth. cbn [Nat.add]. by rewrite (find_own _ h l o k v0).
  - rewrite (find_inherited h l o k) by done.
    by destruct (own_at h Object_prototype k).
Qed.

(** Allocating the object of a literal [{}] and storing a reference to it
    leaves a heap of plain data. *)
Lemma plain_alloc h : plain h → plain (<[fresh_loc h := empty_object]> h).
Proof.
  intros Hp. pose proof (fresh_loc_fresh h) as Hf.
  destruct (plain_Object_prototype h Hp) as (op & Hop & Hnone & Hin).
  split.
  - exists op. split; [by rewrite lookup_insert_ne|]. split; [done|].
    intros k l Hk. destruct (Hin k l Hk) as [Hord [o Ho]].
    assert (fresh_loc h ≠ l) as Hne by congruence.
    unfold ordinary. rewrite lookup_insert_ne by done. split; [exact Hord|eauto].
  - intros l o Hl Hne Hord. destruct (decide (fresh_loc h = l)) as [<-|Hne'].
    + rewrite lookup_insert_eq in Hl. by injection Hl as <-.
    + rewrite lookup_insert_ne in Hl by done. by apply (plain_literal h Hp l).
  - intros l o k Hl Hord. destruct (decide (fresh_loc h = l)) as [<-|Hne'].
    + rewrite lookup_insert_eq in Hl. by injection Hl as <-.
    + rewrite lookup_insert_ne in Hl by done. by apply (plain_refs h Hp l).
Qed.

Lemma plain_set_own h l k l' :
  plain h → plain_at h l → l' ≠ Object_prototype →
  plain (set_own h l k (Ref l')).
Proof.
  intros Hp [Hne Hord] Hl'.
  destruct (plain_Object_prototype h Hp) as (op & Hop & Hnone & Hin).
  split.
  - exists op. split; [by rewrite lookup_set_own_ne|]. split; [done|].
    intros k0 l0 Hk. destruct (Hin k0 l0 Hk) as [Ho [o0 Hl0]].
    rewrite ordinary_set_own. split; [done|].
    destruct (decide (l = l0)) as [->|Hne0].
    + rewrite (lookup_set_own_eq _ _ o0) by done. eauto.
    + rewrite lookup_set_own_ne by done. eauto.
  - intros l0 o0 Hl0 Hne0 Hord0. destruct (decide (l = l0)) as [->|Hne1].
    + apply ordinary_lookup in Hord as (o & Ho & Hc).
      rewrite (lookup_set_own_eq _ _ o) in Hl0 by done. injection Hl0 as <-.
      destruct (plain_literal h Hp l0 o Ho Hne Hc) as [H1 H2].
      rewrite update_proto. split; [done|by apply update_hidden].
    + rewrite lookup_set_own_ne in Hl0 by done. by apply (plain_literal h Hp l0).
  - intros l0 o0 k0 Hl0 Hord0. destruct (decide (l = l0)) as [->|Hne1].
    + apply ordinary_lookup in Hord as (o & Ho & Hc).
      rewrite (lookup_set_own_eq _ _ o) in Hl0 by done. injection Hl0 as <-.
      destruct (decide (k = k0)) as [->|Hk].
      * rewrite own_update_eq. congruence.
      * rewrite own_update_ne by done. by apply (plain_refs h Hp l0).
    + rewrite lookup_set_own_ne in Hl0 by done. by apply (plain_refs h Hp l0).
Qed.

Lemma own_at_set_own_eq h l o k v :
  h !! l = Some o → own_at (set_own h l k v) l k = Some v.
Proof.
  intros H. unfold own_at. rewrite (lookup_set_own_eq h l o) by done.
  cbn. apply own_update_eq.
Qed.

Lemma own_at_set_own_ne h l k v l' k' :
  l ≠ l' ∨ k ≠ k' → own_at (set_own h l k v) l' k' = own_at h l' k'.
Proof.
  intros H. unfold own_at. destruct (decide (l = l')) as [->|Hne].
  - destruct H as [?|Hk]; [done|]. unfold set_own. rewrite lookup_alter_eq.
    destruct (h !! l'); cbn; [by apply own_update_ne|done].
  - by rewrite lookup_set_own_ne.
Qed.

Lemma own_at_lookup h h' l : h' !! l = h !! l → ∀ k, own_at h' l k = own_at h l k.
Proof. intros H k. unfold own_at. by rewrite H. Qed.

Lemma linked_lookup_curr h curr key o :
  h !! curr = Some o →
  linked h curr key !! curr = Some (update o key (Ref (fresh_loc h))).
Proof.
  intros Hc. unfold linked. apply lookup_set_own_eq.
  rewrite lookup_insert_ne; [done|]. intros E. rewrite <- E in Hc.
  by rewrite fresh_loc_fresh in Hc.
Qed.

Lemma linked_lookup_fresh h curr key :
  is_Some (h !! curr) → linked h curr key !! fresh_loc h = Some empty_object.
Proof.
  intros [o Hc]. unfold linked. rewrite lookup_set_own_ne.
  - apply lookup_insert_eq.
  - intros E. rewrite E in Hc. by rewrite fresh_loc_fresh in Hc.
Qed.

Lemma linked_lookup_other h curr key l :
  l ≠ curr → l ≠ fresh_loc h → linked h curr key !! l = h !! l.
Proof.
  intros H1 H2. unfold linked. rewrite lookup_set_own_ne by done.
  by rewrite lookup_insert_ne.
Qed.

Lemma linked_own_at h curr key l k :
  is_Some (h !! curr) →
  own_at (linked h curr key) l k
  = if bool_decide (l = curr ∧ k = key) then Some (Ref (fresh_loc h))
    else own_at h l k.
Proof.
  intros [o Hc]. case_bool_decide as Hd.
  - destruct Hd as [-> ->]. unfold own_at.
    rewrite (linked_lookup_curr h curr key o) by done. cbn. apply own_update_eq.
  - destruct (decide (l = fresh_loc h)) as [->|Hf].
    + unfold own_at. rewrite linked_lookup_fresh by eauto.
      by rewrite fresh_loc_fresh.
    + destruct (decide (l = curr)) as [->|Hl].
      * unfold own_at. rewrite (linked_lookup_curr h curr key o), Hc by done.
        cbn. apply own_update_ne. intros ->. by destruct Hd.
      * unfold own_at. by rewrite linked_lookup_other.
Qed.

Lemma linked_ordinary h curr key l :
  is_Some (h !! curr) → l ≠ fresh_loc h →
  ordinary (linked h curr key) l = ordinary h l.
Proof.
  intros [o Hc] Hl. unfold linked. rewrite ordinary_set_own.
  unfold ordinary. by rewrite lookup_insert_ne.
Qed.

Lemma linked_refers h curr key a b :
  is_Some (h !! curr) → refers (linked h curr key) a b →
  refers h a b ∨ b = fresh_loc h.
Proof.
  intros Hc [Ha [k Hk]]. rewrite linked_own_at in Hk by done.
  case_bool_decide as Hd; [right; congruence|left].
  assert (a ≠ fresh_loc h) as Hne.
  { intros ->. unfold own_at in Hk. by rewrite fresh_loc_fresh in Hk. }
  rewrite linked_ordinary in Ha by done. split; [done|by exists k].
Qed.

Lemma tc_first {A} (R : relation A) a b : tc R a b → ∃ c, R a c.
Proof. intros []; eauto. Qed.

Lemma refers_source h a b : refers h a b → is_Some (h !! a).
Proof. intros [_ [k Hk]]. unfold own_at in Hk. destruct (h !! a); [eauto|done]. Qed.

Lemma tc_source h a b : tc (refers h) a b → is_Some (h !! a).
Proof. intros H. destruct H; by eapply refers_source. Qed.

Lemma linked_tc h curr key a b :
  is_Some (h !! curr) → tc (refers (linked h curr key)) a b →
  tc (refers h) a b ∨ b = fresh_loc h.
Proof.
  intros Hc H. induction H as [a b H|a c b H1 H2 IH].
  - destruct (linked_refers _ _ _ _ _ Hc H) as [?|?]; [left; by apply tc_once|by right].
  - destruct IH as [IH|?]; [|by right].
    destruct (linked_refers _ _ _ _ _ Hc H1) as [? | ->].
    + left. by eapply tc_l.
    + apply tc_source in IH as [o Ho]. by rewrite fresh_loc_fresh in Ho.
Qed.

Lemma linked_fresh_refers h curr key b :
  is_Some (h !! curr) → ¬ refers (linked h curr key) (fresh_loc h) b.
Proof.
  intros Hc [_ [k Hk]]. unfold own_at in Hk.
  by rewrite linked_lookup_fresh in Hk.
Qed.

Lemma linked_no_cycle h curr key :
  is_Some (h !! curr) → no_cycle h → no_cycle (linked h curr key).
Proof.
  intros Hc Ha l Hl. destruct (linked_tc _ _ _ _ _ Hc Hl) as [H | ->].
  - by apply (Ha l).
  - destruct (tc_first _ _ _ Hl) as [c H]. by apply linked_fresh_refers in H.
Qed.

Lemma linked_plain h curr key :
  plain h → plain_at h curr → plain (linked h curr key).
Proof.
  intros Hp [Hne Hord]. apply plain_set_own; [by apply plain_alloc| |done].
  split; [done|]. unfold ordinary in *. rewrite lookup_insert_ne; [done|].
  intros E. rewrite <- E, fresh_loc_fresh in Hord. done.
Qed.

Lemma rtc_from_fresh h curr key l :
  is_Some (h !! curr) → rtc (refers (linked h curr key)) (fresh_loc h) l →
  l = fresh_loc h.
Proof.
  intros Hc H. destruct (rtc_inv _ _ H) as [?|(c & H' & _)]; [done|].
  by apply linked_fresh_refers in H'.
Qed.

Lemma own_enumerable o k : hidden o = [] → own o k = assoc (props o) k.
Proof. intros H. unfold own. rewrite H. by destruct (assoc (props o) k). Qed.

Lemma enumerable_update_eq o k v :
  hidden o = [] → assoc (props (update o k v)) k = Some v.
Proof.
  intros H. rewrite <- own_enumerable by (by apply update_hidden).
  apply own_update_eq.
Qed.

Lemma own_path_cons h l o k q :
  h !! l = Some o → is_ordinary (obj_class o) = true →
  own_path h (Ref l) (k :: q)
  = match assoc (props o) k with Some v => own_path h v q | None => None end.
Proof. intros H1 H2. cbn [own_path]. by rewrite H1, H2. Qed.

Lemma own_path_not_object h v k q :
  isObject h v = false → own_path h v (k :: q) = None.
Proof.
  destruct v as [| | | | |l]; try done. cbn [isObject own_path]. unfold ordinary.
  destruct (h !! l) as [o|]; [|done]. by intros ->.
Qed.

Lemma single_split {A} (x y : A) pre rest : [x] = pre ++ y :: rest → rest = [].
Proof.
  destruct pre as [|p pre]; [by intros [= _ <-]|].
  intros [= _ H]. by destruct pre.
Qed.

(** The loop and the assignment of [addOverride] on a heap of plain data
    without cycles, for a key path that does not name [__proto__]. *)
Lemma assign_spec v : ∀ parts h curr,
  parts ≠ [] → "__proto__"%string ∉ parts →
  plain h → no_cycle h → plain_at h curr →
  ∃ h', assign h curr parts v = Ok h' ∧
    own_path h' (Ref curr) parts = Some v ∧
    (∀ l, is_Some (h !! l) → ¬ rtc (refers h) curr l → h' !! l = h !! l) ∧
    (∀ l o, h !! l = Some o →
       ∃ o', h' !! l = Some o' ∧ obj_class o' = obj_class o ∧
         proto o' = proto o ∧ hidden o' = hidden o) ∧
    (∀ l k, own_at h' l k ≠ own_at h l k →
       ∃ pre rest, parts = pre ++ k :: rest ∧
         own_path h' (Ref curr) pre = Some (Ref l)) ∧
    (∀ pre key rest, parts = pre ++ key :: rest → rest ≠ [] →
       ∃ l, own_path h' (Ref curr) (pre ++ [key]) = Some (Ref l) ∧
         ordinary h' l = true ∧
         kept_or_new h (Ref curr) (pre ++ [key]) l).
Proof.
  induction parts as [|key rest IH]; intros h curr Hne Hnp Hp Ha Hat; [done|].
  assert (key ≠ "__proto__"%string) as Hkey.
  { intros ->. apply Hnp. left. }
  destruct Hat as [Hc0 Hord].
  destruct (ordinary_lookup _ _ Hord) as (o & Ho & Hcl).
  destruct (plain_literal h Hp curr o Ho Hc0 Hcl) as [_ Hhid].
  destruct rest as [|k2 rest].
  - exists (set_own h curr key v). cbn [assign].
    split; [by apply (set_plain h curr o)|].
    split.
    { rewrite (own_path_cons _ _ (update o key v));
        [by rewrite enumerable_update_eq|by apply lookup_set_own_eq|].
      by rewrite update_class. }
    split.
    { intros l _ Hl. apply lookup_set_own_ne. intros ->. by apply Hl. }
    split.
    { intros l o0 Hl. destruct (decide (curr = l)) as [<-|Hn].
      - rewrite (lookup_set_own_eq _ _ o) by done.
        assert (o0 = o) as -> by congruence.
        eexists. split; [done|].
        by rewrite update_class, update_proto, update_hidden, Hhid.
      - rewrite lookup_set_own_ne by done. eauto. }
    split.
    { intros l k Hd. destruct (decide (curr = l)) as [<-|Hn].
      - destruct (decide (key = k)) as [<-|Hk]; [by exists [], []|].
        destruct Hd. apply own_at_set_own_ne. by right.
      - destruct Hd. apply own_at_set_own_ne. by left. }
    intros pre key' rest' E Hr. by apply single_split in E.
  - assert ("__proto__"%string ∉ k2 :: rest) as Hnp'.
    { intros H. apply Hnp. by right. }
    cbn [assign]. destruct (isObject h (get h curr key)) eqn:Hobj.
    + destruct (isObject_get h curr o key Hp Ho (conj Hc0 Hord) Hkey Hobj)
        as (l' & Hown & Hl').
      cbn [mbind result_bind]. rewrite (get_own h curr o key (Ref l')) by done.
      assert (plain_at h l') as Hat'.
      { split; [|done]. intros ->. by apply (plain_refs h Hp curr o key). }
      destruct (IH h l' ltac:(done) Hnp' Hp Ha Hat')
        as (h' & Hrun & R1 & R2 & R3 & R4 & R5).
      assert (refers h curr l') as He.
      { split; [done|]. exists key. unfold own_at. by rewrite Ho. }
      assert (h' !! curr = Some o) as Hc'.
      { rewrite R2; [done|eauto|]. intros Hr. apply (Ha curr).
        eapply tc_rtc_r; [by apply tc_once|done]. }
      assert (∀ q, own_path h' (Ref curr) (key :: q) = own_path h' (Ref l') q)
        as Hq'.
      { intros q. by rewrite (own_path_cons _ _ o), <- own_enumerable, Hown. }
      assert (∀ q, own_path h (Ref curr) (key :: q) = own_path h (Ref l') q)
        as Hq.
      { intros q. by rewrite (own_path_cons _ _ o), <- own_enumerable, Hown. }
      exists h'. split; [done|]. split; [by rewrite Hq'|].
      split.
      { intros l Hl Hnr. apply R2; [done|]. intros Hr. apply Hnr.
        by eapply rtc_l. }
      split; [done|].
      split.
      { intros l k Hd. destruct (R4 l k Hd) as (pre & rest' & E & Hpath).
        exists (key :: pre), rest'. split; [by rewrite E|]. by rewrite Hq'. }
      intros pre key' rest' E Hr. destruct pre as [|p pre].
      * cbn in E. injection E as <- <-. exists l'. cbn [app].
        split; [by rewrite Hq'|]. split.
        { destruct (ordinary_lookup _ _ Hl') as (o' & Ho' & Hc'').
          destruct (R3 l' o' Ho') as (o'' & Ho'' & Hk & _).
          unfold ordinary. by rewrite Ho'', Hk. }
        unfold kept_or_new. rewrite Hq. cbn [own_path]. by rewrite Hl'.
      * cbn in E. injection E as <- E.
        destruct (R5 pre key' rest' E Hr) as (l & H1 & H2 & H3).
        exists l. cbn [app]. rewrite Hq'. split; [done|]. split; [done|].
        unfold kept_or_new. by rewrite Hq.
    + assert (is_Some (h !! curr)) as Hsome by eauto.
      pose proof (fresh_loc_fresh h) as Hfresh.
      assert (curr ≠ fresh_loc h) as Hcf by congruence.
      assert (set (<[fresh_loc h := empty_object]> h) curr key (Ref (fresh_loc h))
              = Ok (linked h curr key)) as ->.
      { apply (set_plain _ curr o); [by apply plain_alloc| | |done].
        - by rewrite lookup_insert_ne.
        - split; [done|]. unfold ordinary. by rewrite lookup_insert_ne, Ho. }
      cbn [mbind result_bind].
      pose proof (linked_lookup_curr h curr key o Ho) as Hc1.
      rewrite (get_own _ curr _ key (Ref (fresh_loc h)) Hc1 (own_update_eq _ _ _)).
      pose proof (linked_lookup_fresh h curr key Hsome) as Hf1.
      assert (plain_at (linked h curr key) (fresh_loc h)) as Hat'.
      { split; [done|]. unfold ordinary. by rewrite Hf1. }
      destruct (IH (linked h curr key) (fresh_loc h) ltac:(done) Hnp'
                  (linked_plain h curr key Hp (conj Hc0 Hord))
                  (linked_no_cycle h curr key Hsome Ha) Hat')
        as (h' & Hrun & R1 & R2 & R3 & R4 & R5).
      assert (∀ l, l ≠ fresh_loc h → is_Some (linked h curr key !! l) →
                   h' !! l = linked h curr key !! l) as Hkeep.
      { intros l Hl Hs. apply R2; [done|]. intros Hr.
        by apply rtc_from_fresh in Hr. }
      assert (h' !! curr = Some (update o key (Ref (fresh_loc h)))) as Hc'.
      { rewrite Hkeep; [done|done|]. rewrite Hc1. eauto. }
      assert (∀ q, own_path h' (Ref curr) (key :: q)
                   = own_path h' (Ref (fresh_loc h)) q) as Hq'.
      { intros q. rewrite (own_path_cons _ _ _ _ _ Hc');
          [by rewrite enumerable_update_eq|by rewrite update_class]. }
      assert (∀ k q, own_path h (Ref curr) (key :: k :: q) = None) as Hq.
      { intros k q. rewrite (own_path_cons _ _ o), <- own_enumerable by done.
        destruct (own o key) as [v0|] eqn:Hown; [|done].
        apply own_path_not_object.
        by rewrite (get_own h curr o key v0) in Hobj. }
      exists h'. split; [done|]. split; [by rewrite Hq'|].
      split.
      { intros l Hl Hnr.
        assert (l ≠ curr) as Hlc. { intros ->. by apply Hnr. }
        assert (l ≠ fresh_loc h) as Hlf.
        { intros ->. rewrite Hfresh in Hl. by destruct Hl. }
        rewrite Hkeep; [by apply linked_lookup_other|done|].
        by rewrite linked_lookup_other. }
      split.
      { intros l o0 Hl. destruct (decide (l = curr)) as [->|Hlc].
        - assert (o0 = o) as -> by congruence.
          destruct (R3 curr _ Hc1) as (o' & Ho' & Hk1 & Hk2 & Hk3). exists o'.
          split; [done|].
          by rewrite Hk1, Hk2, Hk3, update_class, update_proto, update_hidden, Hhid.
        - assert (l ≠ fresh_loc h) as Hlf by congruence.
          apply R3. by rewrite linked_lookup_other. }
      split.
      { intros l k Hd.
        destruct (decide (own_at h' l k = own_at (linked h curr key) l k))
          as [E|Hd'].
        - rewrite E, linked_own_at in Hd by done.
          case_bool_decide as Hb; [|done]. destruct Hb as [-> ->].
          by exists [], (k2 :: rest).
        - destruct (R4 l k Hd') as (pre & rest' & E & Hpath).
          exists (key :: pre), rest'. split; [by rewrite E|]. by rewrite Hq'. }
      intros pre key' rest' E Hr. destruct pre as [|p pre].
      * cbn in E. injection E as <- <-. exists (fresh_loc h). cbn [app].
        split; [by rewrite Hq'|]. split.
        { destruct (R3 _ _ Hf1) as (o'' & Ho'' & Hk & _).
          unfold ordinary. by rewrite Ho'', Hk. }
        unfold kept_or_new. rewrite (own_path_cons _ _ o), <- own_enumerable by done.
        destruct (own o key) as [v0|] eqn:Hown; [|done]. cbn [own_path].
        rewrite (get_own h curr o key v0) in Hobj by done.
        destruct v0 as [| | | | |l0]; try done. cbn in Hobj. by rewrite Hobj.
      * cbn in E. injection E as <- E.
        destruct (R5 pre key' rest' E Hr) as (l & H1 & H2 & H3).
        exists l. cbn [app]. rewrite Hq'. split; [done|]. split; [done|].
        assert (h !! l = None) as Hnew.
        { unfold kept_or_new in H3.
          assert (own_path (linked h curr key) (Ref (fresh_loc h)) (pre ++ [key'])
                  = None) as Hnone.
          { destruct (pre ++ [key']) as [|x xs] eqn:Ex; [by destruct pre|].
            by rewrite (own_path_cons _ _ _ _ _ Hf1). }
          rewrite Hnone in H3.
          destruct (decide (l = curr)) as [->|Hlc]; [by rewrite Hc1 in H3|].
          destruct (decide (l = fresh_loc h)) as [->|Hlf]; [done|].
          by rewrite linked_lookup_other in H3. }
        unfold kept_or_new.
        destruct (pre ++ [key']) as [|x xs] eqn:Ex; [by destruct pre|].
        by rewrite Hq.
Qed.

Lemma assoc_elem l k v : assoc l k = Some v → (k, v) ∈ l.
Proof.
  induction l as [|[k' v'] l IH]; simpl; [done|].
  case_decide as Hk; [intros [= <-]; subst; left|intros Hl; right; by apply IH].
Qed.

Lemma own_entries o k v : own o k = Some v → (k, v) ∈ entries o.
Proof.
  unfold own, entries. rewrite elem_of_app.
  destruct (assoc (props o) k) eqn:E.
  - intros [= <-]. left. by apply assoc_elem.
  - intros H. right. by apply assoc_elem.
Qed.

Lemma forallb_elem {A} (f : A → bool) l x : forallb f l = true → x ∈ l → f x = true.
Proof.
  intros H Hx. rewrite forallb_forall in H. apply H. by apply list_elem_of_In.
Qed.

Lemma plainb_plain h : plainb h = true → plain h.
Proof.
  unfold plainb. rewrite andb_true_iff. intros [Hop Hall].
  apply bool_decide_eq_true in Hop as [op Hop].
  assert (∀ l o, h !! l = Some o → checks_plain h l o = true) as Hobj.
  { intros l o Hl.
    apply (forallb_elem (λ lo, checks_plain h lo.1 lo.2) _ (l, o) Hall).
    by apply elem_of_map_to_list. }
  split.
  - exists op. split; [done|]. pose proof (Hobj _ _ Hop) as H.
    unfold checks_plain in H. rewrite bool_decide_eq_true_2 in H by done.
    apply andb_true_iff in H as [H1 H2]. apply bool_decide_eq_true in H1.
    split; [done|]. intros k l Hk.
    pose proof (forallb_elem _ _ _ H2 (own_entries _ _ _ Hk)) as H3. cbn in H3.
    apply andb_true_iff in H3 as [Ha Hb]. apply negb_true_iff in Ha.
    by apply bool_decide_eq_true in Hb.
  - intros l o Hl Hne Hord. pose proof (Hobj _ _ Hl) as H.
    unfold checks_plain in H. rewrite bool_decide_eq_false_2, Hord in H by done.
    apply andb_true_iff in H as [H _]. apply andb_true_iff in H as [H1 H2].
    apply bool_decide_eq_true in H1. by apply bool_decide_eq_true in H2.
  - intros l o k Hl Hord Hk. pose proof (Hobj _ _ Hl) as H.
    unfold checks_plain in H. pose proof (own_entries _ _ _ Hk) as Hin.
    case_bool_decide as Hd.
    + subst l. apply andb_true_iff in H as [_ H].
      pose proof (forallb_elem _ _ _ H Hin) as H'. cbn in H'.
      apply andb_true_iff in H' as [H' _]. apply negb_true_iff in H'.
      unfold ordinary in H'. by rewrite Hl, Hord in H'.
    + rewrite Hord in H. apply andb_true_iff in H as [_ H].
      pose proof (forallb_elem _ _ _ H Hin) as H'. cbn in H'.
      apply negb_true_iff in H'. by apply bool_decide_eq_false in H'.
Qed.

Lemma increasing_refers h a b : increasing h = true → refers h a b → a < b.
Proof.
  intros Hinc [Ha [k Hk]]. apply ordinary_lookup in Ha as (o & Ho & Hc).
  unfold own_at in Hk. rewrite Ho in Hk. cbn in Hk.
  pose proof (forallb_elem _ _ (a, o) Hinc) as H. cbn in H.
  rewrite Hc in H. cbn in H.
  pose proof (forallb_elem _ _ _ (H ltac:(by apply elem_of_map_to_list))
                (own_entries _ _ _ Hk)) as H'.
  cbn in H'. by apply bool_decide_eq_true in H'.
Qed.

Lemma increasing_no_cycle h : increasing h = true → no_cycle h.
Proof.
  intros Hinc l Hl.
  assert (∀ a b, tc (refers h) a b → a < b) as Hlt.
  { intros a b H. induction H as [a b H|a c b H _ IH].
    - by eapply increasing_refers.
    - apply (increasing_refers _ _ _ Hinc) in H. lia. }
  apply Hlt in Hl. lia.
Qed.

Lemma addOverride_stores_path h rawOverrides path v :
  plain h → no_cycle h → plain_at h rawOverrides →
  "__proto__"%string ∉ split "." path →
  ∃ h', addOverride h rawOverrides path v = Ok h' ∧
    own_path h' (Ref rawOverrides) (split "." path) = Some v.
Proof.
  intros Hp Ha Hat Hnp.
  destruct (assign_spec v (split "." path) h rawOverrides
              (split_nonempty _ _) Hnp Hp Ha Hat) as (h' & Hrun & R1 & _).
  by exists h'.
Qed.

(** C10, as the code has it. On a heap of plain data without a cycle of
    references – [Object.prototype] holds no object, and the non-array
    objects are those of object literals – and for a path none of whose
    parts is [__proto__], [addOverride(path, v)] returns and leaves [v] at
    the key path [path.split(".")], read from [rawOverrides] through own
    enumerable properties. Every intermediate key then holds a non-array
    object: the one that was there before, or a new one where the key was
    missing or held anything else. An own property that differs afterwards
    is one on the key path, so a new object has no other property; and no
    object changes its class, its prototype or its properties that are not
    enumerable. *)
Theorem addOverride_stores (h : gmap loc object) (rawOverrides : loc)
    (path : string) (v : val) :
  plain h → no_cycle h → plain_at h rawOverrides →
  "__proto__"%string ∉ split "." path →
  ∃ h', addOverride h rawOverrides path v = Ok h' ∧
    own_path h' (Ref rawOverrides) (split "." path) = Some v ∧
    (∀ pre key rest, split "." path = pre ++ key :: rest → rest ≠ [] →
       ∃ l, own_path h' (Ref rawOverrides) (pre ++ [key]) = Some (Ref l) ∧
         ordinary h' l = true ∧
         kept_or_new h (Ref rawOverrides) (pre ++ [key]) l) ∧
    (∀ l k, own_at h' l k ≠ own_at h l k →
       ∃ pre rest, split "." path = pre ++ k :: rest ∧
         own_path h' (Ref rawOverrides) pre = Some (Ref l)) ∧
    (∀ l o, h !! l = Some o →
       ∃ o', h' !! l = Some o' ∧ obj_class o' = obj_class o ∧
         proto o' = proto o ∧ hidden o' = hidden o).
Proof.
  intros Hp Ha Hat Hnp.
  destruct (assign_spec v (split "." path) h rawOverrides
              (split_nonempty _ _) Hnp Hp Ha Hat)
    as (h' & Hrun & R1 & _ & R3 & R4 & R5).
  by exists h'.
Qed.

Lemma sample_heap_plain : plain sample_heap.
Proof. apply plainb_plain. by vm_compute. Qed.

Lemma sample_heap_no_cycle : no_cycle sample_heap.
Proof. apply increasing_no_cycle. by vm_compute. Qed.

Example addOverride_sample :
  (h ← addOverride sample_heap 13 "terraform.backend.local" (Str "x");
   Ok (h !! 13, h !! 14, h !! 15))
  = Ok (Some {| obj_class := Ordinary; proto := Some 0;
                props := [("terraform", Ref 14)]%string; hidden := [] |},
        Some {| obj_class := Ordinary; proto := Some 0;
                props := [("backend", Ref 15)]%string; hidden := [] |},
        Some {| obj_class := Ordinary; proto := Some 0;
                props := [("local", Str "x")]%string; hidden := [] |}).
Proof. by vm_compute. Qed.

Lemma addOverride_stores_witness :
  ∃ h', addOverride sample_heap 13 "terraform.backend.local" (Str "x") = Ok h' ∧
    own_path h' (Ref 13) ["terraform"; "backend"; "local"]%string = Some (Str "x").
Proof.
  destruct (addOverride_stores sample_heap 13 "terraform.backend.local" (Str "x")
              sample_heap_plain sample_heap_no_cycle)
    as (h' & H1 & H2 & _).
  - split; [done|]. by vm_compute.
  - apply (bool_decide_unpack _). by vm_compute.
  - by exists h'.
Defined.

(** C10 as worded fails. The part [__proto__] does not name a property of
    [rawOverrides]: [addOverride("__proto__", 5)] stores nothing, and
    [rawOverrides["__proto__"]] is still [Object.prototype]. And on an
    object that refers to itself the last assignment undoes the path:
    with [rawOverrides.a.self === rawOverrides.a], after
    [addOverride("a.self.self", 5)] the path [a.self.self] holds nothing. *)
Lemma addOverride_misses_path :
  (addOverride sample_heap 13 "__proto__" (Num 5) = Ok sample_heap ∧
   own_path sample_heap (Ref 13) ["__proto__"]%string = None ∧
   get sample_heap 13 "__proto__" = Ref Object_prototype) ∧
  (∃ h', addOverride looped_heap 13 "a.self.self" (Num 5) = Ok h' ∧
     own_path h' (Ref 13) ["a"; "self"; "self"]%string = None).
Proof.
  split; [repeat split; by vm_compute|].
  eexists. split; [by vm_compute|by vm_compute].
Qed.

End OverridesTheory.

(** ** The backend of a stack and cross-stack references *)

Module StackTheory.
Import Json Tree Stack Notions.




Lemma children_append_child n c : children (append_child n c) = children n ++ [c].
Proof. by destruct n. Qed.

Lemma new_element_ok w scope i e st :
  stacks w !! scope = Some st →
  sanitizeId i ∉ Tree.id <$> children (node st) →
  new_element w scope i e
  = Ok (with_child w scope st (created w i e), created w i e).
Proof.
  intros Hst Hfree. unfold new_element. rewrite Hst.
  by rewrite bool_decide_eq_false_2.
Qed.

Lemma new_element_clash w scope i e st :
  stacks w !! scope = Some st →
  sanitizeId i ∈ Tree.id <$> children (node st) →
  new_element w scope i e = Throw (DuplicateName (sanitizeId i) scope).
Proof.
  intros Hst Hin. unfold new_element. rewrite Hst.
  by rewrite bool_decide_eq_true_2.
Qed.

Lemma new_element_inv w scope i e w' c :
  new_element w scope i e = Ok (w', c) →
  ∃ st, stacks w !! scope = Some st ∧
        w' = with_child w scope st (created w i e) ∧ c = created w i e.
Proof.
  unfold new_element. destruct (stacks w !! scope) as [st|]; [|done].
  case_bool_decide; [done|]. intros [= <- <-]. by exists st.
Qed.








Lemma with_child_lookup w scope st c :
  stacks (with_child w scope st c) !! scope
  = Some (set_node st (append_child (node st) c)).
Proof. unfold with_child. cbn [stacks]. apply lookup_insert_eq. Qed.

Lemma new_element_scope w scope i e w' c :
  new_element w scope i e = Ok (w', c) → is_Some (stacks w' !! scope).
Proof.
  intros H. destruct (new_element_inv _ _ _ _ _ _ H) as (st & Hst & -> & _).
  rewrite with_child_lookup. eauto.
Qed.

Lemma same_fields_refl st : same_fields st st.
Proof. by repeat split. Qed.

Lemma same_fields_grown st st1 : same_fields st st1 → grown st st1.
Proof.
  intros (H1 & H2 & H3 & H4 & H5 & H6). repeat split; try done.
  - intros k r. by rewrite H4.
  - intros k r. by rewrite H5.
Qed.

Lemma frames_refl w : frames w w.
Proof. intros s st Hs. exists st. split; [done|apply same_fields_refl]. Qed.

Lemma frames_trans w1 w2 w3 : frames w1 w2 → frames w2 w3 → frames w1 w3.
Proof.
  intros H12 H23 s st Hs.
  destruct (H12 s st Hs) as (st2 & Hs2 & A1 & A2 & A3 & A4 & A5 & A6).
  destruct (H23 s st2 Hs2) as (st3 & Hs3 & B1 & B2 & B3 & B4 & B5 & B6).
  exists st3. split; [done|]. repeat split; try congruence. by etrans.
Qed.

Lemma with_child_frames w scope st c :
  stacks w !! scope = Some st → frames w (with_child w scope st c).
Proof.
  intros Hst s st0 Hs. unfold with_child. cbn [stacks].
  destruct (decide (scope = s)) as [->|Hne].
  - rewrite lookup_insert_eq. eexists; split; [done|].
    assert (st0 = st) as -> by congruence.
    repeat split. cbn [node set_node]. rewrite children_append_child.
    by apply prefix_app_r.
  - rewrite lookup_insert_ne by done. exists st0.
    split; [done|apply same_fields_refl].
Qed.

Lemma new_element_frames w scope i e w' c :
  new_element w scope i e = Ok (w', c) → frames w w'.
Proof.
  intros H. destruct (new_element_inv _ _ _ _ _ _ H) as (st & Hst & -> & _).
  by apply with_child_frames.
Qed.

Lemma backend_frames w this w' b : backend w this = Ok (w', b) → frames w w'.
Proof.
  unfold backend. destruct (stacks w !! this) as [st|]; [|done].
  destruct (visit (node st) []) as [|b0 bs].
  - apply new_element_frames.
  - intros [= <- _]. apply frames_refl.
Qed.

Lemma update_frames_grown w w' this st0 (f : TerraformStack → TerraformStack) :
  frames w w' → stacks w !! this = Some st0 →
  (∀ st', same_fields st0 st' → grown st0 (f st')) →
  ∀ s st, stacks w !! s = Some st →
    ∃ st1, stacks (update_stack w' this f) !! s = Some st1 ∧ grown st st1.
Proof.
  intros Hfr Hthis Hf s st Hs. destruct (Hfr s st Hs) as (st' & Hs' & Hsame).
  unfold update_stack. cbn [stacks]. destruct (decide (this = s)) as [->|Hne].
  - rewrite lookup_alter_eq, Hs'. cbn. eexists; split; [done|].
    assert (st = st0) as -> by congruence. by apply Hf.
  - rewrite lookup_alter_ne by done. exists st'.
    split; [done|by apply same_fields_grown].
Qed.

Section CrossStackTheory.

Variable join_cwd : string → string.


Lemma getRemoteStateDataSource_frames w b scope name from w' c :
  getRemoteStateDataSource join_cwd w b scope name from = Ok (w', c) →
  frames w w'.
Proof.
  unfold getRemoteStateDataSource, LocalBackend_getRemoteStateDataSource,
    RemoteBackend_getRemoteStateDataSource.
  destruct (kind_of b) as [| |[props|bname| | | | |]]; try done.
  - destruct (new_element w scope _ _) as [[w1 asset]|] eqn:E1; [|done].
    cbn. intros E2. eapply frames_trans; by eapply new_element_frames.
  - apply new_element_frames.
Qed.

Lemma registerOutgoing_hit w this identifier st x :
  stacks w !! this = Some st →
  crossStackOutputs st !! identifier = Some x →
  registerOutgoingCrossStackReference w this identifier = Ok (w, x).
Proof.
  intros Hst Hmemo. unfold registerOutgoingCrossStackReference.
  by rewrite Hst, Hmemo.
Qed.

Lemma registerOutgoing_again w this identifier w1 o :
  registerOutgoingCrossStackReference w this identifier = Ok (w1, o) →
  registerOutgoingCrossStackReference w1 this identifier = Ok (w1, o).
Proof.
  unfold registerOutgoingCrossStackReference at 1.
  destruct (stacks w !! this) as [st|] eqn:Hst; [|done].
  destruct (crossStackOutputs st !! identifier) as [o0|] eqn:Hmemo.
  - intros [= <- <-]. by apply (registerOutgoing_hit w this identifier st).
  - destruct (new_element w this _ _) as [[w' c]|] eqn:E; [|done].
    cbn. intros [= <- <-].
    destruct (new_element_scope _ _ _ _ _ _ E) as [st' Hst'].
    unfold registerOutgoingCrossStackReference, update_stack. cbn [stacks].
    rewrite lookup_alter_eq, Hst'. cbn.
    by rewrite lookup_insert_eq.
Qed.









Lemma backend_found w this st b rest :
  stacks w !! this = Some st →
  filter isBackend (preorder (node st)) = b :: rest →
  backend w this = Ok (w, b).
Proof.
  intros Hst Hb. unfold backend.
  by rewrite Hst, TreeTheory.visit_spec, Hb.
Qed.






End CrossStackTheory.





End StackTheory.

(** ** The synthesised document *)

Module SynthTheory.
Import Json Tree Stack Synth Notions.

Lemma merge_value_mapping s t :
  merge_value (VObj s) (Some (VObj t)) = VObj (deepMerge t s).
Proof.
  cbn [merge_value]. f_equal. revert t.
  induction s as [|[k v] s IH]; intros t; [done|]. cbn [deepMerge]. apply IH.
Qed.

Lemma merge_value_leaf v t : is_mapping v = false → merge_value v t = v.
Proof. by destruct v. Qed.

Lemma merge_value_fresh v t :
  (∀ o, t ≠ Some (VObj o)) → merge_value v t = v.
Proof.
  intros Ht. destruct v; try done.
  destruct t as [[]|]; try done. by destruct (Ht fields0).
Qed.

Lemma obj_get_None o k : obj_get o k = None ↔ k ∉ o.*1.
Proof.
  induction o as [|[k' v] o IH]; simpl.
  - split; [intros _ H; inversion H|done].
  - case_decide as Hk; subst.
    + split; [done|]. intros H. destruct H. left.
    + rewrite IH, not_elem_of_cons. split; [by intros ?; split|by intros [_ ?]].
Qed.

(** (K2) A key the source lacks keeps its value. *)
Lemma deepMerge_untouched s : ∀ t k,
  obj_get s k = None → obj_get (deepMerge t s) k = obj_get t k.
Proof.
  induction s as [|[k0 v0] s IH]; intros t k Hk; [done|].
  simpl in Hk. case_decide as Hne; [done|].
  cbn [deepMerge]. rewrite IH by done.
  by apply OverridesTheory.obj_get_set_ne.
Qed.

Lemma obj_set_keeps o k v k' :
  is_Some (obj_get o k') → is_Some (obj_get (obj_set o k v) k').
Proof.
  intros H. destruct (decide (k = k')) as [->|Hne].
  - rewrite OverridesTheory.obj_get_set_eq. eauto.
  - by rewrite OverridesTheory.obj_get_set_ne.
Qed.

(** (K1) Merging never removes a key. *)
Lemma deepMerge_keeps s : ∀ t k,
  is_Some (obj_get t k) → is_Some (obj_get (deepMerge t s) k).
Proof.
  induction s as [|[k0 v0] s IH]; intros t k Hk; [done|].
  cbn [deepMerge]. apply IH. by apply obj_set_keeps.
Qed.

(** (K3) A key of the source ends up with the source's value merged over
    what the target had. *)
Lemma deepMerge_key s : ∀ t k v,
  NoDup s.*1 → obj_get s k = Some v →
  obj_get (deepMerge t s) k = Some (merge_value v (obj_get t k)).
Proof.
  induction s as [|[k0 v0] s IH]; intros t k v Hnd Hk; [done|].
  cbn in Hnd. apply NoDup_cons in Hnd as [Hk0 Hnd].
  simpl in Hk. cbn [deepMerge]. case_decide as Hne.
  - subst k0. injection Hk as ->.
    rewrite deepMerge_untouched by (by apply obj_get_None).
    apply OverridesTheory.obj_get_set_eq.
  - rewrite (IH _ k v) by done.
    by rewrite OverridesTheory.obj_get_set_ne.
Qed.

Lemma wf_obj_keys s : wf_obj s = true → NoDup s.*1.
Proof.
  unfold wf_obj. cbn [wf_value]. intros H.
  apply andb_true_iff in H as [H _]. by apply bool_decide_eq_true in H.
Qed.

Lemma wf_obj_get s k s' :
  wf_obj s = true → obj_get s k = Some (VObj s') → wf_obj s' = true.
Proof.
  unfold wf_obj. cbn [wf_value]. intros H Hk.
  apply andb_true_iff in H as [_ H]. rewrite forallb_forall in H.
  assert (In (k, VObj s') s) as Hin.
  { clear H. induction s as [|[k0 v0] s IH]; [done|]. simpl in Hk.
    case_decide; [left; congruence|right; by apply IH]. }
  exact (H _ Hin).
Qed.

(** (K4) Every non-mapping value of the source is found at the same path of
    the result. *)
Lemma deepMerge_precedence p : ∀ s t v,
  wf_obj s = true → p ≠ [] → get_path s p = Some v → is_mapping v = false →
  get_path (deepMerge t s) p = Some v.
Proof.
  induction p as [|k p IH]; intros s t v Hwf Hne Hp Hleaf; [done|].
  destruct p as [|k2 p].
  - cbn [get_path] in *. rewrite (deepMerge_key s t k v); [|by apply wf_obj_keys|done].
    by rewrite merge_value_leaf.
  - rewrite OverridesTheory.get_path_cons in *.
    destruct (obj_get s k) as [[| | | | |s']|] eqn:Hk; try done.
    rewrite (deepMerge_key s t k (VObj s')); [|by apply wf_obj_keys|done].
    destruct (obj_get t k) as [[| | | | |t']|] eqn:Ht; try done.
    rewrite merge_value_mapping. apply IH; try done.
    by eapply wf_obj_get.
Qed.

Lemma fold_deepMerge_untouched (frs : list (list (string * value))) : ∀ t k,
  Forall (λ f, obj_get f k = None) frs →
  obj_get (fold_left deepMerge frs t) k = obj_get t k.
Proof.
  induction frs as [|f frs IH]; intros t k Hf; [done|].
  inversion Hf as [|? ? Hf1 Hf2]; subst. simpl.
  rewrite IH by done. by apply deepMerge_untouched.
Qed.

Lemma fold_deepMerge_keeps (frs : list (list (string * value))) : ∀ t k,
  is_Some (obj_get t k) → is_Some (obj_get (fold_left deepMerge frs t) k).
Proof.
  induction frs as [|f frs IH]; intros t k Hk; [done|].
  simpl. apply IH. by apply deepMerge_keeps.
Qed.

Lemma initial_metadata_version this :
  obj_get (initial_metadata this) "version" = Some (VStr (cdktfVersion this)).
Proof. reflexivity. Qed.

Lemma initial_metadata_backend this :
  obj_get (initial_metadata this) "backend" = Some (VStr "local").
Proof. reflexivity. Qed.

Lemma initial_metadata_overrides this :
  obj_get (initial_metadata this) "overrides" = overrides_summary this.
Proof.
  unfold initial_metadata, overrides_summary, keys.
  rewrite KeysTheory.own_keys_length, length_fmap.
  by destruct (rawOverrides this) as [|[k v] o].
Qed.

Lemma reach_cons s k k2 p :
  reach s (k :: k2 :: p)
  = match obj_get s k with
    | None => Missing
    | Some (VObj s') => reach s' (k2 :: p)
    | Some _ => Blocked
    end.
Proof. cbn [reach]. by destruct (obj_get s k) as [[]|]. Qed.

Lemma reach_Found s p v : p ≠ [] → reach s p = Found v ↔ get_path s p = Some v.
Proof.
  revert s. induction p as [|k p IH]; intros s Hne; [done|].
  destruct p as [|k2 p].
  - cbn. destruct (obj_get s k); split; congruence.
  - rewrite OverridesTheory.get_path_cons. cbn [reach].
    destruct (obj_get s k) as [[| | | | |s']|]; try (split; congruence).
    by apply IH.
Qed.

Lemma reach_not_Found s p :
  p ≠ [] → (∀ v, reach s p ≠ Found v) → get_path s p = None.
Proof.
  intros Hne H. destruct (get_path s p) as [v|] eqn:E; [|done].
  apply reach_Found in E; [|done]. by destruct (H v).
Qed.

(** (K5) What a deep merge leaves at a key path the target has: the
    target's value where the source has no entry, the source's value merged
    over it where the source has one, and nothing where the source holds a
    value that is not a mapping before the end of the path. *)
Lemma deepMerge_reach p : ∀ s t y,
  wf_obj s = true → p ≠ [] → get_path t p = Some y →
  get_path (deepMerge t s) p
  = match reach s p with
    | Missing => Some y
    | Blocked => None
    | Found x => Some (merge_value x (Some y))
    end.
Proof.
  induction p as [|k p IH]; intros s t y Hwf Hne Hp; [done|].
  destruct p as [|k2 p].
  - cbn [get_path reach] in *. destruct (obj_get s k) as [x|] eqn:Hk.
    + rewrite (deepMerge_key s t k x); [by rewrite Hp|by apply wf_obj_keys|done].
    + by rewrite deepMerge_untouched.
  - rewrite OverridesTheory.get_path_cons in *. cbn [reach].
    destruct (obj_get t k) as [[| | | | |t']|] eqn:Ht; try done.
    destruct (obj_get s k) as [x|] eqn:Hk.
    + rewrite (deepMerge_key s t k x); [|by apply wf_obj_keys|done]. rewrite Ht.
      destruct x as [| | | | |s']; try done.
      rewrite merge_value_mapping. apply IH; try done.
      by eapply wf_obj_get.
    + by rewrite deepMerge_untouched, Ht.
Qed.

(** (K6) Where the source holds a value that is not a mapping before the
    end of a key path, the result holds nothing at the path. *)
Lemma deepMerge_blocked p : ∀ s t,
  wf_obj s = true → reach s p = Blocked → get_path (deepMerge t s) p = None.
Proof.
  induction p as [|k p IH]; intros s t Hwf Hb; [done|].
  destruct p as [|k2 p].
  - cbn in Hb. by destruct (obj_get s k).
  - rewrite OverridesTheory.get_path_cons. rewrite reach_cons in Hb.
    destruct (obj_get s k) as [x|] eqn:Hk; [|done].
    rewrite (deepMerge_key s t k x); [|by apply wf_obj_keys|done].
    destruct x as [| | | | |s']; try done.
    destruct (obj_get t k) as [[| | | | |t']|] eqn:Ht.
    6: { rewrite merge_value_mapping. apply IH; [by eapply wf_obj_get|done]. }
    all: cbn [merge_value]; apply reach_not_Found; [done|intros v; by rewrite Hb].
Qed.

Lemma fold_deepMerge_present (frs : list (list (string * value))) p : ∀ t,
  p ≠ [] → Forall (λ f, wf_obj f = true ∧ reach f p ≠ Blocked) frs →
  is_Some (get_path t p) → is_Some (get_path (fold_left deepMerge frs t) p).
Proof.
  induction frs as [|f frs IH]; intros t Hne Hf Ht; [done|].
  destruct (proj1 (Forall_cons _ _ _) Hf) as [[Hwf Hb] Hfs].
  cbn [fold_left]. apply IH; [done|done|].
  destruct Ht as [y Hy]. rewrite (deepMerge_reach p f t y) by done.
  destruct (reach f p); [eauto|done|eauto].
Qed.

Section ElementsTheory.

Variable element_toTerraform : construct → list (string * value).
Variable element_toMetadata : construct → list (string * value).

Lemma merged_metadata_keeps this k :
  is_Some (obj_get (initial_metadata this) k) →
  is_Some (obj_get (merged_metadata element_toMetadata this) k).
Proof. apply fold_deepMerge_keeps. Qed.

Lemma merged_metadata_untouched this k :
  (∀ e, e ∈ terraformElements (node this) [] → obj_get (element_toMetadata e) k = None) →
  obj_get (merged_metadata element_toMetadata this) k
  = obj_get (initial_metadata this) k.
Proof.
  intros H. apply fold_deepMerge_untouched.
  apply Forall_fmap, Forall_forall. intros e He. by apply H.
Qed.

Lemma merged_fragments_reserved this :
  (∀ e, e ∈ terraformElements (node this) [] → obj_get (element_toTerraform e) "//" = None) →
  obj_get (merged_fragments element_toTerraform element_toMetadata this) "//"
  = Some (VObj [("metadata",
                 VObj (merged_metadata element_toMetadata this))]%string).
Proof.
  intros H. unfold merged_fragments.
  rewrite fold_deepMerge_untouched; [done|].
  apply Forall_fmap, Forall_forall. intros e He. by apply H.
Qed.

Lemma merged_fragments_present this p :
  p ≠ [] →
  (∀ e, e ∈ terraformElements (node this) [] →
     wf_obj (element_toTerraform e) = true ∧
     reach (element_toTerraform e) p ≠ Blocked) →
  is_Some (get_path [("//", VObj [("metadata",
                                   VObj (merged_metadata element_toMetadata this))])]%string
             p) →
  is_Some (get_path (merged_fragments element_toTerraform element_toMetadata this) p).
Proof.
  intros Hne H Hp. unfold merged_fragments.
  apply fold_deepMerge_present; [done| |done].
  apply Forall_fmap, Forall_forall. intros e He. by apply H.
Qed.

(** C6, as the code has it: the document is the metadata block under "//",
    then the fragments of the elements, then the raw overrides, deep-merged
    in that order. It always has the key "//", and every non-mapping value
    of the raw overrides is in the document at the same key path. The
    metadata the stack builds always has the keys [version] and [backend],
    with the framework version, ["local"] and the summary of the raw
    overrides (present exactly when there are raw overrides) unless the
    metadata of an element sets the same key. When no fragment and no raw
    override has the key "//", the document holds exactly this metadata
    under "//". In general an entry [k] of the metadata is in the document
    at "//".metadata.[k] unless a fragment or a raw override holds a value
    that is not a mapping at "//" or at "//".metadata: it has its value
    when no fragment has the key "//" and the raw overrides have no entry
    along that path, and the document has nothing at that path when a raw
    override holds a value that is not a mapping at "//" or at
    "//".metadata. *)
Theorem toTerraform_document (this : TerraformStack) :
  let doc := toTerraform element_toTerraform element_toMetadata this in
  let m := merged_metadata element_toMetadata this in
  doc = deepMerge (merged_fragments element_toTerraform element_toMetadata this)
          (rawOverrides this) ∧
  is_Some (obj_get doc "//") ∧
  (wf_obj (rawOverrides this) = true →
   ∀ p v, p ≠ [] → get_path (rawOverrides this) p = Some v →
          is_mapping v = false → get_path doc p = Some v) ∧
  ((∀ e, e ∈ terraformElements (node this) [] → obj_get (element_toTerraform e) "//" = None) →
   obj_get (rawOverrides this) "//" = None →
   obj_get doc "//" = Some (VObj [("metadata", VObj m)]%string)) ∧
  is_Some (obj_get m "version") ∧
  is_Some (obj_get m "backend") ∧
  ((∀ e, e ∈ terraformElements (node this) [] → obj_get (element_toMetadata e) "version" = None) →
   obj_get m "version" = Some (VStr (cdktfVersion this))) ∧
  ((∀ e, e ∈ terraformElements (node this) [] → obj_get (element_toMetadata e) "backend" = None) →
   obj_get m "backend" = Some (VStr "local")) ∧
  ((∀ e, e ∈ terraformElements (node this) [] → obj_get (element_toMetadata e) "overrides" = None) →
   obj_get m "overrides" = overrides_summary this ∧
   (is_Some (obj_get m "overrides") ↔ rawOverrides this ≠ [])) ∧
  (wf_obj (rawOverrides this) = true →
   ∀ k,
     (is_Some (obj_get m k) →
      (∀ e, e ∈ terraformElements (node this) [] →
         wf_obj (element_toTerraform e) = true ∧
         reach (element_toTerraform e) ["//"; "metadata"; k]%string ≠ Blocked) →
      reach (rawOverrides this) ["//"; "metadata"; k]%string ≠ Blocked →
      is_Some (get_path doc ["//"; "metadata"; k]%string)) ∧
     (∀ y, obj_get m k = Some y →
        (∀ e, e ∈ terraformElements (node this) [] →
           obj_get (element_toTerraform e) "//" = None) →
        reach (rawOverrides this) ["//"; "metadata"; k]%string = Missing →
        get_path doc ["//"; "metadata"; k]%string = Some y) ∧
     (reach (rawOverrides this) ["//"; "metadata"; k]%string = Blocked →
      get_path doc ["//"; "metadata"; k]%string = None)).
Proof.
  intros doc m. subst doc m. unfold toTerraform, resolve.
  split; [done|]. split.
  { apply deepMerge_keeps. unfold merged_fragments.
    apply fold_deepMerge_keeps. cbn. eauto. }
  split.
  { intros Hwf p v Hp Hv Hleaf. by apply deepMerge_precedence. }
  split.
  { intros Hfr Hraw. rewrite deepMerge_untouched by done.
    by apply merged_fragments_reserved. }
  split; [apply merged_metadata_keeps; by eexists|].
  split; [apply merged_metadata_keeps; by eexists|].
  split; [intros H; by rewrite merged_metadata_untouched|].
  split; [intros H; by rewrite merged_metadata_untouched|].
  split.
  { intros H. rewrite merged_metadata_untouched, initial_metadata_overrides by done.
    split; [done|]. unfold overrides_summary.
    destruct (rawOverrides this); split; try done. }
  intros Hwf k. split; [|split].
  - intros Hk Hfr Hraw.
    destruct (merged_fragments_present this ["//"; "metadata"; k]%string
                ltac:(done) Hfr) as [y Hy].
    { assert (∀ o, get_path [("//", VObj [("metadata", VObj o)])]%string
                       ["//"; "metadata"; k]%string = obj_get o k) as -> by done.
      exact Hk. }
    rewrite (deepMerge_reach _ _ _ y) by done.
    destruct (reach (rawOverrides this) _); [eauto|done|eauto].
  - intros y Hk Hfr Hraw.
    rewrite (deepMerge_reach _ _ _ y), Hraw; [done|done|done|].
    rewrite OverridesTheory.get_path_cons, merged_fragments_reserved by done.
    assert (∀ o, get_path [("metadata", VObj o)]%string ["metadata"; k]%string
                 = obj_get o k) as -> by done.
    exact Hk.
  - intros Hraw. by apply deepMerge_blocked.
Qed.

End ElementsTheory.

Example toTerraform_resource_stack :
  toTerraform sample_fragment sample_metadata resource_stack
  = [("//", VObj [("metadata",
                   VObj [("version", VStr "0.10.0");
                         ("stackName", VStr "MyStack");
                         ("backend", VStr "local")])]);
     ("resource", VObj [("TestProvider", VObj []); ("Resource1", VObj [])])]%string.
Proof. reflexivity. Qed.

Lemma toTerraform_document_witness :
  get_path (toTerraform sample_fragment sample_metadata overridden_stack)
    ["resource"; "Resource1"; "acl"]%string = Some (VStr "private") ∧
  obj_get (toTerraform sample_fragment sample_metadata overridden_stack) "//"
  = Some (VObj [("metadata",
                 VObj (merged_metadata sample_metadata overridden_stack))]%string) ∧
  obj_get (merged_metadata sample_metadata overridden_stack) "backend"
  = Some (VStr "local") ∧
  obj_get (merged_metadata sample_metadata overridden_stack) "overrides"
  = Some (VObj [("stack", VArr [VStr "resource"])]%string) ∧
  get_path (toTerraform sample_fragment sample_metadata overridden_stack)
    ["//"; "metadata"; "version"]%string = Some (VStr "0.10.0") ∧
  get_path (toTerraform sample_fragment sample_metadata clobbered_stack)
    ["//"; "metadata"; "version"]%string = None.
Proof.
  destruct (toTerraform_document sample_fragment sample_metadata overridden_stack)
    as (_ & _ & Hprec & Hres & _ & _ & _ & Hb & Ho & Hpath).
  destruct (toTerraform_document sample_fragment sample_metadata clobbered_stack)
    as (_ & _ & _ & _ & _ & _ & _ & _ & _ & Hclob).
  split; [|split; [|split; [|split; [|split]]]].
  - apply Hprec; [reflexivity|done|reflexivity|reflexivity].
  - apply Hres; [|reflexivity]. intros e _. reflexivity.
  - apply Hb. intros e _. reflexivity.
  - apply Ho. intros e _. reflexivity.
  - apply (Hpath eq_refl "version"%string); [reflexivity| |reflexivity].
    intros e _. reflexivity.
  - apply (Hclob eq_refl "version"%string). reflexivity.
Defined.

(** C6 as worded fails: a raw override that holds a string at the reserved
    key replaces the metadata block, so the document has neither [version]
    nor [backend]. *)
Lemma override_replaces_metadata :
  rawOverrides clobbered_stack = [("//", VStr "x")]%string ∧
  toTerraform sample_fragment sample_metadata clobbered_stack
  = [("//", VStr "x");
     ("resource", VObj [("TestProvider", VObj []); ("Resource1", VObj [])])]%string ∧
  get_path (toTerraform sample_fragment sample_metadata clobbered_stack)
    ["//"; "metadata"; "version"]%string = None ∧
  get_path (toTerraform sample_fragment sample_metadata clobbered_stack)
    ["//"; "metadata"; "backend"]%string = None.
Proof. repeat split. Qed.

End SynthTheory.

(** * Further properties of the embedded code *)

(** ** [dependsOn] and [addDependency] on arbitrary stores *)

Module DepsExtra.
Import Deps DepsTheory.

Lemma some_true_elem {A} (p : A → option bool) l :
  some p l = Some true → ∃ d, d ∈ l ∧ p d = Some true.
Proof.
  induction l as [|d l IH]; simpl; [done|].
  destruct (p d) as [[]|] eqn:E; try done.
  - intros _. exists d. split; [left|done].
  - intros H. destruct (IH H) as (d' & ? & ?). exists d'. split; [by right|done].
Qed.

Lemma some_false_all {A} (p : A → option bool) l :
  some p l = Some false → ∀ d, d ∈ l → p d = Some false.
Proof.
  induction l as [|d l IH]; simpl; intros H d' Hd'; [inversion Hd'|].
  destruct (p d) as [[]|] eqn:E; try done.
  inversion Hd'; subst; [done|by apply IH].
Qed.

Lemma dependsOn_true_sound fuel : ∀ g a b,
  dependsOn fuel g a b = Some true → tc (edge g) a b.
Proof.
  induction fuel as [|fuel IH]; intros g a b H; [done|]. simpl in H.
  destruct (includes (dependencies g a) b) eqn:Hin.
  - apply tc_once. by apply includes_true.
  - destruct (some_true_elem _ _ H) as (d & Hd & Hdb).
    eapply tc_l; [exact Hd|by apply IH].
Qed.

Lemma includes_false l x : includes l x = false ↔ x ∉ l.
Proof. unfold includes. by rewrite bool_decide_eq_false. Qed.

Lemma dependsOn_false_sound fuel : ∀ g a b,
  dependsOn fuel g a b = Some false → ¬ tc (edge g) a b.
Proof.
  induction fuel as [|fuel IH]; intros g a b H Ht; [done|]. simpl in H.
  destruct (includes (dependencies g a) b) eqn:Hin; [done|].
  apply includes_false in Hin.
  destruct (proj1 (tc_edge_inv g a b) Ht) as [Hab|(d & Had & Hdb)]; [done|].
  by apply (IH g d b (some_false_all _ _ H d Had)).
Qed.

(** A stack that is depended upon is listed in some array of the store. *)
Lemma tc_target_listed g a b :
  tc (edge g) a b → b ∈ mjoin (snd <$> map_to_list g).
Proof.
  intros Hy. assert (∃ z, edge g z b) as [z Hz].
  { induction Hy; eauto. }
  unfold edge, dependencies in Hz.
  destruct (g !! z) as [l|] eqn:E; simpl in Hz; [|inversion Hz].
  apply list_elem_of_join. exists l. split; [done|].
  apply list_elem_of_fmap. exists (z, l). split; [done|].
  by apply elem_of_map_to_list.
Qed.

(** X1: on any store, cyclic or not, an answer of [dependsOn] is right:
    whenever the call returns, it returns true exactly when a non-empty
    path of recorded edges leads from A to B. *)
Theorem dependsOn_answer_is_reachability (fuel : nat) (g : gmap nat (list nat))
    (A B : nat) (r : bool) :
  dependsOn fuel g A B = Some r → (r = true ↔ tc (edge g) A B).
Proof.
  intros H. destruct r.
  - split; [intros _; by eapply dependsOn_true_sound|done].
  - split; [done|]. intros Ht. by destruct (dependsOn_false_sound _ _ _ _ H).
Qed.

Lemma dependsOn_answer_is_reachability_witness :
  (true = true ↔ tc (edge {[0 := [1; 0]; 1 := [2]]}) 0 2).
Proof.
  apply (dependsOn_answer_is_reachability 2 {[0 := [1; 0]; 1 := [2]]} 0 2 true).
  by vm_compute.
Defined.

(** An answer "false" with fuel [n] has explored every path from the stack,
    so all of them are shorter than [n]. *)
Lemma dependsOn_false_depth n : ∀ g a b,
  dependsOn n g a b = Some false → ∀ k x, nsteps (edge g) k a x → k < n.
Proof.
  induction n as [|n IH]; intros g a b H k x Hk; [done|]. simpl in H.
  destruct (includes (dependencies g a) b); [done|].
  inversion Hk as [|k' ? d ? Had Hdx]; subst; [lia|].
  pose proof (IH g d b (some_false_all _ _ H d Had) k' x Hdx). lia.
Qed.

Lemma nsteps_cycle (g : gmap nat (list nat)) m c :
  nsteps (edge g) m c c → ∀ j, nsteps (edge g) (j * m) c c.
Proof.
  intros Hm j. induction j as [|j IH]; simpl; [constructor|].
  by eapply nsteps_trans.
Qed.

(** X2: when a cycle of recorded edges can be reached from A and B cannot,
    [dependsOn(A, B)] returns with no amount of fuel: the recursion goes
    round the cycle without end. *)
Theorem dependsOn_diverges_on_cycle (g : gmap nat (list nat)) (A B c : nat) :
  rtc (edge g) A c → tc (edge g) c c → ¬ tc (edge g) A B →
  ∀ fuel, dependsOn fuel g A B = None.
Proof.
  intros HAc Hcc HAB fuel.
  destruct (dependsOn fuel g A B) as [[]|] eqn:E; [| |done].
  - by destruct (HAB (dependsOn_true_sound _ _ _ _ E)).
  - exfalso. apply rtc_nsteps in HAc as [k0 Hk0].
    apply tc_nsteps in Hcc as (m & Hm & Hcc).
    pose proof (nsteps_trans _ _ _ _ _ Hk0 (nsteps_cycle g m c Hcc fuel)) as Hp.
    pose proof (dependsOn_false_depth _ _ _ _ E _ _ Hp). nia.
Qed.

Lemma dependsOn_diverges_on_cycle_witness :
  dependsOn 1000 {[0 := [1]; 1 := [1]]} 0 2 = None.
Proof.
  apply (dependsOn_diverges_on_cycle _ 0 2 1).
  - apply rtc_once. unfold edge. apply (bool_decide_unpack _). by vm_compute.
  - apply tc_once. unfold edge. apply (bool_decide_unpack _). by vm_compute.
  - intros Ht. apply tc_target_listed in Ht. revert Ht.
    apply (bool_decide_unpack _). by vm_compute.
Defined.

Lemma addDependency_inv fuel g a b g' o :
  addDependency fuel g a b = Some (g', o) →
  (dependsOn fuel g b a = Some true ∧ g' = g ∧ o = Thrown (LoopError b a)) ∨
  (dependsOn fuel g b a = Some false ∧ b ∈ dependencies g a ∧
   g' = g ∧ o = Returned) ∨
  (dependsOn fuel g b a = Some false ∧ (b ∉ dependencies g a) ∧
   g' = add_edge g a b ∧ o = Returned).
Proof.
  unfold addDependency. destruct (dependsOn fuel g b a) as [[]|]; [| |done].
  - intros [= <- <-]. by left.
  - destruct (includes (dependencies g a) b) eqn:Hin; intros [= <- <-]; right.
    + left. by apply includes_true in Hin.
    + right. by apply includes_false in Hin.
Qed.

(** X3: on any store, whenever [addDependency(A, B)] ends, it has thrown
    exactly when B reached A beforehand; a throw leaves the store as it
    was; a return leaves every recorded edge in place, has the edge from A
    to B recorded, and has added no other edge. *)
Theorem addDependency_decides_exactly (fuel : nat) (g g' : gmap nat (list nat))
    (A B : nat) (o : outcome) :
  addDependency fuel g A B = Some (g', o) →
  (o = Thrown (LoopError B A) ↔ tc (edge g) B A) ∧
  (o = Returned ↔ (¬ tc (edge g) B A)) ∧
  (tc (edge g) B A → g' = g) ∧
  (∀ x y, edge g x y → edge g' x y) ∧
  (∀ x y, edge g' x y → edge g x y ∨ (x = A ∧ y = B)) ∧
  (o = Returned → edge g' A B).
Proof.
  intros H.
  destruct (addDependency_inv _ _ _ _ _ _ H)
    as [(Hd & -> & ->)|[(Hd & Hin & -> & ->)|(Hd & Hin & -> & ->)]].
  - pose proof (dependsOn_true_sound _ _ _ _ Hd) as Ht.
    repeat split; try done. intros x y Hxy. by left.
  - pose proof (dependsOn_false_sound _ _ _ _ Hd) as Ht.
    repeat split; try done. intros x y Hxy. by left.
  - pose proof (dependsOn_false_sound _ _ _ _ Hd) as Ht.
    repeat split; try done.
    + intros x y Hxy. apply edge_add. by left.
    + intros x y Hxy. by apply edge_add.
    + intros _. apply edge_add. by right.
Qed.

Lemma addDependency_decides_exactly_witness :
  (Thrown (LoopError 1 0) = Thrown (LoopError 1 0)
   ↔ tc (edge {[1 := [0; 1]]}) 1 0).
Proof.
  destruct (addDependency_decides_exactly 1 {[1 := [0; 1]]} {[1 := [0; 1]]} 0 1
              (Thrown (LoopError 1 0))) as (H & _); [by vm_compute|exact H].
Defined.

(** X4: a [dependencies] array never lists a stack twice: if no array of
    the store has a duplicate before [addDependency], none has one after. *)
Theorem addDependency_keeps_arrays_duplicate_free (fuel : nat)
    (g g' : gmap nat (list nat)) (A B : nat) (o : outcome) :
  addDependency fuel g A B = Some (g', o) →
  (∀ s, NoDup (dependencies g s)) → ∀ s, NoDup (dependencies g' s).
Proof.
  intros H Hnd s.
  destruct (addDependency_inv _ _ _ _ _ _ H)
    as [(_ & -> & _)|[(_ & _ & -> & _)|(_ & Hin & -> & _)]]; [done|done|].
  destruct (decide (s = A)) as [->|Hne].
  - rewrite dependencies_add_eq. apply NoDup_app. split; [done|].
    split; [|apply NoDup_singleton].
    intros x Hx Hx'. apply list_elem_of_singleton in Hx'. by subst.
  - by rewrite dependencies_add_ne.
Qed.

Lemma addDependency_keeps_arrays_duplicate_free_witness :
  NoDup (dependencies {[0 := [2; 1]]} 0).
Proof.
  apply (addDependency_keeps_arrays_duplicate_free 2 {[0 := [2]]} _ 0 1 Returned).
  - by vm_compute.
  - intros s. unfold dependencies. destruct (decide (s = 0)) as [->|Hne].
    + rewrite lookup_singleton_eq. simpl. apply NoDup_singleton.
    + rewrite lookup_singleton_ne by done. constructor.
Defined.

(** X5: on an acyclic store the answers of [dependsOn] form a strict
    order: no stack depends on itself; if A depends on B then B does not
    depend on A; and if A depends on B and B on C then A depends on C.
    Each answer is returned for every fuel above a bound. *)
Theorem dependsOn_strict_order (g : gmap nat (list nat)) :
  acyclic g →
  (∀ A, ∃ n, ∀ fuel, n ≤ fuel → dependsOn fuel g A A = Some false) ∧
  (∀ A B f, dependsOn f g A B = Some true →
     ∃ n, ∀ fuel, n ≤ fuel → dependsOn fuel g B A = Some false) ∧
  (∀ A B C f1 f2,
     dependsOn f1 g A B = Some true → dependsOn f2 g B C = Some true →
     ∃ n, ∀ fuel, n ≤ fuel → dependsOn fuel g A C = Some true).
Proof.
  intros Hac. split; [|split].
  - intros A. destruct (dependsOn_decides g A A Hac) as (n & r & Hn & Hr).
    exists n. destruct r; [|done]. destruct Hr as [Hr _].
    by destruct (Hac A (Hr eq_refl)).
  - intros A B f HAB. apply dependsOn_true_sound in HAB.
    destruct (dependsOn_decides g B A Hac) as (n & r & Hn & Hr).
    exists n. destruct r; [|done]. destruct Hr as [Hr _].
    destruct (Hac A). eapply tc_trans; [exact HAB|by apply Hr].
  - intros A B C f1 f2 HAB HBC.
    apply dependsOn_true_sound in HAB. apply dependsOn_true_sound in HBC.
    destruct (dependsOn_decides g A C Hac) as (n & r & Hn & Hr).
    exists n. destruct r; [done|]. destruct Hr as [_ Hr].
    assert (false = true) by (apply Hr; by eapply tc_trans). done.
Qed.

Lemma dependsOn_strict_order_witness :
  ∃ n, ∀ fuel, n ≤ fuel →
    dependsOn fuel (add_edge (add_edge ∅ 0 1) 1 2) 0 2 = Some true.
Proof.
  assert (acyclic (add_edge (add_edge ∅ 0 1) 1 2)) as Hac.
  { apply add_edge_acyclic; [|lia|].
    - apply add_edge_acyclic; [apply acyclic_empty|lia|apply no_edge_empty].
    - intros Ht.
      assert (dependencies (add_edge ∅ 0 1) 2 = []) as Hnone by (by vm_compute).
      destruct (proj1 (tc_edge_inv _ _ _) Ht) as [H|(d & H & _)];
        unfold edge in H; rewrite Hnone in H; inversion H. }
  destruct (dependsOn_strict_order _ Hac) as (_ & _ & Htrans).
  apply (Htrans 0 1 2 1 1); by vm_compute.
Defined.

End DepsExtra.

(** ** Sequences of raw overrides, and overrides in the document *)

Module OverridesExtra.
Import Json Js Tree Stack Overrides Synth Notions OverridesTheory SynthTheory.

Lemma isObject_ref h l : isObject h (Ref l) = ordinary h l.
Proof. done. Qed.

(** One round of the loop over a key that holds a non-array object. *)
Lemma assign_own_step h curr o key k2 rest l' w :
  h !! curr = Some o → own o key = Some (Ref l') → ordinary h l' = true →
  assign h curr (key :: k2 :: rest) w = assign h l' (k2 :: rest) w.
Proof.
  intros Ho Hown Hl'. cbn [assign].
  rewrite (get_own h curr o key (Ref l')) by done.
  rewrite isObject_ref, Hl'. cbn [mbind result_bind].
  by rewrite (get_own h curr o key (Ref l')).
Qed.

(** One round of the loop over a key that holds nothing of the kind. *)
Lemma assign_new_step h curr key k2 rest w :
  plain h → plain_at h curr → key ≠ "__proto__"%string →
  isObject h (get h curr key) = false →
  assign h curr (key :: k2 :: rest) w
  = assign (linked h curr key) (fresh_loc h) (k2 :: rest) w.
Proof.
  intros Hp [Hc0 Hord] Hkey Hobj.
  destruct (ordinary_lookup _ _ Hord) as (o & Ho & Hcl).
  pose proof (fresh_loc_fresh h) as Hfresh.
  assert (curr ≠ fresh_loc h) as Hcf by congruence.
  cbn [assign]. rewrite Hobj.
  assert (set (<[fresh_loc h := empty_object]> h) curr key (Ref (fresh_loc h))
          = Ok (linked h curr key)) as ->.
  { apply (set_plain _ curr o); [by apply plain_alloc| | |done].
    - by rewrite lookup_insert_ne.
    - split; [done|]. unfold ordinary. by rewrite lookup_insert_ne, Ho. }
  cbn [mbind result_bind].
  by rewrite (get_own _ curr _ key (Ref (fresh_loc h))
                (linked_lookup_curr h curr key o Ho) (own_update_eq _ _ _)).
Qed.

Lemma replace_replace l k v w : replace (replace l k v) k w = replace l k w.
Proof.
  induction l as [|[k' v'] l IH]; simpl; [done|].
  case_decide; simpl; [by rewrite decide_True|].
  by rewrite decide_False, IH.
Qed.

Lemma replace_absent l k v : assoc l k = None → replace l k v = l.
Proof.
  induction l as [|[k' v'] l IH]; simpl; [done|].
  case_decide as Hd; [done|]. intros Hl. by rewrite IH.
Qed.

Lemma replace_app l1 l2 k v :
  assoc l1 k = None → replace (l1 ++ l2) k v = l1 ++ replace l2 k v.
Proof.
  induction l1 as [|[k' v'] l1 IH]; simpl; [done|].
  case_decide as Hd; [done|]. intros Hl. by rewrite IH.
Qed.

Lemma update_update o k v w : update (update o k v) k w = update o k w.
Proof.
  unfold update. destruct (assoc (props o) k) eqn:E1; cbn [props hidden].
  - rewrite assoc_replace_eq by eauto. cbn. by rewrite replace_replace.
  - destruct (assoc (hidden o) k) eqn:E2; cbn [props hidden].
    + rewrite E1, assoc_replace_eq by eauto. cbn. by rewrite replace_replace.
    + rewrite assoc_app, E1. cbn. rewrite decide_True by done. cbn.
      rewrite replace_app by done. cbn. by rewrite decide_True.
Qed.

Lemma set_own_set_own h l k v w :
  set_own (set_own h l k v) l k w = set_own h l k w.
Proof.
  unfold set_own. apply map_eq. intros i. destruct (decide (l = i)) as [->|Hne].
  - rewrite !lookup_alter_eq. destruct (h !! i); cbn; [|done].
    by rewrite update_update.
  - by rewrite !lookup_alter_ne.
Qed.

(** A second assignment along the same key path meets the objects of the
    first and ends as it would have ended alone. *)
Lemma assign_again v w : ∀ parts h curr h1,
  parts ≠ [] → "__proto__"%string ∉ parts →
  plain h → no_cycle h → plain_at h curr →
  assign h curr parts v = Ok h1 →
  assign h1 curr parts w = assign h curr parts w.
Proof.
  induction parts as [|key rest IH]; intros h curr h1 Hne Hnp Hp Ha Hat Hrun;
    [done|].
  assert (key ≠ "__proto__"%string) as Hkey.
  { intros ->. apply Hnp. left. }
  pose proof Hat as [Hc0 Hord].
  destruct (ordinary_lookup _ _ Hord) as (o & Ho & Hcl).
  destruct rest as [|k2 rest].
  - cbn [assign] in *. rewrite (set_plain h curr o) in Hrun by done.
    injection Hrun as <-. rewrite (set_plain h curr o) by done.
    unfold set, depth. cbn [Nat.add].
    rewrite (find_own _ _ curr (update o key v) key v);
      [|by apply lookup_set_own_eq|apply own_update_eq].
    by rewrite set_own_set_own.
  - assert ("__proto__"%string ∉ k2 :: rest) as Hnp'.
    { intros H. apply Hnp. by right. }
    destruct (isObject h (get h curr key)) eqn:Hobj.
    + destruct (isObject_get h curr o key Hp Ho Hat Hkey Hobj)
        as (l' & Hown & Hl').
      rewrite (assign_own_step h curr o key k2 rest l') in Hrun by done.
      rewrite (assign_own_step h curr o key k2 rest l') by done.
      assert (plain_at h l') as Hat'.
      { split; [|done]. intros ->. by apply (plain_refs h Hp curr o key). }
      destruct (assign_spec v (k2 :: rest) h l' ltac:(done) Hnp' Hp Ha Hat')
        as (h' & Hrun' & _ & R2 & R3 & _).
      assert (h' = h1) as -> by congruence.
      assert (h1 !! curr = Some o) as Hc1.
      { rewrite R2; [done|eauto|]. intros Hr. apply (Ha curr).
        eapply tc_rtc_r; [|done]. apply tc_once. split; [done|].
        exists key. unfold own_at. by rewrite Ho. }
      assert (ordinary h1 l' = true) as Hl1.
      { destruct (ordinary_lookup _ _ Hl') as (o' & Ho' & Hc').
        destruct (R3 l' o' Ho') as (o'' & Ho'' & Hk & _).
        unfold ordinary. by rewrite Ho'', Hk. }
      rewrite (assign_own_step h1 curr o key k2 rest l') by done.
      by apply IH.
    + rewrite (assign_new_step h curr key k2 rest) in Hrun by done.
      rewrite (assign_new_step h curr key k2 rest) by done.
      assert (is_Some (h !! curr)) as Hsome by eauto.
      pose proof (linked_lookup_curr h curr key o Ho) as Hc1.
      pose proof (linked_lookup_fresh h curr key Hsome) as Hf1.
      assert (plain_at (linked h curr key) (fresh_loc h)) as Hat'.
      { split; [done|]. unfold ordinary. by rewrite Hf1. }
      pose proof (linked_plain h curr key Hp Hat) as Hp1.
      pose proof (linked_no_cycle h curr key Hsome Ha) as Ha1.
      destruct (assign_spec v (k2 :: rest) _ _ ltac:(done) Hnp' Hp1 Ha1 Hat')
        as (h' & Hrun' & _ & R2 & R3 & _).
      assert (h' = h1) as -> by congruence.
      assert (h1 !! curr = Some (update o key (Ref (fresh_loc h)))) as Hc'.
      { rewrite R2; [done|by rewrite Hc1|]. intros Hr.
        apply rtc_from_fresh in Hr; [|done].
        rewrite Hr, fresh_loc_fresh in Ho. done. }
      assert (ordinary h1 (fresh_loc h) = true) as Hl1.
      { destruct (R3 _ _ Hf1) as (o'' & Ho'' & Hk & _).
        unfold ordinary. by rewrite Ho'', Hk. }
      rewrite (assign_own_step h1 curr _ key k2 rest (fresh_loc h) w Hc'
                 (own_update_eq _ _ _) Hl1).
      by apply IH.
Qed.

Lemma update_names o k v :
  hidden o = [] →
  (props (update o k v)).*1
  = if bool_decide (k ∈ (props o).*1) then (props o).*1 else (props o).*1 ++ [k].
Proof.
  intros Hh. unfold update. rewrite Hh. cbn [assoc].
  assert (∀ l, (replace l k v).*1 = l.*1) as Hrep.
  { induction l as [|[k' v'] l IH]; [done|]. cbn [replace].
    case_decide; [done|]. by rewrite !fmap_cons, IH. }
  assert (∀ l, is_Some (assoc l k) ↔ k ∈ l.*1) as Hin.
  { induction l as [|[k' v'] l IH].
    - split; [by intros [? ?]|by intros ?%elem_of_nil].
    - cbn [assoc]. rewrite fmap_cons, elem_of_cons. cbn [fst].
      case_decide as Hd; subst.
      + split; [by left|eauto].
      + rewrite IH. split; [by right|by intros [?|?]]. }
  destruct (assoc (props o) k) eqn:E; cbn [props].
  - rewrite bool_decide_eq_true_2; [apply Hrep|]. apply Hin. by rewrite E.
  - rewrite bool_decide_eq_false_2; [by rewrite fmap_app|].
    intros H. apply Hin in H as [? ?]. congruence.
Qed.

(** The object the loop starts in gains at most the first key. *)
Lemma assign_root v parts h curr o :
  parts ≠ [] → "__proto__"%string ∉ parts →
  plain h → no_cycle h → plain_at h curr → h !! curr = Some o →
  ∃ h' o', assign h curr parts v = Ok h' ∧ h' !! curr = Some o' ∧
    (props o').*1
    = if bool_decide (hd ""%string parts ∈ (props o).*1) then (props o).*1
      else (props o).*1 ++ [hd ""%string parts].
Proof.
  intros Hne Hnp Hp Ha Hat Ho. destruct parts as [|key rest]; [done|].
  assert (key ≠ "__proto__"%string) as Hkey.
  { intros ->. apply Hnp. left. }
  pose proof Hat as [Hc0 Hord].
  assert (is_ordinary (obj_class o) = true) as Hcl.
  { unfold ordinary in Hord. by rewrite Ho in Hord. }
  destruct (plain_literal h Hp curr o Ho Hc0 Hcl) as [_ Hhid].
  destruct rest as [|k2 rest]; cbn [hd].
  - exists (set_own h curr key v), (update o key v). cbn [assign].
    split; [by apply (set_plain h curr o)|].
    split; [by apply lookup_set_own_eq|by apply update_names].
  - assert ("__proto__"%string ∉ k2 :: rest) as Hnp'.
    { intros H. apply Hnp. by right. }
    destruct (isObject h (get h curr key)) eqn:Hobj.
    + destruct (isObject_get h curr o key Hp Ho Hat Hkey Hobj)
        as (l' & Hown & Hl').
      rewrite (assign_own_step h curr o key k2 rest l') by done.
      assert (plain_at h l') as Hat'.
      { split; [|done]. intros ->. by apply (plain_refs h Hp curr o key). }
      destruct (assign_spec v (k2 :: rest) h l' ltac:(done) Hnp' Hp Ha Hat')
        as (h' & Hrun' & _ & R2 & _).
      exists h', o. split; [done|]. split.
      { rewrite R2; [done|eauto|]. intros Hr. apply (Ha curr).
        eapply tc_rtc_r; [|done]. apply tc_once. split; [done|].
        exists key. unfold own_at. by rewrite Ho. }
      rewrite bool_decide_eq_true_2; [done|].
      rewrite own_enumerable in Hown by done.
      apply assoc_elem in Hown. apply list_elem_of_fmap. by exists (key, Ref l').
    + rewrite (assign_new_step h curr key k2 rest) by done.
      assert (is_Some (h !! curr)) as Hsome by eauto.
      pose proof (linked_lookup_curr h curr key o Ho) as Hc1.
      pose proof (linked_lookup_fresh h curr key Hsome) as Hf1.
      assert (plain_at (linked h curr key) (fresh_loc h)) as Hat'.
      { split; [done|]. unfold ordinary. by rewrite Hf1. }
      pose proof (linked_plain h curr key Hp Hat) as Hp1.
      pose proof (linked_no_cycle h curr key Hsome Ha) as Ha1.
      destruct (assign_spec v (k2 :: rest) _ _ ltac:(done) Hnp' Hp1 Ha1 Hat')
        as (h' & Hrun' & _ & R2 & _).
      exists h', (update o key (Ref (fresh_loc h))). split; [done|]. split.
      { rewrite R2; [done|by rewrite Hc1|]. intros Hr.
        apply rtc_from_fresh in Hr; [|done].
        rewrite Hr, fresh_loc_fresh in Ho. done. }
      by apply update_names.
Qed.

(** X6: the last override of a path wins and leaves no trace of the one
    before. On a heap of plain data without a cycle of references and for a
    path without the part [__proto__], [addOverride(p, w)] after
    [addOverride(p, v)] ends as [addOverride(p, w)] alone would have ended,
    with the same heap; in particular adding the same override twice is
    adding it once. *)
Theorem addOverride_last_wins (h h1 : gmap loc object) (rawOverrides : loc)
    (path : string) (v w : val) :
  plain h → no_cycle h → plain_at h rawOverrides →
  "__proto__"%string ∉ split "." path →
  addOverride h rawOverrides path v = Ok h1 →
  addOverride h1 rawOverrides path w = addOverride h rawOverrides path w ∧
  addOverride h1 rawOverrides path v = Ok h1.
Proof.
  intros Hp Ha Hat Hnp Hrun. unfold addOverride in *.
  pose proof (split_nonempty "." path) as Hne.
  split; [by apply (assign_again v)|].
  by rewrite (assign_again v v _ h rawOverrides h1).
Qed.

Lemma addOverride_last_wins_witness :
  ∃ h1, addOverride sample_heap 13 "resource.a.tags" (Num 1) = Ok h1 ∧
    addOverride h1 13 "resource.a.tags" (Num 2)
    = addOverride sample_heap 13 "resource.a.tags" (Num 2).
Proof.
  destruct (addOverride sample_heap 13 "resource.a.tags" (Num 1))
    as [h1|e] eqn:E; [|by vm_compute in E].
  exists h1. split; [done|].
  apply (addOverride_last_wins sample_heap h1 13 "resource.a.tags" (Num 1) (Num 2)
           sample_heap_plain sample_heap_no_cycle); [| |exact E].
  - split; [done|]. by vm_compute.
  - apply (bool_decide_unpack _). by vm_compute.
Defined.

Lemma mapM_entries (g : val → option value) : ∀ l t,
  mapM (λ kv : string * val, (kv.1,.) <$> g kv.2) l = Some t →
  t.*1 = l.*1 ∧
  ∀ k v, assoc l k = Some v → ∃ x, g v = Some x ∧ obj_get t k = Some x.
Proof.
  induction l as [|[k0 v0] l IH]; intros t H.
  - injection H as <-. split; [done|]. intros k v Hk. done.
  - cbn [mapM] in H. cbn in H.
    destruct (g v0) as [x0|] eqn:E0; [|done]. cbn in H.
    destruct (mapM _ l) as [t'|] eqn:E1; [|done]. cbn in H. injection H as <-.
    destruct (IH t' eq_refl) as [Hn Hk]. split.
    + cbn. by rewrite Hn.
    + intros k v Hkv. cbn [assoc] in Hkv. cbn [obj_get].
      case_decide as Hd; [injection Hkv as <-; eauto|by apply Hk].
Qed.

Lemma contents_object fuel h l t :
  contents fuel h (Ref l) = Some (VObj t) →
  ∃ f o, fuel = S f ∧ h !! l = Some o ∧ is_ordinary (obj_class o) = true ∧
    mapM (λ kv : string * val, (kv.1,.) <$> contents f h kv.2) (props o) = Some t.
Proof.
  destruct fuel as [|f]; [done|]. cbn [contents].
  destruct (h !! l) as [o|]; [|done].
  destruct (obj_class o) eqn:Hc; [| |done].
  - intros H. exists f, o. split; [done|]. split; [done|].
    split; [by rewrite Hc|].
    destruct (mapM _ (props o)) as [t'|]; [|done]. cbn in H. by injection H as <-.
  - destruct (mapM _ (props o)); done.
Qed.

Lemma contents_ordinary fuel h l o x :
  h !! l = Some o → is_ordinary (obj_class o) = true →
  contents fuel h (Ref l) = Some x → ∃ t, x = VObj t.
Proof.
  intros Hl Hc. destruct fuel as [|f]; [done|]. cbn [contents]. rewrite Hl.
  destruct (obj_class o); try done.
  destruct (mapM _ (props o)) as [t|]; [|done]. cbn. intros [= <-]. eauto.
Qed.

(** What is read through own enumerable properties of the objects is read
    at the same key path of their contents. *)
Lemma contents_path p : ∀ fuel h l t v,
  p ≠ [] → contents fuel h (Ref l) = Some (VObj t) →
  own_path h (Ref l) p = Some v →
  ∃ fuel' x, contents fuel' h v = Some x ∧ get_path t p = Some x.
Proof.
  induction p as [|k p IH]; intros fuel h l t v Hne Hc Hp; [done|].
  destruct (contents_object _ _ _ _ Hc) as (f & o & -> & Hl & Hcl & Hm).
  destruct (mapM_entries _ _ _ Hm) as [_ Hk].
  rewrite (own_path_cons _ _ o) in Hp by done.
  destruct (assoc (props o) k) as [v1|] eqn:Hv1; [|done].
  destruct (Hk k v1 Hv1) as (x1 & Hx1 & Hg).
  destruct p as [|k2 p].
  - cbn in Hp. injection Hp as <-. exists f, x1. by split.
  - destruct v1 as [| | | | |l1]; try done.
    assert (∃ o1, h !! l1 = Some o1 ∧ is_ordinary (obj_class o1) = true)
      as (o1 & Hl1 & Hc1).
    { cbn [own_path] in Hp. destruct (h !! l1) as [o1|]; [|done].
      exists o1. split; [done|]. by destruct (is_ordinary (obj_class o1)). }
    destruct (contents_ordinary _ _ _ _ _ Hl1 Hc1 Hx1) as [t1 ->].
    destruct (IH f h l1 t1 v ltac:(done) Hx1 Hp) as (f' & x & Hx & Hg').
    exists f', x. split; [done|].
    by rewrite get_path_cons, Hg.
Qed.

Lemma update_string_names o :
  (props o).*1 = [] → props o = [].
Proof. by destruct (props o). Qed.

(** X8: on a heap of plain data without a cycle of references and for a
    path without the part [__proto__], [addOverride] adds at most one
    property to [rawOverrides], the first key of the path, and removes
    none. [Object.keys(rawOverrides)] lists that key afterwards and still
    lists every key it listed; it is unchanged when the key was there; a
    new key that is not an array index is listed last, and a new key is
    otherwise listed where the order of property keys puts it. The
    metadata literal of [toTerraform] then carries the summary
    [overrides.stack] with exactly these keys. *)
Theorem addOverride_top_level_keys (h : gmap loc object) (rawOverrides : loc)
    (path : string) (v : val) (o : object) :
  plain h → no_cycle h → plain_at h rawOverrides →
  "__proto__"%string ∉ split "." path →
  h !! rawOverrides = Some o →
  let first := hd ""%string (split "." path) in
  ∃ h' o', addOverride h rawOverrides path v = Ok h' ∧
    h' !! rawOverrides = Some o' ∧
    first ∈ Object_keys o' ∧
    (∀ k, k ∈ Object_keys o → k ∈ Object_keys o') ∧
    (first ∈ Object_keys o → Object_keys o' = Object_keys o) ∧
    (first ∉ Object_keys o →
     Object_keys o' = Keys.own_keys ((props o).*1 ++ [first]) ∧
     (Keys.array_index first = None → Object_keys o' = Object_keys o ++ [first])) ∧
    (∀ fuel t this,
       contents fuel h' (Ref rawOverrides) = Some (VObj t) →
       obj_get (Synth.initial_metadata (set_rawOverrides this t)) "overrides"
       = Some (VObj [("stack", VArr (VStr <$> Object_keys o'))]%string)).
Proof.
  intros Hp Ha Hat Hnp Ho first.
  destruct (assign_root v (split "." path) h rawOverrides o
              (split_nonempty _ _) Hnp Hp Ha Hat Ho) as (h' & o' & Hrun & Ho' & Hn).
  fold first in Hn. exists h', o'. split; [exact Hrun|]. split; [done|].
  unfold Object_keys. rewrite Hn.
  assert (first ∈ (if bool_decide (first ∈ (props o).*1) then (props o).*1
                   else (props o).*1 ++ [first])) as Hin.
  { case_bool_decide; [done|]. rewrite elem_of_app, list_elem_of_singleton. by right. }
  split; [by apply KeysTheory.own_keys_elem|].
  split.
  { intros k. rewrite !KeysTheory.own_keys_elem. case_bool_decide; [done|].
    rewrite elem_of_app. by left. }
  split.
  { rewrite KeysTheory.own_keys_elem. intros H.
    by rewrite bool_decide_eq_true_2. }
  split.
  { rewrite KeysTheory.own_keys_elem. intros H.
    rewrite bool_decide_eq_false_2 by done. split; [done|].
    intros Hix. apply KeysTheory.own_keys_app_named.
    by apply KeysTheory.named_index. }
  intros fuel t this Hc.
  destruct (contents_object _ _ _ _ Hc) as (f & o1 & -> & Hl & Hcl & Hm).
  assert (o1 = o') as -> by congruence.
  destruct (mapM_entries _ _ _ Hm) as [Ht _].
  rewrite initial_metadata_overrides. unfold overrides_summary.
  cbn [Stack.rawOverrides set_rawOverrides]. unfold keys. rewrite Ht, Hn.
  destruct t as [|kv t]; [|done].
  cbn in Ht. rewrite <- Ht in Hn. rewrite <- Hn in Hin. by apply elem_of_nil in Hin.
Qed.

Example addOverride_index_key :
  (h1 ← addOverride sample_heap 13 "terraform.backend" (Str "x");
   h2 ← addOverride h1 13 "a" (Num 1);
   h3 ← addOverride h2 13 "1" (Num 2);
   Ok (Object_keys <$> h3 !! 13))
  = Ok (Some ["1"; "terraform"; "a"]%string).
Proof. by vm_compute. Qed.

Lemma addOverride_top_level_keys_witness :
  ∃ h' o', addOverride sample_heap 13 "terraform.backend" (Str "x") = Ok h' ∧
    h' !! 13 = Some o' ∧ Object_keys o' = ["terraform"]%string.
Proof.
  destruct (addOverride_top_level_keys sample_heap 13 "terraform.backend" (Str "x")
              empty_object sample_heap_plain sample_heap_no_cycle)
    as (h' & o' & E & Ho' & _ & _ & _ & Hnew & _).
  - split; [done|]. by vm_compute.
  - apply (bool_decide_unpack _). by vm_compute.
  - by vm_compute.
  - exists h', o'. split; [exact E|]. split; [exact Ho'|].
    apply Hnew; [|reflexivity]. cbn. apply not_elem_of_nil.
Defined.

Lemma append_assoc (a b c : string) : (a +:+ b) +:+ c = a +:+ b +:+ c.
Proof.
  induction a as [|x a IH]; [done|].
  change (String x ((a +:+ b) +:+ c) = String x (a +:+ b +:+ c)). by rewrite IH.
Qed.

Lemma fold_join_prefix sep l : ∀ a b,
  fold_left (λ acc t, acc +:+ sep +:+ t) l (a +:+ b)
  = a +:+ fold_left (λ acc t, acc +:+ sep +:+ t) l b.
Proof.
  induction l as [|z l IH]; intros a b; cbn [fold_left]; [done|].
  by rewrite append_assoc, IH.
Qed.

Lemma join_cons sep x y l :
  Scopes.join sep (x :: y :: l) = x +:+ sep +:+ Scopes.join sep (y :: l).
Proof.
  unfold Scopes.join. cbn [fold_left].
  by rewrite fold_join_prefix, fold_join_prefix.
Qed.

(** X9: the key path of an override is read off the path string without
    loss: [path.split(".")] is never empty, none of its parts contains a
    ".", joining the parts with "." gives the path back, and a path
    without "." is a single top-level key. *)
Theorem split_path_round_trip (path : string) :
  split "." path ≠ [] ∧
  Forall (λ part, has_char "." part = false) (split "." path) ∧
  Scopes.join "." (split "." path) = path ∧
  (has_char "." path = false → split "." path = [path]).
Proof.
  split; [apply split_nonempty|].
  induction path as [|c path (IH1 & IH2 & IH3)]; [by repeat constructor|].
  cbn [split has_char]. destruct (decide (c = "."%char)) as [->|Hc].
  - split; [by constructor|]. split; [|done].
    destruct (split "." path) as [|p ps] eqn:E; [by apply split_nonempty in E|].
    by rewrite join_cons, IH2.
  - rewrite bool_decide_eq_false_2 by done. cbn [orb].
    destruct (split "." path) as [|p ps] eqn:E; [by apply split_nonempty in E|].
    destruct (proj1 (Forall_cons _ _ _) IH1) as [Hp Hps]. split.
    { constructor; [|done]. cbn [has_char].
      by rewrite bool_decide_eq_false_2. }
    split.
    + destruct ps as [|p2 ps]; [simpl in *; by rewrite IH2|].
      rewrite join_cons. rewrite join_cons in IH2. by rewrite <- IH2.
    + intros Hno. by injection (IH3 Hno) as -> ->.
Qed.

Lemma split_path_round_trip_witness : split "." "terraform" = ["terraform"]%string.
Proof.
  destruct (split_path_round_trip "terraform") as (_ & _ & _ & H).
  by apply H.
Defined.

Section DocumentOverrides.

Variable element_toTerraform : construct → list (string * value).
Variable element_toMetadata : construct → list (string * value).

(** X10: an override added with [addOverride] shows in the synthesised
    document. On a heap of plain data without a cycle of references and for
    a path without the part [__proto__], let [toTerraform] read, after
    [addOverride(path, v)], the contents of [rawOverrides] (a tree with
    unique keys): then [v] has contents too, and when these are not a
    mapping the document holds them at the key path of [path], whatever the
    elements render there. *)
Theorem addOverride_shows_in_document (this : TerraformStack)
    (h : gmap loc object) (rawOverrides : loc) (path : string) (v : val) :
  plain h → no_cycle h → plain_at h rawOverrides →
  "__proto__"%string ∉ split "." path →
  ∃ h', addOverride h rawOverrides path v = Ok h' ∧
    ∀ fuel t,
      contents fuel h' (Ref rawOverrides) = Some (VObj t) → wf_obj t = true →
      ∃ fuel' x, contents fuel' h' v = Some x ∧
        (is_mapping x = false →
         get_path (toTerraform element_toTerraform element_toMetadata
                     (set_rawOverrides this t)) (split "." path) = Some x).
Proof.
  intros Hp Ha Hat Hnp.
  destruct (addOverride_stores_path h rawOverrides path v Hp Ha Hat Hnp)
    as (h' & Hrun & Hpath).
  exists h'. split; [done|]. intros fuel t Hc Hwf.
  destruct (contents_path _ _ _ _ _ _ (split_nonempty "." path) Hc Hpath)
    as (fuel' & x & Hx & Hg).
  exists fuel', x. split; [done|]. intros Hleaf.
  unfold toTerraform, resolve. cbn [Stack.rawOverrides set_rawOverrides].
  by apply deepMerge_precedence; [|apply split_nonempty| |].
Qed.

End DocumentOverrides.

Lemma addOverride_shows_in_document_witness :
  ∃ h', addOverride sample_heap 13 "resource.Resource1" (Str "gone") = Ok h' ∧
    contents 3 h' (Ref 13)
    = Some (VObj [("resource", VObj [("Resource1", VStr "gone")])]%string) ∧
    get_path (toTerraform sample_fragment sample_metadata
                (set_rawOverrides resource_stack
                   [("resource", VObj [("Resource1", VStr "gone")])]%string))
      ["resource"; "Resource1"]%string = Some (VStr "gone").
Proof.
  destruct (addOverride_shows_in_document sample_fragment sample_metadata
              resource_stack sample_heap 13 "resource.Resource1" (Str "gone")
              sample_heap_plain sample_heap_no_cycle)
    as (h' & E & H).
  - split; [done|]. by vm_compute.
  - apply (bool_decide_unpack _). by vm_compute.
  - exists h'. split; [exact E|].
    assert (contents 3 h' (Ref 13)
            = Some (VObj [("resource", VObj [("Resource1", VStr "gone")])]%string))
      as Hc.
    { vm_compute in E. injection E as <-. by vm_compute. }
    split; [exact Hc|].
    destruct (H 3 _ Hc eq_refl) as (fuel' & x & Hx & Hdoc).
    assert (x = VStr "gone") as ->.
    { destruct fuel' as [|f]; [done|]. cbn in Hx. by injection Hx as <-. }
    by apply Hdoc.
Defined.

End OverridesExtra.

(** ** The owning stack along a chain of scopes *)

Module ScopesExtra.
Import Json Scopes ScopesTheory.

Lemma lookup_stack construct s :
  TerraformStack_isStack s = true → _lookup construct s = Ok s.
Proof. intros H. destruct s. cbn [_lookup]. by rewrite H. Qed.

Lemma scopes_elem x y : y ∈ scopes x ↔ y ∈ ancestors x.
Proof.
  rewrite scopes_ancestors, !list_elem_of_In. symmetry. apply in_rev.
Qed.

(** X11: the stack [TerraformStack.of] returns is a stack, is one of
    [node.scopes] of the construct, and is its own owning stack. *)
Theorem of_returns_own_stack (c s : IConstruct) :
  TerraformStack_of c = Ok s →
  TerraformStack_isStack s = true ∧ s ∈ scopes c ∧ TerraformStack_of s = Ok s.
Proof.
  unfold TerraformStack_of. intros H.
  destruct (proj1 (lookup_ok c c s) H) as (l1 & l2 & Ha & _ & Hs).
  split; [done|]. split.
  - apply scopes_elem. rewrite Ha, elem_of_app. right. left.
  - by apply lookup_stack.
Qed.

Lemma of_returns_own_stack_witness :
  TerraformStack_isStack sample_stack = true ∧
  sample_stack ∈ scopes sample_resource ∧
  TerraformStack_of sample_stack = Ok sample_stack.
Proof. by apply (of_returns_own_stack sample_resource sample_stack). Defined.

Lemma lookup_result construct construct' c s :
  _lookup construct c = Ok s ↔ _lookup construct' c = Ok s.
Proof. by rewrite !lookup_ok. Qed.

(** X12: a construct that is not a stack has the owning stack of its
    scope: [of] returns a stack for the one exactly when it returns that
    stack for the other, and throws for both or for neither. *)
Theorem of_inherits_from_scope (r : nat) (i : string) (k : cls)
    (ctx : list (string * value)) (p : IConstruct) :
  k ≠ CStack →
  (∀ s, TerraformStack_of (Node r i k ctx (Some p)) = Ok s
        ↔ TerraformStack_of p = Ok s) ∧
  ((∃ e, TerraformStack_of (Node r i k ctx (Some p)) = Throw e)
   ↔ (∃ e, TerraformStack_of p = Throw e)).
Proof.
  intros Hk.
  assert (TerraformStack_isStack (Node r i k ctx (Some p)) = false) as Hns.
  { unfold TerraformStack_isStack. cbn. by destruct k. }
  unfold TerraformStack_of. split.
  - intros s. cbn [_lookup]. rewrite Hns. apply lookup_result.
  - rewrite !lookup_throw. cbn [ancestors]. rewrite Forall_cons.
    split; [by intros [_ ?]|by intros ?].
Qed.

Lemma of_inherits_from_scope_witness :
  TerraformStack_of sample_resource = Ok sample_stack
  ↔ TerraformStack_of sample_stack = Ok sample_stack.
Proof.
  destruct (of_inherits_from_scope 2 "Resource1" CElement [] sample_stack) as [H _];
    [done|apply H].
Defined.

(** The text of the error before the hint. *)
Lemma lookup_throw_message construct c e :
  _lookup construct c = Throw e →
  ∃ root, last (ancestors c) = Some root ∧ scope root = None ∧
    message e =
      "No stack could be identified for the construct at path '"
      +:+ path construct +:+ "'"
      +:+ (if match scope construct with
              | Some p => same p root
              | None => false
              end && instanceof_App root && instanceof_TerraformBackend construct
           then hint_text else ""%string).
Proof.
  induction c as [r i k ctx|r i k ctx p IH] using construct_scope_ind.
  - cbn [_lookup ancestors]. destruct (TerraformStack_isStack _); [done|].
    intros [= <-]. eexists. split; [reflexivity|]. split; reflexivity.
  - cbn [_lookup ancestors]. destruct (TerraformStack_isStack _); [done|].
    intros H. destruct (IH H) as (root & Hl & Hs & Hm). exists root.
    split; [|done]. destruct (ancestors_head p) as [l Hp].
    rewrite Hp in *. exact Hl.
Qed.

(** X13: the error of [TerraformStack.of] ends with the hint about a
    backend created below the root App exactly in that situation. Whenever
    the lookup throws, the message is the path message, followed by the
    hint if and only if the construct is a backend whose scope is the
    construct without scope at the top of its chain and that construct is
    an App. So a backend directly below the root App gets the hint, and a
    construct that is not a backend, a backend further down, and a backend
    below a root that is no App get the path message alone. *)
Theorem of_error_hint (c : IConstruct) :
  (∀ e, TerraformStack_of c = Throw e →
     ∃ root, last (ancestors c) = Some root ∧ scope root = None ∧
       message e
       = "No stack could be identified for the construct at path '"
         +:+ path c +:+ "'"
         +:+ (if match scope c with
                 | Some p => same p root
                 | None => false
                 end && instanceof_App root && instanceof_TerraformBackend c
              then hint_text else ""%string)) ∧
  (∀ app, instanceof_TerraformBackend c = true → scope c = Some app →
          scope app = None → instanceof_App app = true →
     TerraformStack_of c
     = Throw (Error ("No stack could be identified for the construct at path '"
                     +:+ path c +:+ "'" +:+ hint_text))) ∧
  (∀ e, instanceof_TerraformBackend c = false → TerraformStack_of c = Throw e →
     e = Error ("No stack could be identified for the construct at path '"
                +:+ path c +:+ "'")) ∧
  (∀ e p q, scope c = Some p → scope p = Some q → node_ref q ≠ node_ref p →
     scope q = None → TerraformStack_of c = Throw e →
     e = Error ("No stack could be identified for the construct at path '"
                +:+ path c +:+ "'")) ∧
  (∀ e root, scope c = Some root → scope root = None →
     instanceof_App root = false → TerraformStack_of c = Throw e →
     e = Error ("No stack could be identified for the construct at path '"
                +:+ path c +:+ "'")).
Proof.
  split; [|split; [|split; [|split]]].
  - intros e H. by apply lookup_throw_message.
  - intros app Hb Hs Hroot Happ. destruct c as [r i k ctx s]. cbn in Hs. subst s.
    destruct app as [r' i' k' ctx' s']. cbn in Hroot. subst s'.
    unfold TerraformStack_of. cbn [_lookup].
    assert (TerraformStack_isStack (Node r i k ctx (Some (Node r' i' k' ctx' None)))
            = false) as ->.
    { unfold instanceof_TerraformBackend, TerraformStack_isStack in *. cbn in *.
      by destruct k. }
    assert (TerraformStack_isStack (Node r' i' k' ctx' None) = false) as ->.
    { unfold instanceof_App, TerraformStack_isStack in *. cbn in *. by destruct k'. }
    cbn [scope]. unfold same at 1. rewrite bool_decide_eq_true_2 by done.
    by rewrite Happ, Hb.
  - intros e Hb H. unfold TerraformStack_of in H.
    destruct (lookup_throw_message c c e H) as (root & _ & _ & Hm).
    rewrite Hb, andb_false_r in Hm. destruct e as [m].
    cbn [message] in Hm. by rewrite Hm.
  - intros e p q Hp Hq Hne Hroot H. unfold TerraformStack_of in H.
    destruct (lookup_throw_message c c e H) as (root & Hlast & _ & Hm).
    assert (root = q) as ->.
    { destruct c as [r i k ctx s]. cbn in Hp. subst s.
      destruct p as [r1 i1 k1 ctx1 s1]. cbn in Hq. subst s1.
      destruct q as [r2 i2 k2 ctx2 s2]. cbn in Hroot. subst s2.
      cbn in Hlast. congruence. }
    rewrite Hp in Hm. unfold same in Hm at 1.
    rewrite bool_decide_eq_false_2 in Hm by done.
    destruct e as [m]. cbn [message andb] in Hm. by rewrite Hm.
  - intros e root Hs Hroot Happ H. unfold TerraformStack_of in H.
    destruct (lookup_throw_message c c e H) as (root' & Hlast & _ & Hm).
    assert (root' = root) as ->.
    { destruct c as [r i k ctx s]. cbn in Hs. subst s.
      destruct root as [r1 i1 k1 ctx1 s1]. cbn in Hroot. subst s1.
      cbn in Hlast. congruence. }
    rewrite Happ, andb_false_r in Hm. destruct e as [m].
    cbn [message andb] in Hm. by rewrite Hm.
Qed.

Lemma of_error_hint_witness :
  TerraformStack_of sample_orphan
  = Throw (Error ("No stack could be identified for the construct at path '"
                  +:+ path sample_orphan +:+ "'" +:+ hint_text)) ∧
  TerraformStack_of sample_deep
  = Throw (Error ("No stack could be identified for the construct at path '"
                  +:+ path sample_deep +:+ "'")).
Proof.
  split.
  - destruct (of_error_hint sample_orphan) as (_ & H & _).
    by apply (H sample_app).
  - destruct (TerraformStack_of sample_deep) as [s|e] eqn:E; [by vm_compute in E|].
    destruct (of_error_hint sample_deep) as (_ & _ & _ & H & _).
    f_equal. by apply (H e (Node 4 "Group" CConstruct [] (Some sample_app)) sample_app).
Defined.

Lemma indexOf_from_absent l x i :
  Forall (λ y, node_ref y ≠ node_ref x) l → indexOf_from l x i = (-1)%Z.
Proof.
  revert i. induction l as [|y l IH]; intros i Hl; [done|]. simpl.
  destruct (proj1 (Forall_cons _ _ _) Hl) as [Hy Hl'].
  unfold same. rewrite bool_decide_eq_false_2 by done. by apply IH.
Qed.

Section LogicalIdEdges.

Variable EXCLUDE_STACK_ID_FROM_LOGICAL_IDS : string.
Variable ALLOW_SEP_CHARS_IN_LOGICAL_IDS : string.
Variable makeUniqueId : list string → option value → string.

(** X14: two edges of [allocateLogicalId] with the flag
    [EXCLUDE_STACK_ID_FROM_LOGICAL_IDS] set. For the node of the stack
    itself there is no component and the logical id is the empty string,
    [makeUniqueId] not being called. For a node that does not have the
    stack among its scopes, [indexOf] is -1 and the components are the ids
    of all scopes, the root included. *)
Theorem allocateLogicalId_edges (this node : IConstruct) :
  truthy (tryGetContext node EXCLUDE_STACK_ID_FROM_LOGICAL_IDS) = true →
  (node = this →
   Forall (λ y, node_ref y ≠ node_ref this) (tail (ancestors this)) →
   getLogicalId EXCLUDE_STACK_ID_FROM_LOGICAL_IDS ALLOW_SEP_CHARS_IN_LOGICAL_IDS
     makeUniqueId this (OfNode node) = ""%string) ∧
  (Forall (λ y, node_ref y ≠ node_ref this) (scopes node) →
   components EXCLUDE_STACK_ID_FROM_LOGICAL_IDS this (OfNode node)
   = node_id <$> scopes node).
Proof.
  intros Hflag. split.
  - intros -> Hanc.
    unfold getLogicalId, allocateLogicalId, components.
    cbn [target_node target_stack]. rewrite Hflag.
    destruct (ancestors_head this) as [l Hl].
    assert (scopes this = rev l ++ this :: []) as Hs.
    { by rewrite scopes_ancestors, Hl. }
    rewrite Hl in Hanc. cbn [tail] in Hanc.
    unfold indexOf. rewrite Hs, indexOf_from_app.
    + by rewrite Z.add_0_l, slice_after.
    + apply Forall_forall. intros y Hy. rewrite Forall_forall in Hanc.
      apply Hanc. by apply list_elem_of_In, in_rev, list_elem_of_In.
  - intros Habs. unfold components. cbn [target_node target_stack].
    rewrite Hflag. unfold indexOf. by rewrite indexOf_from_absent.
Qed.

End LogicalIdEdges.

Lemma allocateLogicalId_edges_witness :
  getLogicalId "excludeStackIdFromLogicalIds" "allowSepCharsInLogicalIds"
    (λ _ _, "unused"%string) flagged_stack (OfNode flagged_stack) = ""%string ∧
  components "excludeStackIdFromLogicalIds" flagged_resource (OfNode flagged_stack)
  = node_id <$> scopes flagged_stack.
Proof.
  split.
  - destruct (allocateLogicalId_edges "excludeStackIdFromLogicalIds"
                "allowSepCharsInLogicalIds" (λ _ _, "unused"%string)
                flagged_stack flagged_stack eq_refl) as [H _].
    apply H; [done|]. repeat constructor. simpl. lia.
  - destruct (allocateLogicalId_edges "excludeStackIdFromLogicalIds"
                "allowSepCharsInLogicalIds" (λ _ _, "unused"%string)
                flagged_resource flagged_stack eq_refl) as [_ H].
    apply H. repeat constructor; simpl; lia.
Defined.

End ScopesExtra.

(** ** Elements, nested stacks and the backend *)

Module TreeExtra.
Import Json Tree Stack Notions TreeTheory StackTheory.

Lemma preorder_head node : node ∈ preorder node.
Proof. destruct node. left. Qed.

Lemma preorder_children node child c :
  child ∈ children node → c ∈ preorder child →
  c ∈ flat_map preorder (children node).
Proof.
  intros Hchild Hc. apply list_elem_of_In, in_flat_map. exists child.
  split; by apply list_elem_of_In.
Qed.

Lemma preorder_owner node : ∀ c,
  c ∈ preorder node →
  owns node c ∨
  ∃ s, s ∈ flat_map preorder (children node) ∧ isStack s = true ∧ owns s c.
Proof.
  induction node as [r i k ch IH] using construct_children_ind. intros c.
  cbn [preorder children]. rewrite elem_of_cons. intros [->|Hc]; [left; constructor|].
  apply list_elem_of_In, in_flat_map in Hc as (child & Hchild & Hc).
  apply list_elem_of_In in Hchild. apply list_elem_of_In in Hc.
  rewrite Forall_forall in IH.
  destruct (IH child Hchild c Hc) as [Hown|(s & Hs & Hstack & Hown)].
  - destruct (isStack child) eqn:E.
    + right. exists child. split; [|done].
      eapply (preorder_children (Construct r i k ch)); [done|apply preorder_head].
    + left. by apply owns_child with child.
  - right. exists s. split; [|done].
    eapply (preorder_children (Construct r i k ch)); [done|].
    destruct child as [r' i' k' ch']. right. exact Hs.
Qed.

Lemma terraformElements_elem node c :
  c ∈ terraformElements node [] ↔ isElement c = true ∧ owns node c.
Proof.
  rewrite terraformElements_spec. cbn [app].
  by rewrite list_elem_of_filter, bounded_preorder_owns, Is_true_true.
Qed.

(** X15: no element of the tree is lost to the stack boundaries: every
    element below a node is collected by [terraformElements] of that node
    or by [terraformElements] of a nested stack below it. *)
Theorem every_element_has_a_collecting_stack (node c : construct) :
  c ∈ preorder node → isElement c = true →
  c ∈ terraformElements node [] ∨
  ∃ s, s ∈ flat_map preorder (children node) ∧ isStack s = true ∧
       c ∈ terraformElements s [].
Proof.
  intros Hc He. destruct (preorder_owner node c Hc) as [Hown|(s & Hs & Hst & Hown)].
  - left. by apply terraformElements_elem.
  - right. exists s. split; [done|]. split; [done|].
    by apply terraformElements_elem.
Qed.

Lemma every_element_has_a_collecting_stack_witness :
  Construct 6 "Hidden" (KElement (OtherElement "aws_bucket")) []
    ∈ terraformElements nested_sample [] ∨
  ∃ s, s ∈ flat_map preorder (children nested_sample) ∧ isStack s = true ∧
       Construct 6 "Hidden" (KElement (OtherElement "aws_bucket")) []
         ∈ terraformElements s [].
Proof.
  apply every_element_has_a_collecting_stack; [|done].
  apply list_elem_of_In. simpl. do 5 right. by left.
Defined.

(** X16: the [backend] getter looks into nested stacks, which
    [terraformElements] does not: when the only backends below a stack lie
    inside nested stacks, the getter returns the first of them, creates no
    [LocalBackend], and what it returns is not among the elements of the
    stack. *)
Theorem backend_found_in_nested_stack (w : world) (this : nat)
    (st : TerraformStack) (b : construct) (rest : list construct) :
  stacks w !! this = Some st →
  filter isBackend (bounded_preorder (node st)) = [] →
  filter isBackend (preorder (node st)) = b :: rest →
  backend w this = Ok (w, b) ∧ isBackend b = true ∧
  b ∉ terraformElements (node st) [].
Proof.
  intros Hst Hnone Hb. split; [by eapply backend_found|].
  assert (b ∈ filter isBackend (preorder (node st))) as Hin by (rewrite Hb; left).
  apply list_elem_of_filter in Hin as [Hback _]. apply Is_true_true in Hback.
  split; [done|]. rewrite terraformElements_spec. cbn [app].
  intros Hin. apply list_elem_of_filter in Hin as [_ Hin].
  assert (b ∈ filter isBackend (bounded_preorder (node st))) as Hf.
  { apply list_elem_of_filter. split; [by apply Is_true_true|done]. }
  rewrite Hnone in Hf. inversion Hf.
Qed.

Lemma preorder_append_child n c :
  children c = [] →
  preorder (append_child n c)
  = append_child n c :: flat_map preorder (children n) ++ [c].
Proof.
  intros Hc. destruct n as [r i k ch]. destruct c as [r' i' k' ch'].
  cbn in Hc. subst ch'. cbn [append_child preorder children]. unfold push.
  by rewrite flat_map_app.
Qed.

Lemma bounded_preorder_append_child n c :
  children c = [] → isStack c = false →
  bounded_preorder (append_child n c)
  = append_child n c
    :: flat_map (λ child, if isStack child then [] else bounded_preorder child)
         (children n) ++ [c].
Proof.
  intros Hc Hs. destruct n as [r i k ch]. destruct c as [r' i' k' ch'].
  cbn in Hc. subst ch'. cbn [append_child bounded_preorder children]. unfold push.
  rewrite flat_map_app. cbn [flat_map]. by rewrite Hs.
Qed.

Lemma filter_root (P : construct → bool) n n' l :
  P n = false → P n' = false → filter P (n :: l) = filter P (n' :: l).
Proof.
  intros H H'. rewrite !filter_cons_False; [done| |]; intros Ht;
    apply Is_true_true in Ht; congruence.
Qed.

(** X17: the [backend] getter creates a backend at most once: whenever it
    returns, what it returns is a backend, and a second access returns the
    same backend and changes nothing. *)
Theorem backend_getter_is_idempotent (w w1 : world) (this : nat) (b : construct) :
  backend w this = Ok (w1, b) →
  isBackend b = true ∧ backend w1 this = Ok (w1, b).
Proof.
  unfold backend at 1. destruct (stacks w !! this) as [st|] eqn:Hst; [|done].
  rewrite visit_spec. cbn [app].
  destruct (filter isBackend (preorder (node st))) as [|b0 bs] eqn:Hf.
  - intros H. destruct (new_element_inv _ _ _ _ _ _ H) as (st' & Hst' & -> & ->).
    assert (st' = st) as -> by congruence.
    split; [done|]. unfold backend. rewrite with_child_lookup.
    rewrite visit_spec. cbn [app node set_node].
    rewrite preorder_append_child by done.
    assert (isBackend (append_child (node st) (created w "backend" (LocalBackend no_props)))
            = false) as Hroot'.
    { assert (node st ∈ preorder (node st)) as Hin by apply preorder_head.
      destruct (isBackend (node st)) eqn:E.
      - assert (node st ∈ filter isBackend (preorder (node st))) as Hin'.
        { apply list_elem_of_filter. split; [by apply Is_true_true|done]. }
        rewrite Hf in Hin'. inversion Hin'.
      - destruct (node st). exact E. }
    rewrite filter_cons_False by (rewrite Hroot'; by intros []).
    rewrite filter_app.
    assert (filter isBackend (flat_map preorder (children (node st))) = []) as ->.
    { destruct (node st) as [r i k ch]. cbn [preorder children] in *.
      destruct (isBackend (Construct r i k ch)) eqn:E.
      - rewrite filter_cons_True in Hf by (by rewrite E). done.
      - rewrite filter_cons_False in Hf; [done|]. rewrite E. by intros []. }
    done.
  - intros [= <- <-].
    assert (b0 ∈ filter isBackend (preorder (node st))) as Hin by (rewrite Hf; left).
    apply list_elem_of_filter in Hin as [Hback _]. apply Is_true_true in Hback.
    split; [done|]. unfold backend. by rewrite Hst, visit_spec, Hf.
Qed.

Lemma backend_getter_is_idempotent_witness :
  isBackend (local_backend sample_world) = true ∧
  backend (with_child sample_world 1 origin_stack (local_backend sample_world)) 1
  = Ok (with_child sample_world 1 origin_stack (local_backend sample_world),
        local_backend sample_world).
Proof. by apply (backend_getter_is_idempotent sample_world _ 1). Defined.

Lemma backend_found_in_nested_stack_witness :
  backend nested_backend_world 1 = Ok (nested_backend_world, nested_backend) ∧
  isBackend nested_backend = true ∧
  nested_backend ∉ terraformElements (node nested_backend_stack) [].
Proof.
  by apply (backend_found_in_nested_stack nested_backend_world 1
              nested_backend_stack nested_backend []).
Defined.

End TreeExtra.

(** ** What the cross-stack registrations add and keep *)

Module StackExtra.
Import Json Tree Stack Notions TreeTheory StackTheory TreeExtra.

Section Registrations.

Variable join_cwd : string → string.

(** X18: the two registration methods only add: whenever either returns,
    every stack of the application still has its path, its version and its
    raw overrides, every entry its two memo tables had, and the children it
    had as its first children, in the same order. *)
Theorem registrations_only_add (w : world) (this : nat) :
  (∀ identifier w1 o,
     registerOutgoingCrossStackReference w this identifier = Ok (w1, o) →
     ∀ s st, stacks w !! s = Some st →
       ∃ st1, stacks w1 !! s = Some st1 ∧ grown st st1) ∧
  (∀ fromStack w1 r,
     registerIncomingCrossStackReference join_cwd w this fromStack = Ok (w1, r) →
     ∀ s st, stacks w !! s = Some st →
       ∃ st1, stacks w1 !! s = Some st1 ∧ grown st st1).
Proof.
  split.
  - intros identifier w1 o. unfold registerOutgoingCrossStackReference.
    destruct (stacks w !! this) as [st0|] eqn:Hthis; [|done].
    destruct (crossStackOutputs st0 !! identifier) as [o0|] eqn:Hmemo.
    + intros [= <- <-] s st Hs. exists st.
      split; [done|apply same_fields_grown, same_fields_refl].
    + destruct (new_element w this _ _) as [[w' c]|] eqn:E; [|done].
      cbn. intros [= <- <-].
      apply (update_frames_grown w w' this st0);
        [by eapply new_element_frames|done|].
      intros st' (H1 & H2 & H3 & H4 & H5 & H6). repeat split; try done.
      * intros k r Hk. cbn [crossStackOutputs set_crossStackOutputs].
        rewrite lookup_insert_ne by congruence. by rewrite H4.
      * intros k r Hk. cbn [crossStackDataSources set_crossStackOutputs].
        by rewrite H5.
  - intros fromStack w1 r. unfold registerIncomingCrossStackReference.
    destruct (stacks w !! this) as [st0|] eqn:Hthis; [|done].
    destruct (stacks w !! fromStack) as [from|] eqn:Hfrom; [|done].
    destruct (crossStackDataSources st0 !! toString from) as [r0|] eqn:Hmemo.
    + intros [= <- <-] s st Hs. exists st.
      split; [done|apply same_fields_grown, same_fields_refl].
    + destruct (backend w fromStack) as [[w' b]|] eqn:Eb; [|done]. cbn.
      destruct (getRemoteStateDataSource join_cwd w' b this _ _)
        as [[w'' rs]|] eqn:Er; [|done].
      cbn. intros [= <- <-].
      apply (update_frames_grown w w'' this st0); [|done|].
      { eapply frames_trans; [by eapply backend_frames|].
        by eapply getRemoteStateDataSource_frames. }
      intros st' (H1 & H2 & H3 & H4 & H5 & H6). repeat split; try done.
      * intros k r Hk. cbn [crossStackOutputs set_crossStackDataSources].
        by rewrite H4.
      * intros k r Hk. cbn [crossStackDataSources set_crossStackDataSources].
        rewrite lookup_insert_ne by congruence. by rewrite H5.
Qed.

End Registrations.

Lemma registrations_only_add_witness :
  ∃ w1 r st1,
    registerIncomingCrossStackReference sample_cwd sample_world 2 1 = Ok (w1, r) ∧
    stacks w1 !! 1 = Some st1 ∧ grown origin_stack st1.
Proof.
  destruct (registerIncomingCrossStackReference sample_cwd sample_world 2 1)
    as [[w1 r]|e] eqn:E; [|by vm_compute in E].
  destruct (registrations_only_add sample_cwd sample_world 2) as [_ H].
  destruct (H 1 w1 r E 1 origin_stack eq_refl) as (st1 & Hs & Hg).
  by exists w1, r, st1.
Defined.

(** X19: the first registration of an outgoing reference, for an
    identifier under which the memo table yields nothing and whose output
    name is free, makes the stack collect exactly one more element, the new
    output, after those it collected before; a second registration of the
    same identifier adds none. *)
Theorem registerOutgoing_adds_one_element (w : world) (this : nat)
    (identifier : string) (st : TerraformStack) :
  stacks w !! this = Some st →
  isStack (node st) = true →
  crossStackOutputs st !! identifier = None →
  sanitizeId ("cross-stack-output-" +:+ identifier)
    ∉ Tree.id <$> children (node st) →
  ∃ w1 st1 c,
    registerOutgoingCrossStackReference w this identifier
    = Ok (w1, Element (Tree.ref c)) ∧
    kind_of c = KElement (TerraformOutput identifier this true) ∧
    stacks w1 !! this = Some st1 ∧
    terraformElements (node st1) [] = terraformElements (node st) [] ++ [c] ∧
    ∀ w2 o st2,
      registerOutgoingCrossStackReference w1 this identifier = Ok (w2, o) →
      stacks w2 !! this = Some st2 →
      terraformElements (node st2) [] = terraformElements (node st1) [].
Proof.
  intros Hst Hstack Hmemo Hfree.
  set (c := created w ("cross-stack-output-" +:+ identifier)
              (TerraformOutput identifier this true)).
  assert (registerOutgoingCrossStackReference w this identifier
          = Ok (update_stack (with_child w this st c) this
                  (λ st0, set_crossStackOutputs
                            (<[identifier := Element (Tree.ref c)]>
                               (crossStackOutputs st0)) st0),
                Element (Tree.ref c))) as Hcall.
  { unfold registerOutgoingCrossStackReference. rewrite Hst, Hmemo.
    by rewrite (new_element_ok _ _ _ _ st). }
  eexists _, _, c. split; [exact Hcall|]. split; [done|].
  split.
  { unfold update_stack. cbn [stacks].
    by rewrite lookup_alter_eq, with_child_lookup. }
  split.
  { cbn [node set_crossStackOutputs set_node].
    rewrite !terraformElements_spec. cbn [app].
    rewrite bounded_preorder_append_child by done.
    destruct (node st) as [r i k ch] eqn:En. cbn [bounded_preorder children].
    assert (isElement (Construct r i k ch) = false) as Hroot.
    { unfold isStack, isElement in *. cbn in *. by destruct k. }
    rewrite (filter_root isElement _ (Construct r i k ch)); [|done|done].
    change (Construct r i k ch :: ?l ++ [c]) with ((Construct r i k ch :: l) ++ [c]).
    rewrite filter_app. f_equal. }
  intros w2 o st2 Hagain Hst2.
  rewrite (registerOutgoing_again _ _ _ _ _ Hcall) in Hagain.
  injection Hagain as <- _.
  unfold update_stack in Hst2. cbn [stacks] in Hst2.
  rewrite lookup_alter_eq, with_child_lookup in Hst2. by injection Hst2 as <-.
Qed.

Lemma registerOutgoing_adds_one_element_witness :
  ∃ w1 st1 c,
    registerOutgoingCrossStackReference sample_world 1 "resource.value"
    = Ok (w1, Element (Tree.ref c)) ∧
    stacks w1 !! 1 = Some st1 ∧
    terraformElements (node st1) []
    = terraformElements (node origin_stack) [] ++ [c].
Proof.
  destruct (registerOutgoing_adds_one_element sample_world 1 "resource.value"
              origin_stack eq_refl eq_refl eq_refl)
    as (w1 & st1 & c & E & _ & Hs & He & _).
  { rewrite list_elem_of_In. simpl. intros [H|[H|[]]]; discriminate H. }
  by exists w1, st1, c.
Defined.

(** X20: [registerOutgoingCrossStackReference] throws in exactly one
    situation: the memo table yields nothing under the identifier and the
    stack already has a child with the name of the output. An identifier
    under which the table yields a value never throws. *)
Theorem registerOutgoing_throws_exactly (w : world) (this : nat)
    (identifier : string) (st : TerraformStack) (e : stack_error) :
  stacks w !! this = Some st →
  (registerOutgoingCrossStackReference w this identifier = Throw e ↔
   crossStackOutputs st !! identifier = None ∧
   sanitizeId ("cross-stack-output-" +:+ identifier)
     ∈ Tree.id <$> children (node st) ∧
   e = DuplicateName (sanitizeId ("cross-stack-output-" +:+ identifier)) this).
Proof.
  intros Hst. unfold registerOutgoingCrossStackReference. rewrite Hst.
  destruct (crossStackOutputs st !! identifier) as [o|] eqn:Hmemo.
  - split; [done|by intros [? _]].
  - unfold new_element. rewrite Hst. cbn [created Tree.id].
    case_bool_decide as Hin; cbn.
    + split; [by intros [= <-]|by intros (_ & _ & ->)].
    + split; [done|by intros (_ & ? & _)].
Qed.

Lemma registerOutgoing_throws_exactly_witness :
  registerOutgoingCrossStackReference clash_world 1 "x"
  = Ok ({| next := 4;
           stacks := {[1 := set_crossStackOutputs (<["x" := Element 3]> empty_table)
                             (set_node clash_stack
                                (append_child (node clash_stack)
                                   (created clash_world "cross-stack-output-x"
                                      (TerraformOutput "x" 1 true))))]} |},
        Element 3) ∧
  ¬ (∃ e, registerOutgoingCrossStackReference clash_world 1 "x" = Throw e).
Proof.
  split; [by vm_compute|]. intros [e He].
  destruct (proj1 (registerOutgoing_throws_exactly clash_world 1 "x" clash_stack e
                     eq_refl) He) as (_ & Hin & _).
  rewrite list_elem_of_In in Hin. simpl in Hin. destruct Hin as [H|[]].
  discriminate H.
Defined.

End StackExtra.

(** ** The remote state of the local backend *)

Module BackendExtra.
Import Json Tree Stack Synth TreeTheory StackTheory SynthTheory.

Section LocalRemoteState.

Variable join_cwd : string → string.

(** X21: [LocalBackend.getRemoteStateDataSource] needs two free names in
    the consuming stack. It throws on the name of the asset when that is
    taken, and on the name of the data source when that is taken or equals
    the name of the asset. Otherwise it returns the data source, having
    added the asset and then the data source as the last children of the
    consuming stack and touched no other stack; the data source carries
    [workspaceDir] and refers to the asset, whose file is [props.path] when
    that is a non-empty string and the state file below the working
    directory otherwise. *)
Theorem local_remote_state_names (w : world) (props : LocalBackendProps)
    (scope : nat) (st : TerraformStack) (name fromStack : string) :
  let asset_name := sanitizeId (fromStack +:+ "-state") in
  let ds_name := sanitizeId name in
  let taken := Tree.id <$> children (node st) in
  stacks w !! scope = Some st →
  (asset_name ∈ taken →
   LocalBackend_getRemoteStateDataSource join_cwd w props scope name fromStack
   = Throw (DuplicateName asset_name scope)) ∧
  (asset_name ∉ taken → ds_name ∈ taken ∨ ds_name = asset_name →
   LocalBackend_getRemoteStateDataSource join_cwd w props scope name fromStack
   = Throw (DuplicateName ds_name scope)) ∧
  (asset_name ∉ taken → ds_name ∉ taken → ds_name ≠ asset_name →
   ∃ w2 st2 asset ds file,
     LocalBackend_getRemoteStateDataSource join_cwd w props scope name fromStack
     = Ok (w2, ds) ∧
     kind_of asset = KElement (TerraformAsset file) ∧
     (∀ p, props_path props = Some p → p ≠ ""%string → file = p) ∧
     (props_path props = None ∨ props_path props = Some ""%string →
      file = join_cwd ("terraform." +:+ fromStack +:+ ".tfstate")) ∧
     kind_of ds
     = KElement (DataTerraformRemoteStateLocal (workspaceDir props) (Tree.ref asset)) ∧
     stacks w2 !! scope = Some st2 ∧
     children (node st2) = children (node st) ++ [asset; ds] ∧
     (∀ s, s ≠ scope → stacks w2 !! s = stacks w !! s)).
Proof.
  intros asset_name ds_name taken Hst.
  unfold LocalBackend_getRemoteStateDataSource.
  set (file := match props_path props with
               | Some p => if bool_decide (p = ""%string)
                           then join_cwd ("terraform." +:+ fromStack +:+ ".tfstate")
                           else p
               | None => join_cwd ("terraform." +:+ fromStack +:+ ".tfstate")
               end).
  split; [|split].
  - intros Hin. by rewrite (new_element_clash _ _ _ _ st).
  - intros Hfree Hclash. rewrite (new_element_ok _ _ _ _ st) by done.
    cbn [mbind result_bind].
    erewrite new_element_clash; [done|apply with_child_lookup|].
    cbn [node set_node]. rewrite children_append_child, fmap_app, elem_of_app.
    destruct Hclash as [?|Heq]; [by left|right].
    apply list_elem_of_In. left. exact (eq_sym Heq).
  - intros Hfree Hfree' Hne. rewrite (new_element_ok _ _ _ _ st) by done.
    cbn [mbind result_bind].
    set (asset := created w (fromStack +:+ "-state") (TerraformAsset file)).
    set (w1 := with_child w scope st asset).
    rewrite (new_element_ok w1 scope _ _ (set_node st (append_child (node st) asset)));
      [|apply with_child_lookup|]; last first.
    { cbn [node set_node]. rewrite children_append_child, fmap_app, elem_of_app.
      intros [?|Heq]; [done|].
      apply list_elem_of_In in Heq. destruct Heq as [Heq|[]].
      cbn [Tree.id created asset] in Heq. by destruct Hne. }
    eexists _, _, asset, _, file. split; [reflexivity|]. split; [done|].
    split.
    { intros p Hp Hne'. subst file. rewrite Hp.
      by rewrite bool_decide_eq_false_2. }
    split.
    { intros [Hp|Hp]; subst file; rewrite Hp; [done|].
      by rewrite bool_decide_eq_true_2. }
    split; [done|]. split; [apply with_child_lookup|]. split.
    { cbn [node set_node]. rewrite !children_append_child.
      by rewrite <- app_assoc. }
    intros s Hs. subst w1. unfold with_child. cbn [stacks].
    by rewrite !lookup_insert_ne by done.
Qed.

End LocalRemoteState.

Lemma local_remote_state_names_witness :
  LocalBackend_getRemoteStateDataSource sample_cwd sample_world
    {| props_path := Some ""%string; workspaceDir := Some "ws"%string |}
    2 "TestProvider" "OriginStack"
  = Throw (DuplicateName "TestProvider" 2).
Proof.
  destruct (local_remote_state_names sample_cwd sample_world
              {| props_path := Some ""%string; workspaceDir := Some "ws"%string |}
              2 test_stack "TestProvider" "OriginStack" eq_refl) as (_ & H & _).
  apply H.
  - rewrite list_elem_of_In. simpl. intros [E|[]]. discriminate E.
  - left. apply list_elem_of_In. by left.
Defined.

End BackendExtra.
